(** * MPlib: articulated model, validity checker, KDL inverse kinematics

    A shallow embedding of the C++ sources

    - [src/unnamed/part_001], the implementation of [ArticulatedModelTpl<S>]
      (it includes "articulated_model.h");
    - [src/unnamed/part_000], the planner header with [ValidityCheckerTpl<S>];
    - [src/src/kdl_model.cpp] and [kdl_model.h], [KDLModelTpl<S>];
    - [src/src/macros_utils.h], the [ASSERT] macro;
    - [src/python/pybind_planning_world.hpp], which names the queries of the
      planning world and the fields of its results.

    The scalar type [S] ([float] or [double]) is kept abstract: the code
    under study only copies and converts scalars.  Indices, sizes and
    per-joint dimensions ([size_t], [int], [Eigen::Index]) index vectors
    held in memory and are modelled as [nat].  A [std::vector] or an
    [Eigen] vector is a [list]; an access outside its bounds is not a
    value of the program and is the outcome [Crash].

    Collaborators whose code is outside these files (Pinocchio, FCL, KDL,
    the planning world) appear as the fields of a record or as the
    variables of a section. *)

From Stdlib Require Import ZArith QArith.
From stdpp Require Import base tactics option list list_numbers sorting
  strings pretty gmap.

Open Scope nat_scope.

(** ** Outcomes of a call: normal return, C++ exception, out-of-bounds access *)

Inductive exn : Type :=
| runtime_error (what : string)   (* thrown by ASSERT *)
| out_of_range (what : string).   (* thrown by std::map::at *)

Inductive outcome (St A : Type) : Type :=
| Ok (a : A) (s : St)          (* returned [a], object left in state [s] *)
| Throw (e : exn) (s : St)     (* threw [e]; [s] is the state at the throw *)
| Crash.                       (* access outside a vector *)
Arguments Ok {St A} a s.
Arguments Throw {St A} e s.
Arguments Crash {St A}.

Definition M (St A : Type) : Type := St → outcome St A.

#[global] Instance M_ret {St} : MRet (M St) := λ A a s, Ok a s.
#[global] Instance M_bind {St} : MBind (M St) := λ A B f m s,
  match m s with
  | Ok a s' => f a s'
  | Throw e s' => Throw e s'
  | Crash => Crash
  end.

Definition get {St} : M St St := λ s, Ok s s.
Definition put {St} (s : St) : M St unit := λ _, Ok tt s.
Definition throw {St A} (e : exn) : M St A := λ s, Throw e s.
Definition crash {St A} : M St A := λ _, Crash.

(** macros_utils.h:
    [#define ASSERT(exp, info) if (!(exp)) { throw std::runtime_error((info)); }] *)
Definition ASSERT {St} (exp : bool) (info : string) : M St unit :=
  if exp then mret tt else throw (runtime_error info).

(** [v[i]] on an Eigen vector or a std::vector, as an rvalue. *)
Definition at_index {St A} (v : list A) (i : nat) : M St A :=
  match v !! i with
  | Some x => mret x
  | None => crash
  end.

(** [v[i] = x] on a local vector [v]. *)
Definition set_index {St A} (v : list A) (i : nat) (x : A) : M St (list A) :=
  if decide (i < length v) then mret (<[i:=x]> v) else crash.

(** [std::unique] followed by [erase]: of every run of equal neighbours
    the first element is kept. *)
Fixpoint unique_from (prev : nat) (l : list nat) : list nat :=
  match l with
  | [] => []
  | y :: l' => if decide (prev = y) then unique_from prev l'
               else y :: unique_from y l'
  end.

Definition unique (l : list nat) : list nat :=
  match l with
  | [] => []
  | x :: l' => x :: unique_from x l'
  end.

(** [std::sort] on a vector of [size_t]: the result is the ascending
    arrangement of the elements, whatever the algorithm. *)
Definition sort (l : list nat) : list nat := merge_sort (≤) l.

(** ** The articulated model (src/unnamed/part_001) *)
Module ArticulatedModel.

Section articulated_model.
(** Scalar type of the template. *)
Context {S : Type}.
(** Pinocchio's per-model kinematic data, filled by forward kinematics. *)
Context {PinData : Type}.
(** [Matrix3<S>], the rotation part of a [Transform3<S>]. *)
Context {Matrix3 : Type}.

Record Vector7 : Type := mkVector7 { v0 : S; v1 : S; v2 : S; v3 : S; v4 : S; v5 : S; v6 : S }.

Record Transform3 : Type := mkTransform3 {
  linear : Matrix3;
  translation : S * S * S;
}.

(** What the class uses of [PinocchioModelTpl<S>] and of Eigen's
    quaternion (their code is not part of these files). *)
Record PinocchioModelTpl : Type := {
  (** index of the first configuration slot of user joint [i] *)
  getJointId : nat → nat;
  (** number of configuration slots (degrees of freedom) of user joint [i] *)
  getJointDim : nat → nat;
  (** user joint indices on the path from the root to a link *)
  getChainJointIndex : string → list nat;
  (** kinematic data of a full configuration *)
  computeForwardKinematics : list S → PinData;
  (** pose (position, quaternion wxyz) of user link [i] in that data *)
  getLinkPose : PinData → nat → Vector7;
  (** [Quaternion<S>(w, x, y, z).matrix()] *)
  quaternion_matrix : S → S → S → S → Matrix3;
}.

(** Calls made to the collaborators, oldest first. *)
Inductive call : Type :=
| call_computeForwardKinematics (qpos : list S)
| call_updateCollisionObjects (link_pose : list Transform3).

Record ArticulatedModelTpl : Type := mkArticulatedModel {
  user_link_names_ : list string;
  user_joint_names_ : list string;
  move_group_end_effectors_ : list string;
  move_group_user_joints_ : list nat;
  qpos_dim_ : nat;
  current_qpos_ : list S;
  (** state of [pinocchio_model_]: its kinematic data *)
  pinocchio_data_ : PinData;
  (** state of [fcl_model_]: the poses of its collision objects *)
  fcl_link_pose_ : list Transform3;
  (** history of the calls to [pinocchio_model_] and [fcl_model_] *)
  calls_ : list call;
}.

Context (pinocchio_model_ : PinocchioModelTpl).

#[local] Abbreviation AM := ArticulatedModelTpl.

Definition set_move_group (ees : list string) (joints : list nat) (dim : nat)
    (a : AM) : AM :=
  mkArticulatedModel (user_link_names_ a) (user_joint_names_ a) ees joints dim
    (current_qpos_ a) (pinocchio_data_ a) (fcl_link_pose_ a) (calls_ a).

Definition set_current_qpos (q : list S) (a : AM) : AM :=
  mkArticulatedModel (user_link_names_ a) (user_joint_names_ a)
    (move_group_end_effectors_ a) (move_group_user_joints_ a) (qpos_dim_ a)
    q (pinocchio_data_ a) (fcl_link_pose_ a) (calls_ a).

Definition set_pinocchio (q : list S) (a : AM) : AM :=
  mkArticulatedModel (user_link_names_ a) (user_joint_names_ a)
    (move_group_end_effectors_ a) (move_group_user_joints_ a) (qpos_dim_ a)
    (current_qpos_ a) (computeForwardKinematics pinocchio_model_ q)
    (fcl_link_pose_ a) (calls_ a ++ [call_computeForwardKinematics q]).

Definition set_fcl (link_pose : list Transform3) (a : AM) : AM :=
  mkArticulatedModel (user_link_names_ a) (user_joint_names_ a)
    (move_group_end_effectors_ a) (move_group_user_joints_ a) (qpos_dim_ a)
    (current_qpos_ a) (pinocchio_data_ a)
    link_pose (calls_ a ++ [call_updateCollisionObjects link_pose]).

(** *** getMoveGroupJointNames *)
Fixpoint getMoveGroupJointNames_loop (joints : list nat) (ret : list string)
    : M AM (list string) :=
  match joints with
  | [] => mret ret
  | i :: joints' =>
      a ← get;
      name ← at_index (user_joint_names_ a) i;
      getMoveGroupJointNames_loop joints' (ret ++ [name])
  end.

Definition getMoveGroupJointNames : M AM (list string) :=
  a ← get; getMoveGroupJointNames_loop (move_group_user_joints_ a) [].

(** *** setMoveGroup (lines 82-98) *)

(** The loop over [end_effectors]: each chain is inserted at the front. *)
Definition collect_chain_joints (end_effectors : list string) : list nat :=
  foldl (λ joints end_effector,
           getChainJointIndex pinocchio_model_ end_effector ++ joints)
        [] end_effectors.

(** The loop [for (auto i : move_group_user_joints_) qpos_dim_ += getJointDim(i)]. *)
Definition sum_joint_dims (joints : list nat) : nat :=
  foldl (λ dim i, dim + getJointDim pinocchio_model_ i) 0 joints.

Definition setMoveGroup (end_effectors : list string) (a : AM) : AM :=
  let joints := unique (sort (collect_chain_joints end_effectors)) in
  set_move_group end_effectors joints (sum_joint_dims joints) a.

(** The overload taking one end effector (lines 76-80). *)
Definition setMoveGroup1 (end_effector : string) (a : AM) : AM :=
  setMoveGroup [end_effector] a.

(** *** setQpos (lines 100-127) *)

Definition size_message (a : AM) (qpos : list S) : string :=
  "Length is not correct, Dim of Q: " +:+ pretty (qpos_dim_ a) +:+
  " ,Len of qpos: " +:+ pretty (length qpos).

(** [current_qpos_[i] = x] *)
Definition store_current_qpos (i : nat) (x : S) : M AM unit :=
  a ← get;
  q ← set_index (current_qpos_ a) i x;
  put (set_current_qpos q a).

(** [for (size_t j = 0; j < dim_i; j++) current_qpos_[start_idx + j] = qpos[len++];]
    run from [j], with [n] iterations left; returns the final [len]. *)
Fixpoint copy_joint (qpos : list S) (start_idx j n len : nat) : M AM nat :=
  match n with
  | 0 => mret len
  | Datatypes.S n' =>
      x ← at_index qpos len;
      store_current_qpos (start_idx + j) x;;
      copy_joint qpos start_idx (Datatypes.S j) n' (Datatypes.S len)
  end.

(** [for (auto i : move_group_user_joints_) { ... }] *)
Fixpoint copy_joints (qpos : list S) (joints : list nat) (len : nat) : M AM nat :=
  match joints with
  | [] => mret len
  | i :: joints' =>
      let start_idx := getJointId pinocchio_model_ i in
      let dim_i := getJointDim pinocchio_model_ i in
      len' ← copy_joint qpos start_idx 0 dim_i len;
      copy_joints qpos joints' len'
  end.

Definition to_transform (pose_i : Vector7) : Transform3 :=
  mkTransform3
    (quaternion_matrix pinocchio_model_ (v3 pose_i) (v4 pose_i) (v5 pose_i) (v6 pose_i))
    (v0 pose_i, v1 pose_i, v2 pose_i).

(** The loop over the user links building [link_pose]. *)
Definition link_poses (a : AM) : list Transform3 :=
  (λ i, to_transform (getLinkPose pinocchio_model_ (pinocchio_data_ a) i))
    <$> seq 0 (length (user_link_names_ a)).

Definition update_kinematics : M AM unit :=
  a ← get;
  put (set_pinocchio (current_qpos_ a) a);;
  a ← get;
  put (set_fcl (link_poses a) a).

Definition setQpos (qpos : list S) (full : bool) : M AM unit :=
  (if full then
     a ← get; put (set_current_qpos qpos a)
   else
     a ← get;
     ASSERT (bool_decide (length qpos = qpos_dim_ a)) (size_message a qpos);;
     copy_joints qpos (move_group_user_joints_ a) 0;;
     mret tt);;
  update_kinematics.

(** *** Vocabulary of the statements *)

(** Configuration slot [p] belongs to user joint [i]. *)
Definition in_block (i p : nat) : Prop :=
  getJointId pinocchio_model_ i ≤ p <
  getJointId pinocchio_model_ i + getJointDim pinocchio_model_ i.

(** No configuration slot belongs to two joints. *)
Definition joint_slots_disjoint : Prop :=
  ∀ i i' p, i ≠ i' → in_block i p → ¬ in_block i' p.

(** Position, in a reduced configuration, of the first entry of the [k]-th
    joint of [joints]. *)
Definition offset (joints : list nat) (k : nat) : nat :=
  sum_list_with (getJointDim pinocchio_model_) (take k joints).

(** What [setMoveGroup] leaves behind: ascending joints without repeats,
    and their total dimension. *)
Definition move_group_invariant (a : AM) : Prop :=
  StronglySorted lt (move_group_user_joints_ a) ∧
  qpos_dim_ a =
    sum_list_with (getJointDim pinocchio_model_) (move_group_user_joints_ a).

(** The block of every move-group joint lies inside the stored configuration. *)
Definition move_group_in_range (a : AM) : Prop :=
  ∀ i, i ∈ move_group_user_joints_ a →
    getJointId pinocchio_model_ i + getJointDim pinocchio_model_ i
    ≤ length (current_qpos_ a).

(** The states an object of the class goes through: both constructors end
    with [setMoveGroup], and every later change is a call of [setMoveGroup]
    or a [setQpos] that returns. *)
Inductive reachable : AM → Prop :=
| reachable_setMoveGroup (end_effectors : list string) (a : AM) :
    reachable (setMoveGroup end_effectors a)
| reachable_setQpos (qpos : list S) (full : bool) (a a' : AM) :
    reachable a → setQpos qpos full a = Ok tt a' → reachable a'.

End articulated_model.

(** *** The constructors (lines 15-67)

    The constructor from files and [createFromURDFString] run the same
    steps once the Pinocchio and FCL models are built: choose the user
    names, hand them to the models, zero the configuration and call
    [setMoveGroup] on all user links. *)
Section articulated_constructor.
Context {S PinData Matrix3 : Type}.
(** The Pinocchio model, with the user orders already set. *)
Context (pinocchio_model_ : @PinocchioModelTpl S PinData Matrix3).
(** [getLinkNames(false)], [getJointNames(false)] and [getModel().nv] of the
    Pinocchio model, and the scalar zero. *)
Context (pinocchio_link_names pinocchio_joint_names : list string).
Context (nv : nat) (zero : S).
(** State of the two models before the first [setQpos]. *)
Context (initial_data : PinData) (initial_link_pose : list (@Transform3 S Matrix3)).

Definition ArticulatedModelTpl_new (joint_names link_names : list string)
    : @ArticulatedModelTpl S PinData Matrix3 :=
  let user_link_names :=
    if decide (length link_names = 0) then pinocchio_link_names else link_names in
  let user_joint_names :=
    if decide (length joint_names = 0) then pinocchio_joint_names else joint_names in
  setMoveGroup pinocchio_model_ user_link_names
    (mkArticulatedModel user_link_names user_joint_names [] [] 0
       (replicate nv zero) initial_data initial_link_pose []).

(** The states of an object whose full configurations all have [nv]
    entries: construction, then [setMoveGroup], [setQpos] on the reduced
    path, and [setQpos] on the full path with a vector of [nv] entries. *)
Inductive properly_used : @ArticulatedModelTpl S PinData Matrix3 → Prop :=
| used_new (joint_names link_names : list string) :
    properly_used (ArticulatedModelTpl_new joint_names link_names)
| used_setMoveGroup (end_effectors : list string) a :
    properly_used a → properly_used (setMoveGroup pinocchio_model_ end_effectors a)
| used_setQpos_reduced (qpos : list S) a a' :
    properly_used a → setQpos pinocchio_model_ qpos false a = Ok tt a' →
    properly_used a'
| used_setQpos_full (qpos : list S) a a' :
    properly_used a → length qpos = nv →
    setQpos pinocchio_model_ qpos true a = Ok tt a' → properly_used a'.

(** Every joint on the chain of a link has its block inside a
    configuration of [nv] entries. *)
Definition chains_inside_nv : Prop :=
  ∀ end_effector i, i ∈ getChainJointIndex pinocchio_model_ end_effector →
    getJointId pinocchio_model_ i + getJointDim pinocchio_model_ i ≤ nv.

End articulated_constructor.

End ArticulatedModel.

(** ** The validity checker of the planner (src/unnamed/part_000) *)
Module OmplPlanner.

Section validity_checker.
(** Scalar type of the template, and [double]. *)
Context {S D : Type}.
(** [ob::State], [SpaceInformation], and the state of the planning world
    the checker points to. *)
Context {State SpaceInformation World : Type}.

(** What the checker calls on [PlanningWorldTpl<S>] (planning_world.cpp is
    not part of these files): each call may change the world or throw. *)
Record PlanningWorldTpl : Type := {
  (** [setQposAll(state)] *)
  setQposAll : list S → M World unit;
  (** [collide()], the full-scope boolean query with the default request *)
  collide : M World bool;
  (** [distance()], the full-scope signed distance with the default request *)
  distance : M World S;
}.

(** [state2vector] is declared here and defined in ompl_planner.cpp. *)
Context (state2vector : State → SpaceInformation → list S).
(** [static_cast<double>] on a scalar. *)
Context (to_double : S → D).

(** [eigen2vector<IN_TYPE, OUT_TYPE>]: [push_back] of every converted entry. *)
Definition eigen2vector {IN OUT : Type} (cast : IN → OUT) (x : list IN)
    : list OUT :=
  foldl (λ ret xi, ret ++ [cast xi]) [] x.

(** [vector2eigen<IN_TYPE, OUT_TYPE>]: [ret[i] = static_cast<OUT_TYPE>(x[i])]
    for every [i] below [x.size()]. *)
Definition vector2eigen {IN OUT : Type} (cast : IN → OUT) (x : list IN)
    : list OUT :=
  cast <$> x.

(** [state2eigen<S>], with [vector2eigen<S, S>]. *)
Definition state2eigen (state_raw : State) (si_ : SpaceInformation) : list S :=
  let vec_ret := state2vector state_raw si_ in
  let ret := vector2eigen (λ x : S, x) vec_ret in
  ret.

Record ValidityCheckerTpl : Type := {
  world_ : PlanningWorldTpl;
  si_ : SpaceInformation;
}.

Definition isValid (vc : ValidityCheckerTpl) (state_raw : State) : M World bool :=
  setQposAll (world_ vc) (state2eigen state_raw (si_ vc));;
  c ← collide (world_ vc);
  mret (negb c).

Definition clearance (vc : ValidityCheckerTpl) (state_raw : State) : M World D :=
  setQposAll (world_ vc) (state2eigen state_raw (si_ vc));;
  d ← distance (world_ vc);
  mret (to_double d).

Definition _isValid (vc : ValidityCheckerTpl) (state : list S) : M World bool :=
  setQposAll (world_ vc) state;;
  c ← collide (world_ vc);
  mret (negb c).

End validity_checker.

End OmplPlanner.

(** ** The KDL model (src/src/kdl_model.cpp) *)
Module KDLModel.

(** [KDL::Joint::JointType] *)
Inductive JointType : Type :=
| RotAxis | RotX | RotY | RotZ | TransAxis | TransX | TransY | TransZ | Fixed.

#[global] Instance JointType_eq_dec : EqDecision JointType.
Proof. solve_decision. Defined.

Record Joint : Type := mkJoint { getName : string; getType : JointType }.
Record Segment : Type := mkSegment { getJoint : Joint }.
Record Chain : Type := mkChain { segments : list Segment }.

(** [KDL::Chain::getNrOfJoints]: KDL counts a segment's joint when its type
    is not [Fixed]. *)
Definition getNrOfJoints (chain : Chain) : nat :=
  length (filter (λ seg, getType (getJoint seg) ≠ Fixed) (segments chain)).

(** The objects built and the solver calls made, oldest first;
    [call_CartToJnt] carries the status the operation reports for the
    call. *)
Inductive call : Type :=
| call_getChain (root tip : string)
| call_construct (solver : string)
| call_CartToJnt (solver : string) (retval : Z).

Section kdl_model.
(** Scalar type of the template, and KDL's [double]. *)
Context {S D : Type}.
(** Conversions between the two, and the [double] zero a [JntArray] is
    filled with. *)
Context (to_double : S → D) (of_double : D → S) (zero : D).
(** The conversion of a [double] to [int] that C++ makes where a [double]
    initialises the [int] of the returned tuple: the fraction is dropped. *)
Context (to_int : D → Z).
(** [KDL::Tree] *)
Context {Tree : Type}.

Record Vector7 : Type := mkVector7 { v0 : S; v1 : S; v2 : S; v3 : S; v4 : S; v5 : S; v6 : S }.

(** [KDL::Rotation::Quaternion(x, y, z, w)], [KDL::Vector(x, y, z)], [KDL::Frame]. *)
Inductive Rotation : Type := Quaternion (x y z w : D).
Inductive Vector : Type := mkVector (x y z : D).
Record Frame : Type := mkFrame { frame_M : Rotation; frame_p : Vector }.

(** [KDL::JntArray] *)
Definition JntArray : Type := list D.
Definition new_JntArray (n : nat) : JntArray := replicate n zero.

(** The KDL operations the class uses.  A solver field stands for the
    construction of the solver from the listed arguments followed by
    [CartToJnt(q_init, goal, q_sol)]; it gives the final [q_sol] and the
    value [CartToJnt] returns: an [int] for the chain solvers, a [double]
    for the tree solver (the remaining distance, or a negative number). *)
Record KDL : Type := {
  getChain : Tree → string → string → Chain;
  tree_getNrOfJoints : Tree → nat;
  (** chain, weights [L] *)
  ChainIkSolverPos_LMA :
    Chain → list Q → JntArray → Frame → JntArray → JntArray * Z;
  (** chain *)
  ChainIkSolverPos_NR :
    Chain → JntArray → Frame → JntArray → JntArray * Z;
  (** chain, [q_min], [q_max] *)
  ChainIkSolverPos_NR_JL :
    Chain → JntArray → JntArray → JntArray → Frame → JntArray → JntArray * Z;
  (** tree, endpoints, [q_min], [q_max], lambda, maxiter, eps *)
  TreeIkSolverPos_NR_JL :
    Tree → list string → JntArray → JntArray → Q → nat → Q →
    JntArray → gmap string Frame → JntArray → JntArray * D;
}.

Context (kdl : KDL).

Record KDLModelTpl : Type := mkKDLModel {
  tree_ : Tree;
  tree_root_name_ : string;
  user_link_names_ : list string;
  user_joint_names_ : list string;
  joint_mapping_kdl_2_user_ : list nat;
  user_joint_idx_mapping_ : gmap string nat;
  verbose_ : bool;
}.

#[local] Abbreviation T := (list call).

Definition record_call (c : call) : M T unit := λ t, Ok tt (t ++ [c]).

(** [m.at(key)] on a [std::map] *)
Definition map_at (m : gmap string nat) (key : string) : M T nat :=
  match m !! key with
  | Some i => mret i
  | None => throw (out_of_range "map::at")
  end.

(** The frame built from a pose (position, quaternion wxyz). *)
Definition frame_of_pose (pose : Vector7) : Frame :=
  mkFrame
    (Quaternion (to_double (v4 pose)) (to_double (v5 pose)) (to_double (v6 pose))
                (to_double (v3 pose)))
    (mkVector (to_double (v0 pose)) (to_double (v1 pose)) (to_double (v2 pose))).

(** [for (auto seg : chain.segments) { ... idx.push_back(...at(joint.getName())) }] *)
Fixpoint chain_idx (m : KDLModelTpl) (segs : list Segment) (idx : list nat)
    : M T (list nat) :=
  match segs with
  | [] => mret idx
  | seg :: segs' =>
      let joint := getJoint seg in
      if decide (getType joint ≠ Fixed) then
        i ← map_at (user_joint_idx_mapping_ m) (getName joint);
        chain_idx m segs' (idx ++ [i])
      else chain_idx m segs' idx
  end.

(** [for (int i = 0; i < n; i++) q_init(i) = q0[idx[i]];]
    run from [i], with [n] iterations left. *)
Fixpoint gather (q0 : list S) (idx : list nat) (i n : nat) (q_init : JntArray)
    : M T JntArray :=
  match n with
  | 0 => mret q_init
  | Datatypes.S n' =>
      k ← at_index idx i;
      x ← at_index q0 k;
      q_init' ← set_index q_init i (to_double x);
      gather q0 idx (Datatypes.S i) n' q_init'
  end.

(** [for (int i = 0; i < n; i++) { q_min(i) = qmin[idx[i]]; q_max(i) = qmax[idx[i]]; }] *)
Fixpoint gather_limits (qmin qmax : list S) (idx : list nat) (i n : nat)
    (q_min q_max : JntArray) : M T (JntArray * JntArray) :=
  match n with
  | 0 => mret (q_min, q_max)
  | Datatypes.S n' =>
      k ← at_index idx i;
      x ← at_index qmin k;
      q_min' ← set_index q_min i (to_double x);
      k ← at_index idx i;
      y ← at_index qmax k;
      q_max' ← set_index q_max i (to_double y);
      gather_limits qmin qmax idx (Datatypes.S i) n' q_min' q_max'
  end.

(** [for (int i = 0; i < n; i++) q1[idx[i]] = q_sol(i);] *)
Fixpoint scatter (q_sol : JntArray) (idx : list nat) (i n : nat) (q1 : list S)
    : M T (list S) :=
  match n with
  | 0 => mret q1
  | Datatypes.S n' =>
      k ← at_index idx i;
      x ← at_index q_sol i;
      q1' ← set_index q1 k (of_double x);
      scatter q_sol idx (Datatypes.S i) n' q1'
  end.

(** The weights [L] of chainIKLMA: 1, 1, 1, 0.01, 0.01, 0.01. *)
Definition L_weights : list Q := [1; 1; 1; 1 # 100; 1 # 100; 1 # 100]%Q.

Definition chainIKLMA (m : KDLModelTpl) (index : nat) (q0 : list S)
    (pose : Vector7) : M T (list S * Z) :=
  let L := L_weights in
  ASSERT (bool_decide (index < length (user_link_names_ m)))
         "link index out of bound";;
  tip ← at_index (user_link_names_ m) index;
  record_call (call_getChain (tree_root_name_ m) tip);;
  let chain := getChain kdl (tree_ m) (tree_root_name_ m) tip in
  let frame_goal := frame_of_pose pose in
  record_call (call_construct "ChainIkSolverPos_LMA");;
  let n := getNrOfJoints chain in
  let q_init := new_JntArray n in
  let q_sol := new_JntArray n in
  idx ← chain_idx m (segments chain) [];
  q_init ← gather q0 idx 0 n q_init;
  let '(q_sol, retval) := ChainIkSolverPos_LMA kdl chain L q_init frame_goal q_sol in
  record_call (call_CartToJnt "ChainIkSolverPos_LMA" retval);;
  q1 ← scatter q_sol idx 0 n q0;
  mret (q1, retval).

Definition chainIKNR (m : KDLModelTpl) (index : nat) (q0 : list S)
    (pose : Vector7) : M T (list S * Z) :=
  ASSERT (bool_decide (index < length (user_link_names_ m)))
         "link index out of bound";;
  tip ← at_index (user_link_names_ m) index;
  record_call (call_getChain (tree_root_name_ m) tip);;
  let chain := getChain kdl (tree_ m) (tree_root_name_ m) tip in
  let frame_goal := frame_of_pose pose in
  record_call (call_construct "ChainFkSolverPos_recursive");;
  record_call (call_construct "ChainIkSolverVel_pinv");;
  record_call (call_construct "ChainIkSolverPos_NR");;
  let n := getNrOfJoints chain in
  let q_init := new_JntArray n in
  let q_sol := new_JntArray n in
  idx ← chain_idx m (segments chain) [];
  q_init ← gather q0 idx 0 n q_init;
  let '(q_sol, retval) := ChainIkSolverPos_NR kdl chain q_init frame_goal q_sol in
  record_call (call_CartToJnt "ChainIkSolverPos_NR" retval);;
  q1 ← scatter q_sol idx 0 n q0;
  mret (q1, retval).

Definition chainIKNRJL (m : KDLModelTpl) (index : nat) (q0 : list S)
    (pose : Vector7) (qmin qmax : list S) : M T (list S * Z) :=
  ASSERT (bool_decide (index < length (user_link_names_ m)))
         "link index out of bound";;
  tip ← at_index (user_link_names_ m) index;
  record_call (call_getChain (tree_root_name_ m) tip);;
  let chain := getChain kdl (tree_ m) (tree_root_name_ m) tip in
  let frame_goal := frame_of_pose pose in
  record_call (call_construct "ChainFkSolverPos_recursive");;
  record_call (call_construct "ChainIkSolverVel_pinv");;
  let q_min := new_JntArray (getNrOfJoints chain) in
  let q_max := new_JntArray (getNrOfJoints chain) in
  let n := getNrOfJoints chain in
  let q_init := new_JntArray n in
  let q_sol := new_JntArray n in
  idx ← chain_idx m (segments chain) [];
  '(q_min, q_max) ← gather_limits qmin qmax idx 0 n q_min q_max;
  record_call (call_construct "ChainIkSolverPos_NR_JL");;
  q_init ← gather q0 idx 0 n q_init;
  let '(q_sol, retval) :=
    ChainIkSolverPos_NR_JL kdl chain q_min q_max q_init frame_goal q_sol in
  record_call (call_CartToJnt "ChainIkSolverPos_NR_JL" retval);;
  q1 ← scatter q_sol idx 0 n q0;
  mret (q1, retval).

(** [for (size_t i = 0; i < endpoints.size(); i++) frames[endpoints[i]] = Frame(poses[i]);] *)
Fixpoint build_frames (endpoints : list string) (poses : list Vector7) (i : nat)
    (frames : gmap string Frame) : M T (gmap string Frame) :=
  match endpoints with
  | [] => mret frames
  | endpoint :: endpoints' =>
      pose ← at_index poses i;
      build_frames endpoints' poses (Datatypes.S i)
        (<[endpoint := frame_of_pose pose]> frames)
  end.

Definition TreeIKNRJL (m : KDLModelTpl) (endpoints : list string) (q0 : list S)
    (poses : list Vector7) (qmin qmax : list S) : M T (list S * Z) :=
  record_call (call_construct "TreeFkSolverPos_recursive");;
  record_call (call_construct "TreeIkSolverVel_wdls");;
  let lambda := (1 # 1000000)%Q in
  let n := tree_getNrOfJoints kdl (tree_ m) in
  let q_min := new_JntArray n in
  let q_max := new_JntArray n in
  let q_init := new_JntArray n in
  let q_sol := new_JntArray n in
  '(q_min, q_max) ←
    gather_limits qmin qmax (joint_mapping_kdl_2_user_ m) 0 n q_min q_max;
  frames ← build_frames endpoints poses 0 ∅;
  q_init ← gather q0 (joint_mapping_kdl_2_user_ m) 0 n q_init;
  record_call (call_construct "TreeIkSolverPos_NR_JL");;
  let '(q_sol, retval) :=
    TreeIkSolverPos_NR_JL kdl (tree_ m) endpoints q_min q_max lambda 1000
      (1 # 1000000)%Q q_init frames q_sol in
  record_call (call_CartToJnt "TreeIkSolverPos_NR_JL" (to_int retval));;
  q1 ← scatter q_sol (joint_mapping_kdl_2_user_ m) 0 n q0;
  mret (q1, to_int retval).

(** *** Vocabulary of the statements *)

(** The chain from the tree root to a link. *)
Definition chain_of (m : KDLModelTpl) (tip : string) : Chain :=
  getChain kdl (tree_ m) (tree_root_name_ m) tip.

Definition movable (seg : Segment) : Prop := getType (getJoint seg) ≠ Fixed.

#[global] Instance movable_dec seg : Decision (movable seg).
Proof. unfold movable. apply _. Defined.

(** User index [k] is that of a non-fixed joint of the chain. *)
Definition on_chain (m : KDLModelTpl) (chain : Chain) (k : nat) : Prop :=
  ∃ seg, seg ∈ segments chain ∧ movable seg ∧
         user_joint_idx_mapping_ m !! getName (getJoint seg) = Some k.

(** The user indices of the non-fixed joints of a chain, in chain order,
    when every such joint has one. *)
Definition chain_joint_indices (m : KDLModelTpl) (chain : Chain)
    : option (list nat) :=
  mapM (λ seg, user_joint_idx_mapping_ m !! getName (getJoint seg))
       (filter movable (segments chain)).

(** The entries of a user vector at the given indices, as doubles, when
    every index is inside the vector. *)
Definition entries_at (q : list S) (idx : list nat) : option JntArray :=
  mapM (λ k, to_double <$> q !! k) idx.

(** No call to a solver's [CartToJnt] is recorded in a history. *)
Definition no_CartToJnt (t : list call) : Prop :=
  ∀ solver retval, call_CartToJnt solver retval ∉ t.

(** What the constructor sets up by
    [joint_mapping_kdl_2_user_.resize(tree_.getNrOfJoints())]. *)
Definition mapping_sized (m : KDLModelTpl) : Prop :=
  length (joint_mapping_kdl_2_user_ m) = tree_getNrOfJoints kdl (tree_ m).

(** The goal frames of the endpoints, when every endpoint has a pose. *)
Fixpoint frames_from (endpoints : list string) (poses : list Vector7) (i : nat)
    (frames : gmap string Frame) : option (gmap string Frame) :=
  match endpoints with
  | [] => Some frames
  | endpoint :: endpoints' =>
      pose ← poses !! i;
      frames_from endpoints' poses (Datatypes.S i)
        (<[endpoint := frame_of_pose pose]> frames)
  end.

(** The call each operation makes to its solver, with what the solver
    returns; none when the operation stops before reaching the solver. *)
Definition LMA_solve (m : KDLModelTpl) (index : nat) (q0 : list S)
    (pose : Vector7) : option (JntArray * Z) :=
  tip ← user_link_names_ m !! index;
  idx ← chain_joint_indices m (chain_of m tip);
  q_init ← entries_at q0 idx;
  Some (ChainIkSolverPos_LMA kdl (chain_of m tip) L_weights q_init
          (frame_of_pose pose) (new_JntArray (length idx))).

Definition NR_solve (m : KDLModelTpl) (index : nat) (q0 : list S)
    (pose : Vector7) : option (JntArray * Z) :=
  tip ← user_link_names_ m !! index;
  idx ← chain_joint_indices m (chain_of m tip);
  q_init ← entries_at q0 idx;
  Some (ChainIkSolverPos_NR kdl (chain_of m tip) q_init
          (frame_of_pose pose) (new_JntArray (length idx))).

Definition NR_JL_solve (m : KDLModelTpl) (index : nat) (q0 : list S)
    (pose : Vector7) (qmin qmax : list S) : option (JntArray * Z) :=
  tip ← user_link_names_ m !! index;
  idx ← chain_joint_indices m (chain_of m tip);
  q_min ← entries_at qmin idx;
  q_max ← entries_at qmax idx;
  q_init ← entries_at q0 idx;
  Some (ChainIkSolverPos_NR_JL kdl (chain_of m tip) q_min q_max q_init
          (frame_of_pose pose) (new_JntArray (length idx))).

Definition Tree_solve (m : KDLModelTpl) (endpoints : list string) (q0 : list S)
    (poses : list Vector7) (qmin qmax : list S) : option (JntArray * D) :=
  let idx := joint_mapping_kdl_2_user_ m in
  q_min ← entries_at qmin idx;
  q_max ← entries_at qmax idx;
  frames ← frames_from endpoints poses 0 ∅;
  q_init ← entries_at q0 idx;
  Some (TreeIkSolverPos_NR_JL kdl (tree_ m) endpoints q_min q_max
          (1 # 1000000)%Q 1000 (1 # 1000000)%Q q_init frames
          (new_JntArray (length idx))).

(** KDL's solvers write the solution into the array they are given and do
    not resize it. *)
Definition solvers_keep_size : Prop :=
  (∀ chain L q_init goal q_sol,
     length (ChainIkSolverPos_LMA kdl chain L q_init goal q_sol).1 = length q_sol) ∧
  (∀ chain q_init goal q_sol,
     length (ChainIkSolverPos_NR kdl chain q_init goal q_sol).1 = length q_sol) ∧
  (∀ chain q_min q_max q_init goal q_sol,
     length (ChainIkSolverPos_NR_JL kdl chain q_min q_max q_init goal q_sol).1
     = length q_sol) ∧
  (∀ tree endpoints q_min q_max lambda maxiter eps q_init goals q_sol,
     length (TreeIkSolverPos_NR_JL kdl tree endpoints q_min q_max lambda maxiter
               eps q_init goals q_sol).1 = length q_sol).

(** The operation [run] passes on the status of its solver call [sol]:
    - when it returns, its status is the one the solver returned, and the
      solver call is the last event of the history;
    - when it throws, the solver was not reached and no solver call is in
      the events it added;
    - when the solver is reached and keeps the size of its array, it
      returns, whatever the status. *)
Definition passes_status (run : M T (list S * Z)) (solver : string)
    (sol : option (JntArray * Z)) : Prop :=
  ∀ t,
    (∀ q1 r t', run t = Ok (q1, r) t' →
       (∃ q_sol, sol = Some (q_sol, r)) ∧
       last t' = Some (call_CartToJnt solver r)) ∧
    (∀ e t', run t = Throw e t' →
       sol = None ∧ ∃ new, t' = t ++ new ∧ no_CartToJnt new) ∧
    (∀ q_sol r, sol = Some (q_sol, r) → solvers_keep_size →
       ∃ q1 t', run t = Ok (q1, r) t').

(** The same for an operation whose solver returns a [double] [v]: the
    status of the operation is [to_int v]. *)
Definition passes_converted_status (run : M T (list S * Z)) (solver : string)
    (sol : option (JntArray * D)) : Prop :=
  ∀ t,
    (∀ q1 r t', run t = Ok (q1, r) t' →
       (∃ q_sol v, sol = Some (q_sol, v) ∧ r = to_int v) ∧
       last t' = Some (call_CartToJnt solver r)) ∧
    (∀ e t', run t = Throw e t' →
       sol = None ∧ ∃ new, t' = t ++ new ∧ no_CartToJnt new) ∧
    (∀ q_sol v, sol = Some (q_sol, v) → solvers_keep_size →
       ∃ q1 t', run t = Ok (q1, to_int v) t').

End kdl_model.

(** *** The constructor (lines 30-51)

    Modelled from the point where [treeFromUrdfModel] has filled [tree_]
    and [tree_root_name_] from the URDF file. *)
Section kdl_constructor.
Context {D Tree : Type}.
Context (kdl : @KDL D Tree).

(** [KDL::TreeElement]: a segment of the tree and the number of its joint. *)
Record TreeElement : Type := mkTreeElement { segment : Segment; q_nr : nat }.

(** [tree_.getSegments()], the [SegmentMap] in the order of its keys. *)
Context (getSegments : Tree → list (string * TreeElement)).

(** [for (size_t i = 0; i < joint_names.size(); i++)
       user_joint_idx_mapping_[joint_names[i]] = i;], run from [i]. *)
Fixpoint build_idx_mapping (joint_names : list string) (i : nat)
    (mapping : gmap string nat) : gmap string nat :=
  match joint_names with
  | [] => mapping
  | name :: joint_names' =>
      build_idx_mapping joint_names' (Datatypes.S i) (<[name := i]> mapping)
  end.

(** The loop over the segments of the tree writing
    [joint_mapping_kdl_2_user_[it->second.q_nr]]. *)
Fixpoint fill_joint_mapping (mapping : gmap string nat)
    (segs : list (string * TreeElement)) (v : list nat) : M (list call) (list nat) :=
  match segs with
  | [] => mret v
  | it :: segs' =>
      let joint_name := getName (getJoint (segment it.2)) in
      match mapping !! joint_name with
      | Some i =>
          v' ← set_index v (q_nr it.2) i;
          fill_joint_mapping mapping segs' v'
      | None => fill_joint_mapping mapping segs' v
      end
  end.

(** The constructor.  [tree] and [tree_root_name] are what
    [urdf::parseURDFFile] and [treeFromUrdfModel] (urdf_utils) give for the
    file name; [resize] on the empty vector fills it with zeros. *)
Definition KDLModelTpl_new (tree : Tree) (tree_root_name : string)
    (joint_names link_names : list string) (verbose : bool)
    : M (list call) (@KDLModelTpl Tree) :=
  let mapping := build_idx_mapping joint_names 0 ∅ in
  let segs := getSegments tree in
  let v := replicate (tree_getNrOfJoints kdl tree) 0 in
  v' ← fill_joint_mapping mapping segs v;
  mret (mkKDLModel tree tree_root_name link_names joint_names v' mapping verbose).

(** Every segment of the tree carries a joint number below the number of
    joints of the tree. *)
Definition joint_numbers_in_range (tree : Tree) : Prop :=
  ∀ it, it ∈ getSegments tree → q_nr it.2 < tree_getNrOfJoints kdl tree.

End kdl_constructor.

End KDLModel.

(** ** planning_world: the distance queries *)
Module PlanningWorld.

Section distance_queries.
(** Scalar type, with the order of signed distances (negative: penetration). *)
Context {S : Type} (le : relation S) `{!RelDecision le}.

(** [WorldDistanceResultTpl<S>], as pybind_planning_world.hpp exposes it
    (without the collision library's own [res]). *)
Record WorldDistanceResultTpl : Type := mkWorldDistanceResult {
  min_distance : S;
  distance_type : string;
  object_name1 : string;
  object_name2 : string;
  link_name1 : string;
  link_name2 : string;
}.

(** Modelled from the spec: the state of the planning world as the distance
    queries see it (planning_world.cpp is not part of the sources, which
    only bind [distanceSelf], [distanceOthers] and [distanceFull]).  For
    each scope the world gives the results the distance collaborator
    measures on the pairs of that scope: self (links of planned
    articulations among themselves and against attached objects) and
    with-others (planned articulations and attached objects against
    everything fixed). *)
Record PlanningWorldTpl : Type := mkPlanningWorld {
  self_results : list WorldDistanceResultTpl;
  others_results : list WorldDistanceResultTpl;
}.

(** Modelled from the spec: the smaller of two results, the first on a tie. *)
Definition closer (a b : WorldDistanceResultTpl) : WorldDistanceResultTpl :=
  if decide (le (min_distance a) (min_distance b)) then a else b.

(** Modelled from the spec: the minimum result of a scope, none when the
    scope has no pair. *)
Definition minimum (rs : list WorldDistanceResultTpl)
    : option WorldDistanceResultTpl :=
  match rs with
  | [] => None
  | r :: rs' => Some (foldl closer r rs')
  end.

(** Modelled from the spec: [distanceSelf]; a distance query returns the
    minimum result across all pairs of its scope. *)
Definition distanceSelf (w : PlanningWorldTpl) : option WorldDistanceResultTpl :=
  minimum (self_results w).

(** Modelled from the spec: [distanceOthers], the minimum result over the
    with-others scope. *)
Definition distanceOthers (w : PlanningWorldTpl) : option WorldDistanceResultTpl :=
  minimum (others_results w).

(** Modelled from the spec: [distanceFull], the minimum result over the full
    scope, the union of self and with-others. *)
Definition distanceFull (w : PlanningWorldTpl) : option WorldDistanceResultTpl :=
  minimum (self_results w ++ others_results w).

(** The result [o] is a minimum of the results [rs]: one of them, and no
    result of [rs] has a smaller distance. *)
Definition is_minimum_of (rs : list WorldDistanceResultTpl)
    (o : option WorldDistanceResultTpl) : Prop :=
  match o with
  | None => rs = []
  | Some r => r ∈ rs ∧ ∀ r', r' ∈ rs → le (min_distance r) (min_distance r')
  end.

(** The closer of two optional results. *)
Definition closer_of (a b : option WorldDistanceResultTpl)
    : option WorldDistanceResultTpl :=
  match a, b with
  | Some x, Some y => Some (closer x y)
  | Some x, None => Some x
  | None, b => b
  end.

End distance_queries.

End PlanningWorld.

(** ** Sample models, used to run the definitions *)

(** *** A three-joint arm

    Joint 1 has two degrees of freedom, joints 0 and 2 one each; the hand
    hangs on joints 0 and 2, the elbow on joint 0. *)

Definition arm_pinocchio : @ArticulatedModel.PinocchioModelTpl Z (list Z) unit :=
  {| ArticulatedModel.getJointId i := if decide (i < 2) then i else i + 1;
     ArticulatedModel.getJointDim i := if decide (i = 1) then 2 else 1;
     ArticulatedModel.getChainJointIndex ee :=
       if decide (ee = "hand") then [0; 2]
       else if decide (ee = "elbow") then [0] else [];
     ArticulatedModel.computeForwardKinematics q := q;
     ArticulatedModel.getLinkPose d i :=
       ArticulatedModel.mkVector7 (default 0%Z (d !! i)) 0%Z 0%Z 1%Z 0%Z 0%Z 0%Z;
     ArticulatedModel.quaternion_matrix _ _ _ _ := tt |}.

Definition arm : @ArticulatedModel.ArticulatedModelTpl Z (list Z) unit :=
  ArticulatedModel.setMoveGroup arm_pinocchio ["hand"; "elbow"]
    (ArticulatedModel.mkArticulatedModel ["base"; "elbow"; "hand"]
       ["j0"; "j1"; "j2"] [] [] 0 [10; 20; 30; 40]%Z [] [] []).

(** The arm as its constructor builds it, with the names of the Pinocchio
    model, and the arm after a reduced configuration was written. *)

Definition arm_new : @ArticulatedModel.ArticulatedModelTpl Z (list Z) unit :=
  ArticulatedModel.ArticulatedModelTpl_new arm_pinocchio
    ["base"; "elbow"; "hand"] ["j0"; "j1"; "j2"] 4 0%Z [] [] [] [].

Definition arm_moved : @ArticulatedModel.ArticulatedModelTpl Z (list Z) unit :=
  match ArticulatedModel.setQpos arm_pinocchio [7; 8]%Z false arm with
  | Ok _ a' => a'
  | _ => arm
  end.

(** *** A planning world for the arm's two move-group entries

    The world state is the configuration last written; it collides when
    an entry is negative, and its distance is the smallest entry. *)

Definition arm_planning_world : @OmplPlanner.PlanningWorldTpl Z (list Z) :=
  {| OmplPlanner.setQposAll state :=
       ASSERT (bool_decide (length state = 2)) "wrong length";; put state;
     OmplPlanner.collide := w ← get; mret (bool_decide (Exists (λ x, x < 0)%Z w));
     OmplPlanner.distance := w ← get; mret (foldr Z.min 100%Z w) |}.

Definition arm_checker : @OmplPlanner.ValidityCheckerTpl Z unit (list Z) :=
  {| OmplPlanner.world_ := arm_planning_world; OmplPlanner.si_ := tt |}.

Definition arm_state2vector (state : list Z) (si : unit) : list Z := state.

(** *** The arm again, as a KDL tree

    The hand hangs on joint [j0], a fixed mount and joint [j2].  The
    Levenberg-Marquardt solver succeeds (status 0) and moves every joint by
    one; the Newton-Raphson solvers give up with status -5, leaving the
    solution array as they got it. *)

Definition arm_chain : KDLModel.Chain :=
  KDLModel.mkChain
    [KDLModel.mkSegment (KDLModel.mkJoint "j0" KDLModel.RotZ);
     KDLModel.mkSegment (KDLModel.mkJoint "mount" KDLModel.Fixed);
     KDLModel.mkSegment (KDLModel.mkJoint "j2" KDLModel.RotZ)].

Definition arm_kdl : @KDLModel.KDL Z unit :=
  {| KDLModel.getChain _ _ tip :=
       if decide (tip = "hand") then arm_chain else KDLModel.mkChain [];
     KDLModel.tree_getNrOfJoints _ := 3;
     KDLModel.ChainIkSolverPos_LMA _ _ q_init _ q_sol :=
       ((λ i, Z.succ (default 0%Z (q_init !! i))) <$> seq 0 (length q_sol), 0%Z);
     KDLModel.ChainIkSolverPos_NR _ _ _ q_sol := (q_sol, (-5)%Z);
     KDLModel.ChainIkSolverPos_NR_JL _ _ _ _ _ q_sol := (q_sol, (-5)%Z);
     KDLModel.TreeIkSolverPos_NR_JL _ _ _ _ _ _ _ _ _ q_sol := (q_sol, (-5)%Z) |}.

Definition arm_kdl_model : @KDLModel.KDLModelTpl unit :=
  KDLModel.mkKDLModel tt "base" ["base"; "elbow"; "hand"] ["j0"; "j1"; "j2"]
    [0; 1; 2] (<["j0" := 0]> (<["j1" := 1]> (<["j2" := 2]> ∅))) false.

(** The segments of the arm's tree, in the order of their names: joint
    numbers 0, 1 and 2 for the three joints, 0 for the fixed mount. *)
Definition arm_segments (tree : unit) : list (string * KDLModel.TreeElement) :=
  [("elbow", KDLModel.mkTreeElement
               (KDLModel.mkSegment (KDLModel.mkJoint "j1" KDLModel.RotZ)) 1);
   ("hand", KDLModel.mkTreeElement
              (KDLModel.mkSegment (KDLModel.mkJoint "j2" KDLModel.RotZ)) 2);
   ("mount", KDLModel.mkTreeElement
               (KDLModel.mkSegment (KDLModel.mkJoint "mount" KDLModel.Fixed)) 0);
   ("shoulder", KDLModel.mkTreeElement
                  (KDLModel.mkSegment (KDLModel.mkJoint "j0" KDLModel.RotZ)) 0)].

Definition arm_pose : @KDLModel.Vector7 Z :=
  KDLModel.mkVector7 1%Z 2%Z 3%Z 1%Z 0%Z 0%Z 0%Z.

Definition arm_identity (x : Z) : Z := x.

(** *** A slider, as a KDL tree over the rationals

    A flange fixed on the base, and the hand on the flange by the one
    joint [j0].  Doubles are rationals and the conversion to [int] drops
    the fraction.  The tree solver converges: it leaves the joint where it
    was and returns the remaining distance 5e-07, below its tolerance
    1e-06. *)

Definition Q_to_int (x : Q) : Z := Z.quot (Qnum x) (Z.pos (Qden x)).

Definition slider_identity (x : Q) : Q := x.

Definition slider_kdl : @KDLModel.KDL Q unit :=
  {| KDLModel.getChain _ _ tip :=
       if decide (tip = "flange") then
         KDLModel.mkChain
           [KDLModel.mkSegment (KDLModel.mkJoint "mount" KDLModel.Fixed)]
       else if decide (tip = "hand") then
         KDLModel.mkChain
           [KDLModel.mkSegment (KDLModel.mkJoint "mount" KDLModel.Fixed);
            KDLModel.mkSegment (KDLModel.mkJoint "j0" KDLModel.TransX)]
       else KDLModel.mkChain [];
     KDLModel.tree_getNrOfJoints _ := 1;
     KDLModel.ChainIkSolverPos_LMA _ _ _ _ q_sol := (q_sol, 0%Z);
     KDLModel.ChainIkSolverPos_NR _ _ _ q_sol := (q_sol, 0%Z);
     KDLModel.ChainIkSolverPos_NR_JL _ _ _ _ _ q_sol := (q_sol, 0%Z);
     KDLModel.TreeIkSolverPos_NR_JL _ _ _ _ _ _ _ q_init _ _ :=
       (q_init, (1 # 2000000)%Q) |}.

Definition slider_kdl_model : @KDLModel.KDLModelTpl unit :=
  KDLModel.mkKDLModel tt "base" ["base"; "flange"; "hand"] ["j0"] [0]
    (<["j0" := 0]> ∅) false.

Definition slider_pose : @KDLModel.Vector7 Q :=
  KDLModel.mkVector7 (1 # 2)%Q (0 # 1)%Q (0 # 1)%Q (1 # 1)%Q (0 # 1)%Q (0 # 1)%Q (0 # 1)%Q.

(** *** A world with three measured pairs

    Distances in millimetres: two links of the arm 5 apart, the hand
    2 deep inside an attached tool, and the elbow 3 away from a fixed box. *)

Definition arm_world : @PlanningWorld.PlanningWorldTpl Z :=
  PlanningWorld.mkPlanningWorld
    [PlanningWorld.mkWorldDistanceResult 5%Z "self" "arm" "arm" "base" "hand";
     PlanningWorld.mkWorldDistanceResult (-2)%Z "self" "arm" "tool" "hand" ""]
    [PlanningWorld.mkWorldDistanceResult 3%Z "with_others" "arm" "box" "elbow" ""].

(** * Properties *)

(** ** The outcome monad *)

Lemma bind_Ok {St A B} (m : M St A) (f : A → M St B) s a s' :
  m s = Ok a s' → (m ≫= f) s = f a s'.
Proof. unfold mbind, M_bind. by intros ->. Qed.

Lemma bind_Ok_inv {St A B} (m : M St A) (f : A → M St B) s b s'' :
  (m ≫= f) s = Ok b s'' → ∃ a s', m s = Ok a s' ∧ f a s' = Ok b s''.
Proof. unfold mbind, M_bind. destruct (m s); naive_solver. Qed.

Lemma bind_Throw_inv {St A B} (m : M St A) (f : A → M St B) s e s'' :
  (m ≫= f) s = Throw e s'' →
  m s = Throw e s'' ∨ ∃ a s', m s = Ok a s' ∧ f a s' = Throw e s''.
Proof. unfold mbind, M_bind. destruct (m s); naive_solver. Qed.

Lemma at_index_Ok {St A} (v : list A) i x (s : St) :
  v !! i = Some x → at_index v i s = Ok x s.
Proof. unfold at_index. by intros ->. Qed.

Lemma at_index_Ok_inv {St A} (v : list A) i x (s s' : St) :
  at_index v i s = Ok x s' → v !! i = Some x ∧ s' = s.
Proof. unfold at_index. destruct (v !! i); [|done]. by intros [= -> ->]. Qed.

Lemma at_index_not_Throw {St A} (v : list A) i e (s s' : St) :
  at_index v i s ≠ Throw e s'.
Proof. unfold at_index. by destruct (v !! i). Qed.

Lemma set_index_Ok {St A} (v : list A) i x (s : St) :
  i < length v → set_index v i x s = Ok (<[i:=x]> v) s.
Proof. unfold set_index. intros. by rewrite decide_True. Qed.

Lemma set_index_Ok_inv {St A} (v v' : list A) i x (s s' : St) :
  set_index v i x s = Ok v' s' → i < length v ∧ v' = <[i:=x]> v ∧ s' = s.
Proof. unfold set_index. case_decide; [|done]. by intros [= <- <-]. Qed.

Lemma set_index_not_Throw {St A} (v : list A) i x e (s s' : St) :
  set_index v i x s ≠ Throw e s'.
Proof. unfold set_index. by case_decide. Qed.

(** ** [std::sort] and [std::unique] *)

Lemma sort_Permutation l : sort l ≡ₚ l.
Proof. apply merge_sort_Permutation. Qed.

Lemma sort_StronglySorted l : StronglySorted (≤) (sort l).
Proof. apply (StronglySorted_merge_sort _). Qed.

Lemma unique_from_elem_of prev l x :
  x ∈ prev :: unique_from prev l ↔ x ∈ prev :: l.
Proof.
  revert prev. induction l as [|y l IH]; intros prev; simpl; [done|].
  case_decide as Hy.
  - subst y. rewrite IH, !elem_of_cons. tauto.
  - by rewrite (elem_of_cons (y :: unique_from y l)), IH,
      (elem_of_cons (y :: l) x prev).
Qed.

Lemma unique_from_sorted prev l :
  StronglySorted (≤) (prev :: l) → StronglySorted lt (prev :: unique_from prev l).
Proof.
  revert prev. induction l as [|y l IH]; intros prev Hs; simpl.
  - repeat constructor.
  - apply StronglySorted_inv in Hs as [Hl Hprev].
    apply Forall_cons in Hprev as [Hpy Hprev].
    case_decide as Hy.
    + subst y. by apply IH.
    + specialize (IH y Hl). constructor; [done|].
      apply Forall_forall. intros x Hx.
      apply (proj1 (unique_from_elem_of y l x)) in Hx.
      apply StronglySorted_inv in Hl as [_ Hyl].
      apply elem_of_cons in Hx as [->|Hx]; [lia|].
      rewrite Forall_forall in Hyl. specialize (Hyl x Hx). lia.
Qed.

Lemma unique_elem_of l x : x ∈ unique l ↔ x ∈ l.
Proof. destruct l; [done|]. apply unique_from_elem_of. Qed.

Lemma unique_sorted l : StronglySorted (≤) l → StronglySorted lt (unique l).
Proof. destruct l; [constructor|]. apply unique_from_sorted. Qed.

Lemma StronglySorted_lt_NoDup (l : list nat) : StronglySorted lt l → NoDup l.
Proof.
  induction 1 as [|x l Hs IH Hx]; constructor; [|done].
  intros Hin. rewrite Forall_forall in Hx. specialize (Hx x Hin). lia.
Qed.

(** ** ArticulatedModelTpl *)

Section articulated_model_properties.
Import ArticulatedModel.
Context {S PinData Matrix3 : Type}.
Context (pin : @PinocchioModelTpl S PinData Matrix3).

#[local] Abbreviation AM := (@ArticulatedModelTpl S PinData Matrix3).

Lemma collect_chain_joints_elem_of (ees : list string) (j : nat) :
  j ∈ collect_chain_joints pin ees ↔
  ∃ ee, ee ∈ ees ∧ j ∈ getChainJointIndex pin ee.
Proof.
  unfold collect_chain_joints.
  assert (∀ acc, j ∈ foldl (λ joints ee, getChainJointIndex pin ee ++ joints) acc ees
                 ↔ j ∈ acc ∨ ∃ ee, ee ∈ ees ∧ j ∈ getChainJointIndex pin ee) as H.
  { induction ees as [|ee ees IH]; intros acc; simpl.
    - split; [by left|]. intros [?|(ee & Hee & _)]; [done|]. by apply elem_of_nil in Hee.
    - rewrite IH, elem_of_app. split.
      + intros [[?|?]|(ee' & ? & ?)]; [right; exists ee|by left|right; exists ee'];
          split; try done; by constructor.
      + intros [?|(ee' & Hee' & ?)]; [by left; right|].
        apply elem_of_cons in Hee' as [->|?]; [by left; left|right; by exists ee']. }
  rewrite H. split; [|by right]. intros [Hnil|?]; [|done]. by apply elem_of_nil in Hnil.
Qed.

Lemma sum_joint_dims_sum (joints : list nat) :
  sum_joint_dims pin joints = sum_list_with (getJointDim pin) joints.
Proof.
  unfold sum_joint_dims.
  assert (∀ d, foldl (λ dim i, dim + getJointDim pin i) d joints
               = d + sum_list_with (getJointDim pin) joints) as H.
  { induction joints as [|i joints IH]; intros d; simpl; [lia|]. rewrite IH. lia. }
  by rewrite H.
Qed.

Lemma setMoveGroup_move_group (ees : list string) (a : AM) (j : nat) :
  j ∈ move_group_user_joints_ (setMoveGroup pin ees a) ↔
  ∃ ee, ee ∈ ees ∧ j ∈ getChainJointIndex pin ee.
Proof.
  simpl. rewrite unique_elem_of, sort_Permutation.
  apply collect_chain_joints_elem_of.
Qed.

Lemma setMoveGroup_invariant (ees : list string) (a : AM) :
  move_group_invariant pin (setMoveGroup pin ees a).
Proof.
  split; simpl.
  - apply unique_sorted, sort_StronglySorted.
  - apply sum_joint_dims_sum.
Qed.

(** C3. For every list of end-effector link names, [setMoveGroup] stores as
    move-group joints exactly the joint indices found on the chain of some
    named link, in strictly ascending order (hence without duplicates), and
    sets [qpos_dim_] to the sum of the per-joint dimensions over these
    joints; the current configuration is not touched. *)
Theorem setMoveGroup_union_sorted_dim (ees : list string) (a : AM) :
  let a' := setMoveGroup pin ees a in
  (∀ j, j ∈ move_group_user_joints_ a' ↔
        ∃ ee, ee ∈ ees ∧ j ∈ getChainJointIndex pin ee) ∧
  StronglySorted lt (move_group_user_joints_ a') ∧
  NoDup (move_group_user_joints_ a') ∧
  qpos_dim_ a' = sum_list_with (getJointDim pin) (move_group_user_joints_ a') ∧
  move_group_end_effectors_ a' = ees ∧
  current_qpos_ a' = current_qpos_ a.
Proof.
  intros a'. destruct (setMoveGroup_invariant ees a) as [Hs Hd].
  split_and!; try done.
  - intros j. apply setMoveGroup_move_group.
  - by apply StronglySorted_lt_NoDup.
Qed.

(** *** setQpos: the copy loops *)

Lemma store_current_qpos_Ok (i : nat) (x : S) (a : AM) :
  i < length (current_qpos_ a) →
  store_current_qpos i x a = Ok tt (set_current_qpos (<[i:=x]> (current_qpos_ a)) a).
Proof.
  intros Hi. unfold store_current_qpos, mbind, M_bind, get, put, set_index; simpl.
  by rewrite decide_True.
Qed.

Lemma store_current_qpos_not_Throw (i : nat) (x : S) (a a' : AM) e :
  store_current_qpos i x a ≠ Throw e a'.
Proof.
  unfold store_current_qpos, mbind, M_bind, get, put, set_index; simpl.
  by case_decide.
Qed.

Lemma copy_joint_not_Throw (qpos : list S) start_idx n j len (a a' : AM) e :
  copy_joint qpos start_idx j n len a ≠ Throw e a'.
Proof.
  revert j len a. induction n as [|n IH]; intros j len a; simpl; [done|].
  intros H. apply bind_Throw_inv in H as [H|(x & a1 & _ & H)].
  { by apply at_index_not_Throw in H. }
  apply bind_Throw_inv in H as [H|(? & a2 & _ & H)].
  { by apply store_current_qpos_not_Throw in H. }
  by apply IH in H.
Qed.

Lemma copy_joints_not_Throw (qpos : list S) joints len (a a' : AM) e :
  copy_joints pin qpos joints len a ≠ Throw e a'.
Proof.
  revert len a. induction joints as [|i joints IH]; intros len a; simpl; [done|].
  intros H. apply bind_Throw_inv in H as [H|(len' & a1 & _ & H)].
  { by apply copy_joint_not_Throw in H. }
  by apply IH in H.
Qed.

(** One joint: [n] consecutive entries of [qpos], from [len], land in the
    slots from [start_idx + j]; every other slot is kept. *)
Lemma copy_joint_spec (qpos : list S) start_idx n j len (a : AM) :
  start_idx + j + n ≤ length (current_qpos_ a) →
  len + n ≤ length qpos →
  ∃ cur', copy_joint qpos start_idx j n len a
            = Ok (len + n) (set_current_qpos cur' a) ∧
    length cur' = length (current_qpos_ a) ∧
    ∀ p, cur' !! p =
         if decide (start_idx + j ≤ p < start_idx + j + n)
         then qpos !! (len + (p - (start_idx + j)))
         else current_qpos_ a !! p.
Proof.
  revert j len a. induction n as [|n IH]; intros j len a Hcur Hq; simpl.
  - exists (current_qpos_ a). split_and!.
    + destruct a; simpl. by rewrite Nat.add_0_r.
    + done.
    + intros p. case_decide; [lia|done].
  - destruct (lookup_lt_is_Some_2 qpos len) as [x Hx]; [lia|].
    rewrite (bind_Ok _ _ _ _ _ (at_index_Ok _ _ _ _ Hx)).
    rewrite (bind_Ok _ _ _ _ _ (store_current_qpos_Ok (start_idx + j) x a ltac:(lia))).
    set (a1 := set_current_qpos _ a).
    destruct (IH (Datatypes.S j) (Datatypes.S len) a1) as (cur' & Hrun & Hlen & Hlook).
    { subst a1; simpl. rewrite length_insert. lia. }
    { lia. }
    exists cur'. split_and!.
    + rewrite Hrun. f_equal; try lia; by destruct a.
    + rewrite Hlen. subst a1; simpl. apply length_insert.
    + intros p. rewrite Hlook. subst a1; simpl.
      destruct (decide (p = start_idx + j)) as [->|Hne].
      * rewrite decide_False, decide_True by lia.
        rewrite list_lookup_insert_eq by lia.
        rewrite Nat.sub_diag, Nat.add_0_r. done.
      * rewrite list_lookup_insert_ne by lia.
        repeat case_decide; try lia; try done.
        f_equal. lia.
Qed.

(** All joints of a list without repeats, under a disjoint layout. *)
Lemma copy_joints_spec (qpos : list S) joints len (a : AM) :
  joint_slots_disjoint pin →
  NoDup joints →
  (∀ i, i ∈ joints →
        getJointId pin i + getJointDim pin i ≤ length (current_qpos_ a)) →
  len + sum_list_with (getJointDim pin) joints ≤ length qpos →
  ∃ cur', copy_joints pin qpos joints len a
            = Ok (len + sum_list_with (getJointDim pin) joints)
                 (set_current_qpos cur' a) ∧
    length cur' = length (current_qpos_ a) ∧
    (∀ p, (∀ i, i ∈ joints → ¬ in_block pin i p) →
          cur' !! p = current_qpos_ a !! p) ∧
    (∀ k i j, joints !! k = Some i → j < getJointDim pin i →
          cur' !! (getJointId pin i + j) = qpos !! (len + offset pin joints k + j)).
Proof.
  intros Hlay. revert len a.
  induction joints as [|i joints IH]; intros len a Hnd Hrange Hq; simpl.
  - exists (current_qpos_ a). split_and!; try done.
    destruct a; simpl. by rewrite Nat.add_0_r.
  - apply NoDup_cons in Hnd as [Hi Hnd]. simpl in Hq.
    destruct (copy_joint_spec qpos (getJointId pin i) (getJointDim pin i) 0 len a)
      as (cur1 & Hrun1 & Hlen1 & Hlook1).
    { rewrite Nat.add_0_r. apply Hrange. by left. }
    { lia. }
    rewrite (bind_Ok _ _ _ _ _ Hrun1).
    set (a1 := set_current_qpos cur1 a).
    destruct (IH (len + getJointDim pin i) a1) as (cur' & Hrun & Hlen & Hframe & Hval);
      [done| | |].
    { intros i' Hi'. subst a1; simpl. rewrite Hlen1. apply Hrange. by right. }
    { lia. }
    exists cur'. split_and!.
    + rewrite Hrun. f_equal; try lia; by destruct a.
    + by rewrite Hlen.
    + intros p Hp. rewrite Hframe.
      * subst a1; simpl. rewrite Hlook1, decide_False; [done|].
        intros Hin. apply (Hp i); [by left|]. unfold in_block. lia.
      * intros i' Hi'. apply Hp. by right.
    + intros k i' j Hk Hj. destruct k as [|k]; simpl in Hk.
      * injection Hk as <-. rewrite Hframe.
        -- subst a1; simpl. rewrite Hlook1, decide_True by lia.
           unfold offset; simpl. f_equal. lia.
        -- intros i' Hi'. apply (Hlay i i'); [set_solver|].
           unfold in_block. lia.
      * rewrite (Hval k i' j Hk Hj). unfold offset; simpl. f_equal. lia.
Qed.

Lemma update_kinematics_Ok (a : AM) :
  update_kinematics pin a =
    Ok tt (set_fcl (link_poses pin (set_pinocchio pin (current_qpos_ a) a))
             (set_pinocchio pin (current_qpos_ a) a)).
Proof. done. Qed.

(** *** setQpos: the two paths *)

Lemma setQpos_full_run (q : list S) (a : AM) :
  setQpos pin q true a = update_kinematics pin (set_current_qpos q a).
Proof. done. Qed.

Lemma setQpos_reduced_mismatch (q : list S) (a : AM) :
  length q ≠ qpos_dim_ a →
  setQpos pin q false a = Throw (runtime_error (size_message a q)) a.
Proof.
  intros Hne. unfold setQpos, mbind, M_bind, get; simpl.
  by rewrite bool_decide_false.
Qed.

Lemma setQpos_reduced_run (q : list S) (a : AM) :
  length q = qpos_dim_ a →
  setQpos pin q false a =
    match copy_joints pin q (move_group_user_joints_ a) 0 a with
    | Ok _ a1 => update_kinematics pin a1
    | Throw e a1 => Throw e a1
    | Crash => Crash
    end.
Proof.
  intros He. unfold setQpos, mbind, M_bind, get; simpl.
  rewrite bool_decide_true by done. simpl.
  by destruct (copy_joints _ _ _ _ _).
Qed.

Lemma setQpos_reduced_Ok (q : list S) (a : AM) :
  joint_slots_disjoint pin →
  move_group_invariant pin a →
  move_group_in_range pin a →
  length q = qpos_dim_ a →
  ∃ cur', setQpos pin q false a
            = update_kinematics pin (set_current_qpos cur' a) ∧
    length cur' = length (current_qpos_ a) ∧
    (∀ p, (∀ i, i ∈ move_group_user_joints_ a → ¬ in_block pin i p) →
          cur' !! p = current_qpos_ a !! p) ∧
    (∀ k i j, move_group_user_joints_ a !! k = Some i → j < getJointDim pin i →
          cur' !! (getJointId pin i + j)
          = q !! (offset pin (move_group_user_joints_ a) k + j)).
Proof.
  intros Hlay [Hs Hd] Hrange Hq.
  destruct (copy_joints_spec q (move_group_user_joints_ a) 0 a)
    as (cur' & Hrun & Hlen & Hframe & Hval); try done.
  { by apply StronglySorted_lt_NoDup. }
  { simpl. lia. }
  exists cur'. split_and!; try done.
  by rewrite setQpos_reduced_run, Hrun.
Qed.

Lemma copy_joint_Ok_inv (qpos : list S) start_idx n j len len' (a a' : AM) :
  copy_joint qpos start_idx j n len a = Ok len' a' →
  ∃ cur', a' = set_current_qpos cur' a.
Proof.
  revert j len a. induction n as [|n IH]; intros j len a; simpl.
  { intros [= _ <-]. exists (current_qpos_ a). by destruct a. }
  intros H.
  apply bind_Ok_inv in H as (x & a1 & Hx & H). apply at_index_Ok_inv in Hx as [_ ->].
  apply bind_Ok_inv in H as ([] & a2 & Hst & H).
  unfold store_current_qpos, mbind, M_bind, get, put, set_index in Hst; simpl in Hst.
  case_decide; [|done]. injection Hst as <-.
  apply IH in H as [cur' ->]. by exists cur'.
Qed.

Lemma copy_joints_Ok_inv (qpos : list S) joints len len' (a a' : AM) :
  copy_joints pin qpos joints len a = Ok len' a' →
  ∃ cur', a' = set_current_qpos cur' a.
Proof.
  revert len a. induction joints as [|i joints IH]; intros len a; simpl.
  { intros [= _ <-]. exists (current_qpos_ a). by destruct a. }
  intros H. apply bind_Ok_inv in H as (len1 & a1 & H1 & H).
  apply copy_joint_Ok_inv in H1 as [cur1 ->].
  apply IH in H as [cur' ->]. by exists cur'.
Qed.

Lemma setQpos_Ok_move_group (q : list S) (full : bool) (a a' : AM) :
  setQpos pin q full a = Ok tt a' →
  move_group_user_joints_ a' = move_group_user_joints_ a ∧
  qpos_dim_ a' = qpos_dim_ a ∧
  move_group_end_effectors_ a' = move_group_end_effectors_ a.
Proof.
  destruct full.
  - rewrite setQpos_full_run, update_kinematics_Ok. by intros [= <-].
  - destruct (decide (length q = qpos_dim_ a)) as [He|Hne];
      [|by rewrite setQpos_reduced_mismatch].
    rewrite setQpos_reduced_run by done.
    destruct (copy_joints _ _ _ _ _) as [len' a1|e a1|] eqn:Hc; [|done..].
    apply copy_joints_Ok_inv in Hc as [cur' ->].
    rewrite update_kinematics_Ok. by intros [= <-].
Qed.

(** X1. In every state an object goes through, the move-group joints are
    strictly ascending and [qpos_dim_] is the sum of their dimensions. *)
Theorem reachable_move_group_invariant (a : AM) :
  reachable pin a → move_group_invariant pin a.
Proof.
  induction 1 as [ees a|q full a a' _ IH Hrun].
  - apply setMoveGroup_invariant.
  - apply setQpos_Ok_move_group in Hrun as (Hmg & Hdim & _).
    unfold move_group_invariant. by rewrite Hmg, Hdim.
Qed.

Lemma getMoveGroupJointNames_loop_run (joints : list nat) (ret : list string) (a : AM) :
  getMoveGroupJointNames_loop joints ret a =
  match mapM (λ i, user_joint_names_ a !! i) joints with
  | Some names => Ok (ret ++ names) a
  | None => Crash
  end.
Proof.
  revert ret. induction joints as [|i joints IH]; intros ret; simpl.
  - by rewrite app_nil_r.
  - unfold mbind at 1, M_bind, get; simpl.
    unfold mbind at 1, M_bind, at_index at 1.
    destruct (user_joint_names_ a !! i) as [name|]; simpl; [|done].
    rewrite IH. destruct (mapM _ joints); simpl; [|done].
    by rewrite <-app_assoc.
Qed.

(** X3. [getMoveGroupJointNames] returns, in move-group order, the user
    joint name at each move-group joint index, and leaves the object as it
    is; it has no defined result when one of the indices has no name. *)
Theorem getMoveGroupJointNames_names (a : AM) :
  getMoveGroupJointNames a =
  match mapM (λ i, user_joint_names_ a !! i) (move_group_user_joints_ a) with
  | Some names => Ok names a
  | None => Crash
  end.
Proof.
  unfold getMoveGroupJointNames, mbind, M_bind, get; simpl.
  apply getMoveGroupJointNames_loop_run.
Qed.

(** C1. In a model whose joints own disjoint slots, with the move group as
    [setMoveGroup] leaves it and inside the stored configuration, [setQpos]
    with [full = false] on a vector [q] of length [qpos_dim_] returns
    normally; entry [j] of the block of the [k]-th move-group joint receives
    the entry of [q] at the same position in order; the configuration keeps
    its length; every slot outside the blocks of the move-group joints, in
    particular every slot of a joint that is not in the move group, keeps
    its value; the move group itself is unchanged. *)
Theorem setQpos_reduced_scatter (q : list S) (a : AM) :
  joint_slots_disjoint pin →
  move_group_invariant pin a →
  move_group_in_range pin a →
  length q = qpos_dim_ a →
  ∃ a', setQpos pin q false a = Ok tt a' ∧
    length (current_qpos_ a') = length (current_qpos_ a) ∧
    (∀ k i j, move_group_user_joints_ a !! k = Some i → j < getJointDim pin i →
          current_qpos_ a' !! (getJointId pin i + j)
          = q !! (offset pin (move_group_user_joints_ a) k + j)) ∧
    (∀ p, (∀ i, i ∈ move_group_user_joints_ a → ¬ in_block pin i p) →
          current_qpos_ a' !! p = current_qpos_ a !! p) ∧
    (∀ i j, i ∉ move_group_user_joints_ a → j < getJointDim pin i →
          current_qpos_ a' !! (getJointId pin i + j)
          = current_qpos_ a !! (getJointId pin i + j)) ∧
    move_group_user_joints_ a' = move_group_user_joints_ a ∧
    qpos_dim_ a' = qpos_dim_ a.
Proof.
  intros Hlay Hinv Hrange Hq.
  destruct (setQpos_reduced_Ok q a Hlay Hinv Hrange Hq)
    as (cur' & Hrun & Hlen & Hframe & Hval).
  rewrite update_kinematics_Ok in Hrun.
  eexists. split; [exact Hrun|]. simpl. split_and!; try done.
  intros i j Hi Hj. apply Hframe. intros i' Hi'.
  apply (Hlay i i'); [set_solver|]. unfold in_block. lia.
Qed.

(** C4. From a state as in C1 holding the full configuration [F], a valid
    reduced [setQpos] followed by [setQpos(F, true)] returns normally both
    times and leaves [F] as the stored configuration (with the kinematic
    data of [F]); the move group is unchanged. *)
Theorem setQpos_round_trip (q : list S) (a : AM) :
  joint_slots_disjoint pin →
  move_group_invariant pin a →
  move_group_in_range pin a →
  length q = qpos_dim_ a →
  ∃ a1 a2, setQpos pin q false a = Ok tt a1 ∧
    setQpos pin (current_qpos_ a) true a1 = Ok tt a2 ∧
    current_qpos_ a2 = current_qpos_ a ∧
    pinocchio_data_ a2 = computeForwardKinematics pin (current_qpos_ a) ∧
    move_group_user_joints_ a2 = move_group_user_joints_ a ∧
    qpos_dim_ a2 = qpos_dim_ a.
Proof.
  intros Hlay Hinv Hrange Hq.
  destruct (setQpos_reduced_Ok q a Hlay Hinv Hrange Hq) as (cur' & Hrun & _).
  rewrite update_kinematics_Ok in Hrun.
  eexists. eexists. split; [exact Hrun|].
  rewrite setQpos_full_run, update_kinematics_Ok. done.
Qed.

(** C5. [setQpos] with [full = false] throws exactly when the length of the
    input differs from [qpos_dim_]; what it throws is the runtime error with
    the size message, and the state at the throw is the state before the
    call: the stored configuration, the kinematic data, the poses of the
    collision objects and the history of calls to the kinematics and
    collision models are all unchanged. *)
Theorem setQpos_reduced_size_error (q : list S) (a : AM) :
  ((∃ e a', setQpos pin q false a = Throw e a') ↔ length q ≠ qpos_dim_ a) ∧
  (∀ e a', setQpos pin q false a = Throw e a' →
           e = runtime_error (size_message a q) ∧ a' = a).
Proof.
  assert (length q = qpos_dim_ a → ∀ e a', setQpos pin q false a ≠ Throw e a')
    as Hno.
  { intros He e a'. rewrite setQpos_reduced_run by done.
    destruct (copy_joints _ _ _ _ _) as [len' a1|e1 a1|] eqn:Hc; [done| |done].
    by apply copy_joints_not_Throw in Hc. }
  split.
  - split.
    + intros (e & a' & Hthrow) He. by apply (Hno He e a').
    + intros Hne. eexists _, _. by apply setQpos_reduced_mismatch.
  - intros e a' Hthrow. destruct (decide (length q = qpos_dim_ a)) as [He|Hne].
    + by apply (Hno He) in Hthrow.
    + rewrite setQpos_reduced_mismatch in Hthrow by done. by injection Hthrow as <- <-.
Qed.

(** C8. [setQpos] with [full = true] returns normally on every vector,
    whatever its length, and stores exactly that vector, then refreshes the
    kinematic data from it; a vector whose length is not [qpos_dim_] is
    rejected on the [full = false] path only. *)
Theorem setQpos_full_no_length_check (q : list S) (a : AM) :
  ∃ a', setQpos pin q true a = Ok tt a' ∧
    current_qpos_ a' = q ∧
    pinocchio_data_ a' = computeForwardKinematics pin q ∧
    (length q ≠ qpos_dim_ a → ∃ e, setQpos pin q false a = Throw e a).
Proof.
  rewrite setQpos_full_run, update_kinematics_Ok.
  eexists. split; [done|]. split_and!; try done.
  intros Hne. eexists. by apply setQpos_reduced_mismatch.
Qed.

End articulated_model_properties.

(** *** The three-joint arm *)

Example arm_move_group :
  ArticulatedModel.move_group_user_joints_ arm = [0; 2] ∧
  ArticulatedModel.qpos_dim_ arm = 2.
Proof. by vm_compute. Qed.

Example arm_setQpos_reduced :
  ∃ a', ArticulatedModel.setQpos arm_pinocchio [7; 8]%Z false arm = Ok tt a' ∧
        ArticulatedModel.current_qpos_ a' = [7; 20; 30; 8]%Z.
Proof. eexists. split; by vm_compute. Qed.

Example arm_setQpos_rejected :
  ArticulatedModel.setQpos arm_pinocchio [7; 8; 9]%Z false arm =
  Throw (runtime_error "Length is not correct, Dim of Q: 2 ,Len of qpos: 3") arm.
Proof. by vm_compute. Qed.

Lemma arm_slots_disjoint : ArticulatedModel.joint_slots_disjoint arm_pinocchio.
Proof.
  intros i i' p Hne [H1 H2] [H3 H4]. simpl in *.
  repeat case_decide; lia.
Qed.

Lemma arm_in_range : ArticulatedModel.move_group_in_range arm_pinocchio arm.
Proof.
  intros i Hi. change (i ∈ [0; 2]) in Hi.
  apply elem_of_cons in Hi as [->|Hi]; [vm_compute; lia|].
  apply list_elem_of_singleton in Hi as ->. vm_compute. lia.
Qed.

Example arm_getMoveGroupJointNames :
  ArticulatedModel.getMoveGroupJointNames arm = Ok ["j0"; "j2"] arm.
Proof. by vm_compute. Qed.

Lemma reachable_move_group_invariant_witness :
  ArticulatedModel.move_group_invariant arm_pinocchio arm.
Proof.
  apply (reachable_move_group_invariant arm_pinocchio arm).
  apply ArticulatedModel.reachable_setMoveGroup.
Defined.

Lemma setQpos_reduced_scatter_witness :
  let pin := arm_pinocchio in
  let q := [7; 8]%Z in
  ∃ a', ArticulatedModel.setQpos pin q false arm = Ok tt a' ∧
    length (ArticulatedModel.current_qpos_ a')
      = length (ArticulatedModel.current_qpos_ arm) ∧
    (∀ k i j, ArticulatedModel.move_group_user_joints_ arm !! k = Some i →
          j < ArticulatedModel.getJointDim pin i →
          ArticulatedModel.current_qpos_ a' !! (ArticulatedModel.getJointId pin i + j)
          = q !! (ArticulatedModel.offset pin
                    (ArticulatedModel.move_group_user_joints_ arm) k + j)) ∧
    (∀ p, (∀ i, i ∈ ArticulatedModel.move_group_user_joints_ arm →
                ¬ ArticulatedModel.in_block pin i p) →
          ArticulatedModel.current_qpos_ a' !! p
          = ArticulatedModel.current_qpos_ arm !! p) ∧
    (∀ i j, i ∉ ArticulatedModel.move_group_user_joints_ arm →
          j < ArticulatedModel.getJointDim pin i →
          ArticulatedModel.current_qpos_ a' !! (ArticulatedModel.getJointId pin i + j)
          = ArticulatedModel.current_qpos_ arm !! (ArticulatedModel.getJointId pin i + j)) ∧
    ArticulatedModel.move_group_user_joints_ a'
      = ArticulatedModel.move_group_user_joints_ arm ∧
    ArticulatedModel.qpos_dim_ a' = ArticulatedModel.qpos_dim_ arm.
Proof.
  apply (setQpos_reduced_scatter arm_pinocchio [7; 8]%Z arm).
  - exact arm_slots_disjoint.
  - apply setMoveGroup_invariant.
  - exact arm_in_range.
  - reflexivity.
Defined.

Lemma setQpos_round_trip_witness :
  let pin := arm_pinocchio in
  ∃ a1 a2, ArticulatedModel.setQpos pin [7; 8]%Z false arm = Ok tt a1 ∧
    ArticulatedModel.setQpos pin (ArticulatedModel.current_qpos_ arm) true a1
      = Ok tt a2 ∧
    ArticulatedModel.current_qpos_ a2 = ArticulatedModel.current_qpos_ arm ∧
    ArticulatedModel.pinocchio_data_ a2
      = ArticulatedModel.computeForwardKinematics pin
          (ArticulatedModel.current_qpos_ arm) ∧
    ArticulatedModel.move_group_user_joints_ a2
      = ArticulatedModel.move_group_user_joints_ arm ∧
    ArticulatedModel.qpos_dim_ a2 = ArticulatedModel.qpos_dim_ arm.
Proof.
  apply (setQpos_round_trip arm_pinocchio [7; 8]%Z arm).
  - exact arm_slots_disjoint.
  - apply setMoveGroup_invariant.
  - exact arm_in_range.
  - reflexivity.
Defined.

(** ** ValidityCheckerTpl *)

Section validity_checker_properties.
Import OmplPlanner.
Context {S D State SpaceInformation World : Type}.
Context (state2vector : State → SpaceInformation → list S).
Context (to_double : S → D).
Context (vc : @ValidityCheckerTpl S SpaceInformation World).

Lemma vector2eigen_id {A : Type} (x : list A) : vector2eigen (λ a : A, a) x = x.
Proof. unfold vector2eigen. apply list_fmap_id. Qed.

Lemma state2eigen_state2vector (state_raw : State) (si : SpaceInformation) :
  state2eigen state2vector state_raw si = state2vector state_raw si.
Proof. unfold state2eigen. apply vector2eigen_id. Qed.

(** A query [ask] made right after [setQposAll(state)], its answer passed
    through [f]. *)
Lemma query_after_write {A B : Type} (ask : M World A) (f : A → B)
    (state : list S) (w w' : World) (b : B) :
  (setQposAll (world_ vc) state;; x ← ask; mret (f x)) w = Ok b w' ↔
  ∃ w1 x, setQposAll (world_ vc) state w = Ok tt w1 ∧
          ask w1 = Ok x w' ∧ b = f x.
Proof.
  unfold mbind, M_bind, mret, M_ret.
  destruct (setQposAll (world_ vc) state w) as [[] w1|e w1|];
    [|split; [done|by intros (? & ? & ? & _)]..].
  destruct (ask w1) as [x w2|e w2|] eqn:Hask.
  - split.
    + intros [= <- <-]. by exists w1, x.
    + intros (w1' & x' & [= <-] & Hask' & ->). rewrite Hask in Hask'.
      by injection Hask' as <- <-.
  - split; [done|]. intros (w1' & x' & [= <-] & Hask' & _). by rewrite Hask in Hask'.
  - split; [done|]. intros (w1' & x' & [= <-] & Hask' & _). by rewrite Hask in Hask'.
Qed.

(** C2. [isValid] (and [_isValid], on a vector) returns [b] exactly when
    [setQposAll] of the state returns normally, the world's [collide]
    queried on the world so written returns normally with some answer [c],
    and [b] is the negation of [c]: the state is valid if and only if that
    query reports no collision.  [clearance] returns, converted to
    [double], what the world's [distance] returns after the same write.
    The vector written is the one [state2vector] extracts from the state. *)
Theorem validity_is_collision_free_after_write :
  (∀ state_raw w b w',
     isValid state2vector vc state_raw w = Ok b w' ↔
     ∃ w1 c, setQposAll (world_ vc) (state2vector state_raw (si_ vc)) w = Ok tt w1 ∧
             collide (world_ vc) w1 = Ok c w' ∧ b = negb c) ∧
  (∀ state w b w',
     _isValid vc state w = Ok b w' ↔
     ∃ w1 c, setQposAll (world_ vc) state w = Ok tt w1 ∧
             collide (world_ vc) w1 = Ok c w' ∧ b = negb c) ∧
  (∀ state_raw w d w',
     clearance state2vector to_double vc state_raw w = Ok d w' ↔
     ∃ w1 x, setQposAll (world_ vc) (state2vector state_raw (si_ vc)) w = Ok tt w1 ∧
             distance (world_ vc) w1 = Ok x w' ∧ d = to_double x).
Proof.
  split_and!.
  - intros state_raw w b w'. unfold isValid.
    rewrite state2eigen_state2vector. apply query_after_write.
  - intros state w b w'. unfold _isValid. apply query_after_write.
  - intros state_raw w d w'. unfold clearance.
    rewrite state2eigen_state2vector. apply query_after_write.
Qed.

End validity_checker_properties.

(** *** The planning world of the arm *)

Example arm_isValid_free :
  OmplPlanner.isValid arm_state2vector arm_checker [4; 9]%Z [] = Ok true [4; 9]%Z.
Proof. by vm_compute. Qed.

Example arm_isValid_colliding :
  OmplPlanner.isValid arm_state2vector arm_checker [4; -1]%Z [] = Ok false [4; -1]%Z.
Proof. by vm_compute. Qed.

Example arm_clearance :
  OmplPlanner.clearance arm_state2vector arm_identity arm_checker [4; -1]%Z []
  = Ok (-1)%Z [4; -1]%Z.
Proof. by vm_compute. Qed.

Example arm_isValid_rejected :
  OmplPlanner.isValid arm_state2vector arm_checker [4]%Z [7; 7]%Z
  = Throw (runtime_error "wrong length") [7; 7]%Z.
Proof. by vm_compute. Qed.

(** ** KDLModelTpl *)

Section kdl_model_properties.
Import KDLModel.
Context {S D Tree : Type}.
Context (to_double : S → D) (of_double : D → S) (zero : D) (to_int : D → Z).
Context (kdl : @KDL D Tree).

#[local] Abbreviation KM := (@KDLModelTpl Tree).

Lemma getNrOfJoints_indices (m : KM) (chain : Chain) (idx : list nat) :
  chain_joint_indices m chain = Some idx → getNrOfJoints chain = length idx.
Proof.
  unfold chain_joint_indices, getNrOfJoints. intros H.
  apply mapM_Some_1, Forall2_length in H. exact H.
Qed.

Lemma chain_joint_indices_on_chain (m : KM) (chain : Chain) (idx : list nat) k :
  chain_joint_indices m chain = Some idx → k ∈ idx → on_chain m chain k.
Proof.
  unfold chain_joint_indices. intros H Hk.
  apply mapM_Some_1 in H. apply list_elem_of_lookup_1 in Hk as [i Hi].
  destruct (Forall2_lookup_r _ _ _ _ _ H Hi) as (seg & Hseg & Hmap).
  apply list_elem_of_lookup_2, list_elem_of_filter in Hseg as [Hmov Hin].
  by exists seg.
Qed.

(** The loop computing [idx]: it throws at the first non-fixed joint that
    has no user index, and otherwise appends the indices in chain order. *)
Lemma chain_idx_run (m : KM) (segs : list Segment) (idx : list nat) (t : list call) :
  chain_idx m segs idx t =
  match mapM (λ seg, user_joint_idx_mapping_ m !! getName (getJoint seg))
             (filter movable segs) with
  | Some new => Ok (idx ++ new) t
  | None => Throw (out_of_range "map::at") t
  end.
Proof.
  revert idx. induction segs as [|seg segs IH]; intros idx; simpl.
  - by rewrite app_nil_r.
  - rewrite filter_cons. fold (movable seg).
    destruct (decide (movable seg)) as [Hm|Hm]; [|apply IH].
    simpl. unfold mbind at 1, M_bind, map_at.
    destruct (user_joint_idx_mapping_ m !! getName (getJoint seg)) as [i|]; simpl; [|done].
    rewrite IH.
    destruct (mapM _ (filter movable segs)) as [new|]; simpl; [|done].
    by rewrite <-app_assoc.
Qed.

(** The loop filling [q_init] from the seed: after [done] entries, the
    remaining ones are the seed's entries at the remaining indices. *)
Lemma gather_run (q0 : list S) (idx_done idx_rest : list nat)
    (q_done : list D) (t : list call) :
  length q_done = length idx_done →
  gather to_double q0 (idx_done ++ idx_rest) (length idx_done) (length idx_rest)
         (q_done ++ replicate (length idx_rest) zero) t =
  match entries_at to_double q0 idx_rest with
  | Some q_rest => Ok (q_done ++ q_rest) t
  | None => Crash
  end.
Proof.
  revert idx_done q_done.
  induction idx_rest as [|k idx_rest IH]; intros idx_done q_done Hlen; simpl; [done|].
  unfold mbind at 1, M_bind.
  rewrite (at_index_Ok _ _ k) by (by apply list_lookup_middle); simpl.
  unfold mbind at 1, M_bind.
  unfold at_index at 1. destruct (q0 !! k) as [x|]; simpl; [|done].
  unfold mbind at 1, M_bind.
  rewrite set_index_Ok by (rewrite length_app; simpl; lia).
  rewrite <-Hlen, insert_app_r_alt, Nat.sub_diag by lia. simpl.
  specialize (IH (idx_done ++ [k]) (q_done ++ [to_double x])).
  rewrite !length_app in IH; simpl in IH.
  rewrite <-!app_assoc in IH; simpl in IH.
  rewrite Hlen, Nat.add_1_r in *. rewrite IH by done.
  unfold entries_at. destruct (mapM _ idx_rest); simpl; [|done].
  by rewrite <-app_assoc.
Qed.

Lemma gather_from_start (q0 : list S) (idx : list nat) (t : list call) :
  gather to_double q0 idx 0 (length idx) (new_JntArray zero (length idx)) t =
  match entries_at to_double q0 idx with
  | Some q_init => Ok q_init t
  | None => Crash
  end.
Proof. by apply (gather_run q0 [] idx []). Qed.

(** The loop filling [q_min] and [q_max] from the limits. *)
Lemma gather_limits_run (qmin qmax : list S) (idx_done idx_rest : list nat)
    (lo_done hi_done : list D) (t : list call) :
  length lo_done = length idx_done →
  length hi_done = length idx_done →
  gather_limits to_double qmin qmax (idx_done ++ idx_rest)
    (length idx_done) (length idx_rest)
    (lo_done ++ replicate (length idx_rest) zero)
    (hi_done ++ replicate (length idx_rest) zero) t =
  match entries_at to_double qmin idx_rest, entries_at to_double qmax idx_rest with
  | Some lo, Some hi => Ok (lo_done ++ lo, hi_done ++ hi) t
  | _, _ => Crash
  end.
Proof.
  revert idx_done lo_done hi_done.
  induction idx_rest as [|k idx_rest IH]; intros idx_done lo_done hi_done Hlo Hhi;
    simpl; [done|].
  unfold mbind at 1, M_bind.
  rewrite (at_index_Ok _ _ k) by (by apply list_lookup_middle); simpl.
  unfold mbind at 1, M_bind.
  unfold at_index at 1. destruct (qmin !! k) as [x|]; simpl; [|done].
  unfold mbind at 1, M_bind.
  rewrite set_index_Ok by (rewrite length_app; simpl; lia).
  unfold mbind at 1, M_bind.
  rewrite (at_index_Ok _ _ k) by (by apply list_lookup_middle); simpl.
  unfold mbind at 1, M_bind.
  unfold at_index at 1. destruct (qmax !! k) as [y|]; simpl;
    [|by destruct (entries_at to_double qmin idx_rest)].
  unfold mbind at 1, M_bind.
  rewrite set_index_Ok by (rewrite length_app; simpl; lia).
  rewrite !insert_app_r_alt by lia. rewrite Hlo, Hhi, Nat.sub_diag. simpl.
  specialize (IH (idx_done ++ [k]) (lo_done ++ [to_double x]) (hi_done ++ [to_double y])).
  rewrite !length_app in IH; simpl in IH.
  rewrite <-!app_assoc in IH; simpl in IH.
  rewrite !Nat.add_1_r in IH. rewrite IH by lia.
  destruct (entries_at to_double qmin idx_rest), (entries_at to_double qmax idx_rest);
    simpl; try done.
  by rewrite <-!app_assoc.
Qed.

Lemma gather_limits_from_start (qmin qmax : list S) (idx : list nat) (t : list call) :
  gather_limits to_double qmin qmax idx 0 (length idx)
    (new_JntArray zero (length idx)) (new_JntArray zero (length idx)) t =
  match entries_at to_double qmin idx, entries_at to_double qmax idx with
  | Some lo, Some hi => Ok (lo, hi) t
  | _, _ => Crash
  end.
Proof. by apply (gather_limits_run qmin qmax [] idx [] []). Qed.

(** The loop writing the solution back never throws, leaves the history
    alone, keeps the length of the vector and changes no entry whose index
    is not in [idx]. *)
Lemma scatter_not_Throw (q_sol : list D) idx i n (q1 : list S) (t t' : list call) e :
  scatter of_double q_sol idx i n q1 t ≠ Throw e t'.
Proof.
  revert i q1 t. induction n as [|n IH]; intros i q1 t; simpl; [done|].
  intros H. apply bind_Throw_inv in H as [H|(k & t1 & _ & H)].
  { by apply at_index_not_Throw in H. }
  apply bind_Throw_inv in H as [H|(x & t2 & _ & H)].
  { by apply at_index_not_Throw in H. }
  apply bind_Throw_inv in H as [H|(q & t3 & _ & H)].
  { by apply set_index_not_Throw in H. }
  by apply IH in H.
Qed.

Lemma scatter_Ok_range (q_sol : list D) idx i n (q1 q1' : list S) (t t' : list call) :
  scatter of_double q_sol idx i n q1 t = Ok q1' t' →
  t' = t ∧ length q1' = length q1 ∧
  ∀ p, (∀ j, i ≤ j < i + n → idx !! j ≠ Some p) → q1' !! p = q1 !! p.
Proof.
  revert i q1 t. induction n as [|n IH]; intros i q1 t; simpl.
  { by intros [= <- <-]. }
  intros H.
  apply bind_Ok_inv in H as (k & t1 & Hk & H). apply at_index_Ok_inv in Hk as [Hk ->].
  apply bind_Ok_inv in H as (x & t2 & Hx & H). apply at_index_Ok_inv in Hx as [Hx ->].
  apply bind_Ok_inv in H as (q & t3 & Hq & H).
  apply set_index_Ok_inv in Hq as (Hlt & -> & ->).
  apply IH in H as (-> & Hlen & Hframe). split_and!; [done| |].
  - by rewrite Hlen, length_insert.
  - intros p Hp. rewrite Hframe.
    + apply list_lookup_insert_ne. intros ->. apply (Hp i); [lia|done].
    + intros j Hj. apply Hp. lia.
Qed.

Lemma scatter_Ok_inv (q_sol : list D) idx i n (q1 q1' : list S) (t t' : list call) :
  scatter of_double q_sol idx i n q1 t = Ok q1' t' →
  t' = t ∧ length q1' = length q1 ∧
  ∀ p, p ∉ idx → q1' !! p = q1 !! p.
Proof.
  intros (-> & Hlen & Hframe)%scatter_Ok_range. split_and!; try done.
  intros p Hp. apply Hframe. intros j _ Hj. apply Hp.
  by eapply list_elem_of_lookup_2.
Qed.

(** With indices that do not repeat, entry [idx[j]] of the result is the
    converted entry [j] of the solution. *)
Lemma scatter_Ok_values (q_sol : list D) idx i n (q1 q1' : list S) (t t' : list call) :
  scatter of_double q_sol idx i n q1 t = Ok q1' t' →
  NoDup idx →
  ∀ j k, i ≤ j < i + n → idx !! j = Some k →
         q1' !! k = of_double <$> q_sol !! j.
Proof.
  revert i q1 t. induction n as [|n IH]; intros i q1 t; simpl.
  { intros _ _ j k ?. lia. }
  intros H Hnd j k Hj Hjk.
  apply bind_Ok_inv in H as (k0 & t1 & Hk & H). apply at_index_Ok_inv in Hk as [Hk ->].
  apply bind_Ok_inv in H as (x & t2 & Hx & H). apply at_index_Ok_inv in Hx as [Hx ->].
  apply bind_Ok_inv in H as (q & t3 & Hq & H).
  apply set_index_Ok_inv in Hq as (Hlt & -> & ->).
  destruct (decide (j = i)) as [->|Hne].
  - rewrite Hk in Hjk. injection Hjk as ->.
    apply scatter_Ok_range in H as (_ & _ & Hframe). rewrite Hframe.
    + rewrite list_lookup_insert_eq by done. by rewrite Hx.
    + intros j' Hj' Hidx. assert (j' = i); [|lia].
      by eapply NoDup_lookup.
  - eapply IH; [exact H|done| |done]. lia.
Qed.

Lemma scatter_Ok (q_sol : list D) idx i n (q1 : list S) (t : list call) :
  i + n ≤ length idx → i + n ≤ length q_sol →
  (∀ k, k ∈ idx → k < length q1) →
  ∃ q1', scatter of_double q_sol idx i n q1 t = Ok q1' t.
Proof.
  revert i q1. induction n as [|n IH]; intros i q1 Hidx Hsol Hin; simpl.
  { by eexists. }
  destruct (lookup_lt_is_Some_2 idx i) as [k Hk]; [lia|].
  destruct (lookup_lt_is_Some_2 q_sol i) as [x Hx]; [lia|].
  rewrite (bind_Ok _ _ _ _ _ (at_index_Ok _ _ _ _ Hk)).
  rewrite (bind_Ok _ _ _ _ _ (at_index_Ok _ _ _ _ Hx)).
  assert (k < length q1) as Hlt by (by eapply Hin, list_elem_of_lookup_2).
  rewrite (bind_Ok _ _ _ _ _ (set_index_Ok q1 k (of_double x) t Hlt)).
  apply IH; [lia..|]. intros k' Hk'. rewrite length_insert. by apply Hin.
Qed.

(** *** What each operation computes *)

Lemma link_index_out_of_bound (m : KM) (index : nat) :
  user_link_names_ m !! index = None →
  bool_decide (index < length (user_link_names_ m)) = false.
Proof. intros H%lookup_ge_None. apply bool_decide_false. lia. Qed.

Lemma link_index_in_bound (m : KM) (index : nat) tip :
  user_link_names_ m !! index = Some tip →
  bool_decide (index < length (user_link_names_ m)) = true.
Proof. intros H%lookup_lt_Some. by apply bool_decide_true. Qed.

Ltac run_step := unfold mbind at 1, M_bind; simpl.

Ltac run_prologue m index :=
  destruct (user_link_names_ m !! index) as [tip|] eqn:Htip;
  [ rewrite (link_index_in_bound _ _ _ Htip); simpl;
    run_step; unfold at_index at 1; rewrite Htip; simpl
  | by rewrite (link_index_out_of_bound _ _ Htip) ].

Lemma chainIKLMA_run (m : KM) index (q0 : list S) pose (t : list call) :
  chainIKLMA to_double of_double zero kdl m index q0 pose t =
  match user_link_names_ m !! index with
  | None => Throw (runtime_error "link index out of bound") t
  | Some tip =>
    let chain := chain_of kdl m tip in
    let t1 := (t ++ [call_getChain (tree_root_name_ m) tip])
                ++ [call_construct "ChainIkSolverPos_LMA"] in
    match chain_joint_indices m chain with
    | None => Throw (out_of_range "map::at") t1
    | Some idx =>
      match entries_at to_double q0 idx with
      | None => Crash
      | Some q_init =>
        let sol := ChainIkSolverPos_LMA kdl chain L_weights q_init
                     (frame_of_pose to_double pose)
                     (new_JntArray zero (length idx)) in
        match scatter of_double sol.1 idx 0 (length idx) q0
                (t1 ++ [call_CartToJnt "ChainIkSolverPos_LMA" sol.2]) with
        | Ok q1 t2 => Ok (q1, sol.2) t2
        | Throw e t2 => Throw e t2
        | Crash => Crash
        end
      end
    end
  end.
Proof.
  unfold chainIKLMA. run_step. unfold ASSERT.
  run_prologue m index.
  do 3 run_step. fold (chain_of kdl m tip). rewrite chain_idx_run. fold (chain_joint_indices m (chain_of kdl m tip)).
  destruct (chain_joint_indices m (chain_of kdl m tip)) as [idx|] eqn:Hidx; simpl; [|done].
  rewrite (getNrOfJoints_indices _ _ _ Hidx).
  run_step. rewrite gather_from_start.
  destruct (entries_at to_double q0 idx) as [q_init|]; simpl; [|done].
  destruct (ChainIkSolverPos_LMA _ _ _ _ _ _) as [q_sol retval]; simpl.
  do 2 run_step. by destruct (scatter _ _ _ _ _ _ _).
Qed.

Lemma chainIKNR_run (m : KM) index (q0 : list S) pose (t : list call) :
  chainIKNR to_double of_double zero kdl m index q0 pose t =
  match user_link_names_ m !! index with
  | None => Throw (runtime_error "link index out of bound") t
  | Some tip =>
    let chain := chain_of kdl m tip in
    let t1 := (((t ++ [call_getChain (tree_root_name_ m) tip])
                 ++ [call_construct "ChainFkSolverPos_recursive"])
                 ++ [call_construct "ChainIkSolverVel_pinv"])
                 ++ [call_construct "ChainIkSolverPos_NR"] in
    match chain_joint_indices m chain with
    | None => Throw (out_of_range "map::at") t1
    | Some idx =>
      match entries_at to_double q0 idx with
      | None => Crash
      | Some q_init =>
        let sol := ChainIkSolverPos_NR kdl chain q_init
                     (frame_of_pose to_double pose)
                     (new_JntArray zero (length idx)) in
        match scatter of_double sol.1 idx 0 (length idx) q0
                (t1 ++ [call_CartToJnt "ChainIkSolverPos_NR" sol.2]) with
        | Ok q1 t2 => Ok (q1, sol.2) t2
        | Throw e t2 => Throw e t2
        | Crash => Crash
        end
      end
    end
  end.
Proof.
  unfold chainIKNR. run_step. unfold ASSERT.
  run_prologue m index.
  do 5 run_step. fold (chain_of kdl m tip). rewrite chain_idx_run.
  fold (chain_joint_indices m (chain_of kdl m tip)).
  destruct (chain_joint_indices m (chain_of kdl m tip)) as [idx|] eqn:Hidx; simpl; [|done].
  rewrite (getNrOfJoints_indices _ _ _ Hidx).
  run_step. rewrite gather_from_start.
  destruct (entries_at to_double q0 idx) as [q_init|]; simpl; [|done].
  destruct (ChainIkSolverPos_NR _ _ _ _ _) as [q_sol retval]; simpl.
  do 2 run_step. by destruct (scatter _ _ _ _ _ _ _).
Qed.

Lemma chainIKNRJL_run (m : KM) index (q0 : list S) pose qmin qmax (t : list call) :
  chainIKNRJL to_double of_double zero kdl m index q0 pose qmin qmax t =
  match user_link_names_ m !! index with
  | None => Throw (runtime_error "link index out of bound") t
  | Some tip =>
    let chain := chain_of kdl m tip in
    let t1 := ((t ++ [call_getChain (tree_root_name_ m) tip])
                 ++ [call_construct "ChainFkSolverPos_recursive"])
                 ++ [call_construct "ChainIkSolverVel_pinv"] in
    match chain_joint_indices m chain with
    | None => Throw (out_of_range "map::at") t1
    | Some idx =>
      match entries_at to_double qmin idx, entries_at to_double qmax idx,
            entries_at to_double q0 idx with
      | Some q_min, Some q_max, Some q_init =>
        let sol := ChainIkSolverPos_NR_JL kdl chain q_min q_max q_init
                     (frame_of_pose to_double pose)
                     (new_JntArray zero (length idx)) in
        match scatter of_double sol.1 idx 0 (length idx) q0
                ((t1 ++ [call_construct "ChainIkSolverPos_NR_JL"])
                   ++ [call_CartToJnt "ChainIkSolverPos_NR_JL" sol.2]) with
        | Ok q1 t2 => Ok (q1, sol.2) t2
        | Throw e t2 => Throw e t2
        | Crash => Crash
        end
      | _, _, _ => Crash
      end
    end
  end.
Proof.
  unfold chainIKNRJL. run_step. unfold ASSERT.
  run_prologue m index.
  do 4 run_step. fold (chain_of kdl m tip). rewrite chain_idx_run.
  fold (chain_joint_indices m (chain_of kdl m tip)).
  destruct (chain_joint_indices m (chain_of kdl m tip)) as [idx|] eqn:Hidx; simpl; [|done].
  rewrite (getNrOfJoints_indices _ _ _ Hidx).
  run_step. rewrite gather_limits_from_start.
  destruct (entries_at to_double qmin idx) as [q_min|]; simpl; [|done].
  destruct (entries_at to_double qmax idx) as [q_max|]; simpl; [|done].
  do 2 run_step. rewrite gather_from_start.
  destruct (entries_at to_double q0 idx) as [q_init|]; simpl; [|done].
  destruct (ChainIkSolverPos_NR_JL _ _ _ _ _ _ _) as [q_sol retval]; simpl.
  do 2 run_step. by destruct (scatter _ _ _ _ _ _ _).
Qed.

(** The loop building the goal frames never throws and leaves the history
    alone. *)
Lemma build_frames_run (endpoints : list string) (poses : list (@Vector7 S)) i
    (frames : gmap string (@Frame D)) (t : list call) :
  match build_frames to_double endpoints poses i frames t with
  | Ok _ t' => t' = t
  | Throw _ _ => False
  | Crash => True
  end.
Proof.
  revert i frames. induction endpoints as [|ep endpoints IH]; intros i frames; simpl; [done|].
  run_step. unfold at_index at 1. destruct (poses !! i) as [pose|]; simpl; [|done].
  apply IH.
Qed.

Lemma TreeIKNRJL_run (m : KM) endpoints (q0 : list S) poses qmin qmax (t : list call) :
  mapping_sized kdl m →
  TreeIKNRJL to_double of_double zero to_int kdl m endpoints q0 poses qmin qmax t =
  let idx := joint_mapping_kdl_2_user_ m in
  let t1 := (t ++ [call_construct "TreeFkSolverPos_recursive"])
              ++ [call_construct "TreeIkSolverVel_wdls"] in
  match entries_at to_double qmin idx, entries_at to_double qmax idx with
  | Some q_min, Some q_max =>
    match build_frames to_double endpoints poses 0 ∅ t1 with
    | Ok frames _ =>
      match entries_at to_double q0 idx with
      | Some q_init =>
        let sol := TreeIkSolverPos_NR_JL kdl (tree_ m) endpoints q_min q_max
                     (1 # 1000000)%Q 1000 (1 # 1000000)%Q q_init frames
                     (new_JntArray zero (length idx)) in
        match scatter of_double sol.1 idx 0 (length idx) q0
                ((t1 ++ [call_construct "TreeIkSolverPos_NR_JL"])
                   ++ [call_CartToJnt "TreeIkSolverPos_NR_JL" (to_int sol.2)]) with
        | Ok q1 t2 => Ok (q1, to_int sol.2) t2
        | Throw e t2 => Throw e t2
        | Crash => Crash
        end
      | None => Crash
      end
    | _ => Crash
    end
  | _, _ => Crash
  end.
Proof.
  unfold mapping_sized. intros Hn. unfold TreeIKNRJL. rewrite <-Hn.
  do 3 run_step. rewrite gather_limits_from_start.
  destruct (entries_at to_double qmin _) as [q_min|]; simpl; [|done].
  destruct (entries_at to_double qmax _) as [q_max|]; simpl; [|done].
  run_step.
  pose proof (build_frames_run endpoints poses 0 ∅
    ((t ++ [call_construct "TreeFkSolverPos_recursive"])
       ++ [call_construct "TreeIkSolverVel_wdls"])) as Hf.
  destruct (build_frames _ _ _ _ _ _) as [frames t'|e t'|]; [subst t'|done..].
  run_step. rewrite gather_from_start.
  destruct (entries_at to_double q0 _) as [q_init|]; simpl; [|done].
  run_step.
  destruct (TreeIkSolverPos_NR_JL _ _ _ _ _ _ _ _ _ _ _) as [q_sol retval]; simpl.
  do 2 run_step. by destruct (scatter _ _ _ _ _ _ _).
Qed.

Lemma build_frames_frames_from (endpoints : list string) (poses : list (@Vector7 S)) i
    (frames : gmap string (@Frame D)) (t : list call) :
  build_frames to_double endpoints poses i frames t =
  match frames_from to_double endpoints poses i frames with
  | Some frames' => Ok frames' t
  | None => Crash
  end.
Proof.
  revert i frames. induction endpoints as [|ep endpoints IH]; intros i frames; simpl; [done|].
  run_step. unfold at_index at 1. destruct (poses !! i) as [pose|]; simpl; [|done].
  apply IH.
Qed.

Lemma entries_at_in_range (q : list S) idx (q' : list D) k :
  entries_at to_double q idx = Some q' → k ∈ idx → k < length q.
Proof.
  unfold entries_at. intros H Hk. apply mapM_Some_1 in H.
  apply list_elem_of_lookup_1 in Hk as [i Hi].
  destruct (Forall2_lookup_l _ _ _ _ _ H Hi) as (y & _ & Hy).
  destruct (q !! k) eqn:Hq; [|done]. by eapply lookup_lt_Some.
Qed.

Lemma no_CartToJnt_nil : no_CartToJnt [].
Proof. intros solver retval. apply not_elem_of_nil. Qed.

Lemma no_CartToJnt_cons c t :
  (∀ solver retval, c ≠ call_CartToJnt solver retval) →
  no_CartToJnt t → no_CartToJnt (c :: t).
Proof.
  intros Hc Ht solver retval [Heq|Hin]%elem_of_cons; [by eapply Hc|by eapply Ht].
Qed.

(** The last step shared by the four operations: writing the solution
    back after the solver call. *)
Lemma passes_status_tail (sol : JntArray * Z) solver idx (q0 : list S) (q_init : list D)
    (t new : list call) :
  entries_at to_double q0 idx = Some q_init →
  no_CartToJnt new →
  let run := match scatter of_double sol.1 idx 0 (length idx) q0
                     (t ++ new ++ [call_CartToJnt solver sol.2]) with
             | Ok q1 t2 => Ok (q1, sol.2) t2
             | Throw e t2 => Throw e t2
             | Crash => Crash
             end in
  (∀ q1 r t', run = Ok (q1, r) t' →
     (∃ q_sol, Some sol = Some (q_sol, r)) ∧
     last t' = Some (call_CartToJnt solver r)) ∧
  (∀ e t', run = Throw e t' →
     Some sol = None ∧ ∃ new', t' = t ++ new' ∧ no_CartToJnt new') ∧
  (∀ q_sol r, Some sol = Some (q_sol, r) → length q_sol = length idx →
     ∃ q1 t', run = Ok (q1, r) t').
Proof.
  intros Hq Hnew run. subst run. destruct sol as [q_sol retval]; simpl.
  split_and!.
  - intros q1 r t'.
    destruct (scatter _ _ _ _ _ _ _) as [q1' t2|e t2|] eqn:Hsc; [|done..].
    intros [= -> -> ->]. apply scatter_Ok_inv in Hsc as (-> & _).
    split; [by eexists|]. rewrite app_assoc. apply last_snoc.
  - intros e t'.
    destruct (scatter _ _ _ _ _ _ _) as [q1' t2|e' t2|] eqn:Hsc; [done| |done].
    by apply scatter_not_Throw in Hsc.
  - intros q_sol' r [= <- <-] Hlen.
    destruct (scatter_Ok q_sol idx 0 (length idx) q0
                (t ++ new ++ [call_CartToJnt solver retval]))
      as [q1 Hsc]; [simpl; lia..| |].
    { intros k Hk. by eapply entries_at_in_range. }
    rewrite Hsc. by eexists _, _.
Qed.

(** *** The claims on the inverse-kinematics operations *)

Ltac no_solver_call :=
  repeat (apply no_CartToJnt_cons; [done|]); apply no_CartToJnt_nil.

(** The operation stopped with [e] after adding the events [new]. *)
Ltac stopped_before_solver new :=
  split_and!;
  [ done
  | intros ? ? [= <- <-]; split; [done|]; exists new;
    split; [by rewrite <-?app_assoc, ?app_nil_r|no_solver_call]
  | done ].

Ltac after_solver Hkeep new Hq :=
  rewrite <-?app_assoc; simpl;
  let HOk := fresh "HOk" in
  let HThrow := fresh "HThrow" in
  let HRun := fresh "HRun" in
  let q_sol := fresh "q_sol" in
  let r := fresh "r" in
  let Hsol := fresh "Hsol" in
  let Hsize := fresh "Hsize" in
  match goal with
  | |- context [scatter _ (?sol).1 ?idx _ _ ?q0 (?t ++ ?l)] =>
      let solver := lazymatch l with context [call_CartToJnt ?s _] => s end in
      destruct (passes_status_tail sol solver idx q0 _ t new Hq ltac:(no_solver_call))
        as (HOk & HThrow & HRun)
  end;
  split_and!; [exact HOk|exact HThrow|];
  intros q_sol r Hsol Hsize; apply (HRun q_sol r Hsol);
  injection Hsol as Hsol; apply (f_equal fst) in Hsol; simpl in Hsol;
  rewrite <-Hsol, (Hkeep Hsize); apply length_replicate.

(** C6, amended. Each of [chainIKLMA], [chainIKNR] and [chainIKNRJL]
    passes on the status of its solver: a normal return carries, beside
    the configuration, exactly the [int] the solver's [CartToJnt] returned,
    and that call is the last event; an exception is only ever thrown
    before the solver is reached; and once the solver is reached the
    operation returns normally whatever the status is, so that failure to
    converge shows in the status alone.  [TreeIKNRJL] does the same with
    the [double] its solver returns converted to [int]: its status is that
    conversion and not the value itself.  ([TreeIKNRJL]: for a model whose
    joint mapping has the size its constructor gives it.) *)
Theorem ik_status_passed_through (m : KM) (index : nat) (endpoints : list string)
    (q0 : list S) (pose : @Vector7 S) (poses : list (@Vector7 S))
    (qmin qmax : list S) :
  passes_status kdl
    (chainIKLMA to_double of_double zero kdl m index q0 pose)
    "ChainIkSolverPos_LMA" (LMA_solve to_double zero kdl m index q0 pose) ∧
  passes_status kdl
    (chainIKNR to_double of_double zero kdl m index q0 pose)
    "ChainIkSolverPos_NR" (NR_solve to_double zero kdl m index q0 pose) ∧
  passes_status kdl
    (chainIKNRJL to_double of_double zero kdl m index q0 pose qmin qmax)
    "ChainIkSolverPos_NR_JL"
    (NR_JL_solve to_double zero kdl m index q0 pose qmin qmax) ∧
  (mapping_sized kdl m →
   passes_converted_status to_int kdl
     (TreeIKNRJL to_double of_double zero to_int kdl m endpoints q0 poses qmin qmax)
     "TreeIkSolverPos_NR_JL"
     (Tree_solve to_double zero kdl m endpoints q0 poses qmin qmax)).
Proof.
  split_and!.
  - intros t. rewrite chainIKLMA_run. unfold LMA_solve.
    destruct (user_link_names_ m !! index) as [tip|]; simpl;
      [|stopped_before_solver (@nil call)].
    destruct (chain_joint_indices m (chain_of kdl m tip)) as [idx|]; simpl;
      [|stopped_before_solver
          [call_getChain (tree_root_name_ m) tip;
           call_construct "ChainIkSolverPos_LMA"]].
    destruct (entries_at to_double q0 idx) as [q_init|] eqn:Hq; simpl; [|done].
    after_solver (λ H : solvers_keep_size kdl, proj1 H)
      [call_getChain (tree_root_name_ m) tip; call_construct "ChainIkSolverPos_LMA"] Hq.
  - intros t. rewrite chainIKNR_run. unfold NR_solve.
    destruct (user_link_names_ m !! index) as [tip|]; simpl;
      [|stopped_before_solver (@nil call)].
    destruct (chain_joint_indices m (chain_of kdl m tip)) as [idx|]; simpl;
      [|stopped_before_solver
          [call_getChain (tree_root_name_ m) tip;
           call_construct "ChainFkSolverPos_recursive";
           call_construct "ChainIkSolverVel_pinv";
           call_construct "ChainIkSolverPos_NR"]].
    destruct (entries_at to_double q0 idx) as [q_init|] eqn:Hq; simpl; [|done].
    after_solver (λ H : solvers_keep_size kdl, proj1 (proj2 H))
      [call_getChain (tree_root_name_ m) tip;
       call_construct "ChainFkSolverPos_recursive";
       call_construct "ChainIkSolverVel_pinv";
       call_construct "ChainIkSolverPos_NR"] Hq.
  - intros t. rewrite chainIKNRJL_run. unfold NR_JL_solve.
    destruct (user_link_names_ m !! index) as [tip|]; simpl;
      [|stopped_before_solver (@nil call)].
    destruct (chain_joint_indices m (chain_of kdl m tip)) as [idx|]; simpl;
      [|stopped_before_solver
          [call_getChain (tree_root_name_ m) tip;
           call_construct "ChainFkSolverPos_recursive";
           call_construct "ChainIkSolverVel_pinv"]].
    destruct (entries_at to_double qmin idx) as [q_min|]; simpl; [|done].
    destruct (entries_at to_double qmax idx) as [q_max|]; simpl; [|done].
    destruct (entries_at to_double q0 idx) as [q_init|] eqn:Hq; simpl; [|done].
    after_solver (λ H : solvers_keep_size kdl, proj1 (proj2 (proj2 H)))
      [call_getChain (tree_root_name_ m) tip;
       call_construct "ChainFkSolverPos_recursive";
       call_construct "ChainIkSolverVel_pinv";
       call_construct "ChainIkSolverPos_NR_JL"] Hq.
  - intros Hsized t. rewrite TreeIKNRJL_run by done. unfold Tree_solve. simpl.
    destruct (entries_at to_double qmin _) as [q_min|]; simpl; [|done].
    destruct (entries_at to_double qmax _) as [q_max|]; simpl; [|done].
    rewrite build_frames_frames_from.
    destruct (frames_from to_double endpoints poses 0 ∅) as [frames|]; simpl; [|done].
    destruct (entries_at to_double q0 _) as [q_init|] eqn:Hq; simpl; [|done].
    pose proof (λ H : solvers_keep_size kdl,
      proj2 (proj2 (proj2 H)) (tree_ m) endpoints q_min q_max (1 # 1000000)%Q 1000
        (1 # 1000000)%Q q_init frames
        (new_JntArray zero (length (joint_mapping_kdl_2_user_ m)))) as Hkeep.
    destruct (TreeIkSolverPos_NR_JL _ _ _ _ _ _ _ _ _ _ _) as [q_sol v]; simpl in *.
    rewrite <-?app_assoc; simpl.
    destruct (passes_status_tail (q_sol, to_int v) "TreeIkSolverPos_NR_JL"
                (joint_mapping_kdl_2_user_ m) q0 q_init t
                [call_construct "TreeFkSolverPos_recursive";
                 call_construct "TreeIkSolverVel_wdls";
                 call_construct "TreeIkSolverPos_NR_JL"] Hq ltac:(no_solver_call))
      as (HOk & HThrow & HRun).
    simpl in HOk, HThrow, HRun. split_and!.
    + intros q1 r t' Hrun. destruct (HOk q1 r t' Hrun) as [[q_sol' Hsol] Hlast].
      split; [|done]. injection Hsol as <- <-. by exists q_sol, v.
    + intros e t' Hrun. by destruct (HThrow e t' Hrun) as [? _].
    + intros q_sol' v' [= <- <-] Hsize. apply (HRun q_sol (to_int v)); [done|].
      rewrite (Hkeep Hsize). apply length_replicate.
Qed.

Lemma chain_result_frame (m : KM) tip idx (sol : list D * Z) (q0 q1 : list S)
    (t t' : list call) r :
  chain_joint_indices m (chain_of kdl m tip) = Some idx →
  match scatter of_double sol.1 idx 0 (length idx) q0 t with
  | Ok q1 t2 => Ok (q1, sol.2) t2
  | Throw e t2 => Throw e t2
  | Crash => Crash
  end = Ok (q1, r) t' →
  length q1 = length q0 ∧
  ∀ k, ¬ on_chain m (chain_of kdl m tip) k → q1 !! k = q0 !! k.
Proof.
  intros Hidx H.
  destruct (scatter _ _ _ _ _ _ _) as [q1' t2|e t2|] eqn:Hsc; [|done..].
  injection H as -> _ _. apply scatter_Ok_inv in Hsc as (_ & Hlen & Hframe).
  split; [done|]. intros k Hk. apply Hframe. intros Hin. apply Hk.
  by eapply chain_joint_indices_on_chain.
Qed.

(** C9. When [chainIKLMA], [chainIKNR] or [chainIKNRJL] returns for the
    link [tip] at [index], the returned vector has the length of the seed
    [q0] and agrees with it at every index that is not the user index of a
    non-fixed joint on the chain from the tree root to [tip]. *)
Theorem chainIK_keeps_entries_off_chain (m : KM) (index : nat) (tip : string)
    (q0 : list S) (pose : @Vector7 S) (qmin qmax : list S) (t : list call)
    (q1 : list S) (r : Z) (t' : list call) :
  user_link_names_ m !! index = Some tip →
  chainIKLMA to_double of_double zero kdl m index q0 pose t = Ok (q1, r) t' ∨
  chainIKNR to_double of_double zero kdl m index q0 pose t = Ok (q1, r) t' ∨
  chainIKNRJL to_double of_double zero kdl m index q0 pose qmin qmax t
    = Ok (q1, r) t' →
  length q1 = length q0 ∧
  ∀ k, ¬ on_chain m (chain_of kdl m tip) k → q1 !! k = q0 !! k.
Proof.
  intros Htip [H|[H|H]].
  - rewrite chainIKLMA_run, Htip in H. simpl in H.
    destruct (chain_joint_indices m (chain_of kdl m tip)) as [idx|] eqn:Hidx; [|done].
    destruct (entries_at to_double q0 idx) as [q_init|]; [|done].
    by eapply chain_result_frame.
  - rewrite chainIKNR_run, Htip in H. simpl in H.
    destruct (chain_joint_indices m (chain_of kdl m tip)) as [idx|] eqn:Hidx; [|done].
    destruct (entries_at to_double q0 idx) as [q_init|]; [|done].
    by eapply chain_result_frame.
  - rewrite chainIKNRJL_run, Htip in H. simpl in H.
    destruct (chain_joint_indices m (chain_of kdl m tip)) as [idx|] eqn:Hidx; [|done].
    destruct (entries_at to_double qmin idx) as [q_min|]; [|done].
    destruct (entries_at to_double qmax idx) as [q_max|]; [|done].
    destruct (entries_at to_double q0 idx) as [q_init|]; [|done].
    by eapply chain_result_frame.
Qed.

Lemma chain_result_values (idx : list nat) (sol : list D * Z) (q0 q1 : list S)
    (t t' : list call) r :
  NoDup idx →
  match scatter of_double sol.1 idx 0 (length idx) q0 t with
  | Ok q1 t2 => Ok (q1, sol.2) t2
  | Throw e t2 => Throw e t2
  | Crash => Crash
  end = Ok (q1, r) t' →
  Some sol = Some (sol.1, r) ∧
  ∀ j k, idx !! j = Some k → q1 !! k = of_double <$> sol.1 !! j.
Proof.
  intros Hnd H.
  destruct (scatter _ _ _ _ _ _ _) as [q1' t2|e t2|] eqn:Hsc; [|done..].
  injection H as -> <- _. split; [by destruct sol|].
  intros j k Hjk. eapply scatter_Ok_values; [exact Hsc|done| |done].
  apply lookup_lt_Some in Hjk. lia.
Qed.

(** X2. When a chain operation returns for the link [tip] and the user
    indices [idx] of the chain's non-fixed joints do not repeat, entry
    [idx[j]] of the returned vector is entry [j] of the solver's solution,
    converted to the scalar type. *)
Theorem chainIK_writes_solution (m : KM) (index : nat) (tip : string)
    (idx : list nat) (q0 : list S) (pose : @Vector7 S) (qmin qmax : list S)
    (t : list call) (q1 : list S) (r : Z) (t' : list call) :
  user_link_names_ m !! index = Some tip →
  chain_joint_indices m (chain_of kdl m tip) = Some idx →
  NoDup idx →
  (chainIKLMA to_double of_double zero kdl m index q0 pose t = Ok (q1, r) t' →
   ∃ q_sol, LMA_solve to_double zero kdl m index q0 pose = Some (q_sol, r) ∧
     ∀ j k, idx !! j = Some k → q1 !! k = of_double <$> q_sol !! j) ∧
  (chainIKNR to_double of_double zero kdl m index q0 pose t = Ok (q1, r) t' →
   ∃ q_sol, NR_solve to_double zero kdl m index q0 pose = Some (q_sol, r) ∧
     ∀ j k, idx !! j = Some k → q1 !! k = of_double <$> q_sol !! j) ∧
  (chainIKNRJL to_double of_double zero kdl m index q0 pose qmin qmax t
     = Ok (q1, r) t' →
   ∃ q_sol, NR_JL_solve to_double zero kdl m index q0 pose qmin qmax
              = Some (q_sol, r) ∧
     ∀ j k, idx !! j = Some k → q1 !! k = of_double <$> q_sol !! j).
Proof.
  intros Htip Hidx Hnd. split_and!; intros H.
  - rewrite chainIKLMA_run, Htip in H. simpl in H. rewrite Hidx in H.
    unfold LMA_solve. rewrite Htip. simpl. rewrite Hidx. simpl.
    destruct (entries_at to_double q0 idx) as [q_init|]; [|done]. simpl.
    eexists. by eapply chain_result_values.
  - rewrite chainIKNR_run, Htip in H. simpl in H. rewrite Hidx in H.
    unfold NR_solve. rewrite Htip. simpl. rewrite Hidx. simpl.
    destruct (entries_at to_double q0 idx) as [q_init|]; [|done]. simpl.
    eexists. by eapply chain_result_values.
  - rewrite chainIKNRJL_run, Htip in H. simpl in H. rewrite Hidx in H.
    unfold NR_JL_solve. rewrite Htip. simpl. rewrite Hidx. simpl.
    destruct (entries_at to_double qmin idx) as [q_min|]; [|done]. simpl.
    destruct (entries_at to_double qmax idx) as [q_max|]; [|done]. simpl.
    destruct (entries_at to_double q0 idx) as [q_init|]; [|done]. simpl.
    eexists. by eapply chain_result_values.
Qed.

Lemma not_bound_error_after_prologue {A} (idx : option (list nat)) (t1 t' : list call)
    (k : list nat → outcome (list call) A) :
  (∀ i, k i ≠ Throw (runtime_error "link index out of bound") t') →
  match idx with
  | Some i => k i
  | None => Throw (out_of_range "map::at") t1
  end ≠ Throw (runtime_error "link index out of bound") t'.
Proof. intros Hk. destruct idx; [apply Hk|done]. Qed.

(** C10. When [index] is not below the number of user link names, each of
    [chainIKLMA], [chainIKNR] and [chainIKNRJL] throws the runtime error
    "link index out of bound", for every seed, with the history of KDL
    calls unchanged: no chain was extracted and no solver built.  When
    [index] is below that number, none of them throws this error. *)
Theorem chainIK_link_index_checked (m : KM) (index : nat) (q0 : list S)
    (pose : @Vector7 S) (qmin qmax : list S) (t : list call) :
  (length (user_link_names_ m) ≤ index →
   chainIKLMA to_double of_double zero kdl m index q0 pose t
     = Throw (runtime_error "link index out of bound") t ∧
   chainIKNR to_double of_double zero kdl m index q0 pose t
     = Throw (runtime_error "link index out of bound") t ∧
   chainIKNRJL to_double of_double zero kdl m index q0 pose qmin qmax t
     = Throw (runtime_error "link index out of bound") t) ∧
  (index < length (user_link_names_ m) → ∀ t',
   chainIKLMA to_double of_double zero kdl m index q0 pose t
     ≠ Throw (runtime_error "link index out of bound") t' ∧
   chainIKNR to_double of_double zero kdl m index q0 pose t
     ≠ Throw (runtime_error "link index out of bound") t' ∧
   chainIKNRJL to_double of_double zero kdl m index q0 pose qmin qmax t
     ≠ Throw (runtime_error "link index out of bound") t').
Proof.
  split.
  - intros Hge. apply lookup_ge_None in Hge.
    rewrite chainIKLMA_run, chainIKNR_run, chainIKNRJL_run, Hge. done.
  - intros Hlt t'. apply lookup_lt_is_Some in Hlt as [tip Htip].
    rewrite chainIKLMA_run, chainIKNR_run, chainIKNRJL_run, Htip. simpl.
    split_and!; apply not_bound_error_after_prologue; intros idx.
    + destruct (entries_at to_double q0 idx); [|done].
      destruct (scatter _ _ _ _ _ _ _) eqn:Hsc; try done.
      by apply scatter_not_Throw in Hsc.
    + destruct (entries_at to_double q0 idx); [|done].
      destruct (scatter _ _ _ _ _ _ _) eqn:Hsc; try done.
      by apply scatter_not_Throw in Hsc.
    + destruct (entries_at to_double qmin idx); [|done].
      destruct (entries_at to_double qmax idx); [|done].
      destruct (entries_at to_double q0 idx); [|done].
      destruct (scatter _ _ _ _ _ _ _) eqn:Hsc; try done.
      by apply scatter_not_Throw in Hsc.
Qed.

End kdl_model_properties.

(** *** The arm as a KDL tree *)

Example arm_chainIKLMA :
  KDLModel.chainIKLMA arm_identity arm_identity 0%Z arm_kdl arm_kdl_model 2
    [10; 20; 30]%Z arm_pose [] =
  Ok ([11; 20; 31]%Z, 0%Z)
     [KDLModel.call_getChain "base" "hand";
      KDLModel.call_construct "ChainIkSolverPos_LMA";
      KDLModel.call_CartToJnt "ChainIkSolverPos_LMA" 0%Z].
Proof. by vm_compute. Qed.

Example arm_chainIKNR_not_converged :
  KDLModel.chainIKNR arm_identity arm_identity 0%Z arm_kdl arm_kdl_model 2
    [10; 20; 30]%Z arm_pose [] =
  Ok ([0; 20; 0]%Z, (-5)%Z)
     [KDLModel.call_getChain "base" "hand";
      KDLModel.call_construct "ChainFkSolverPos_recursive";
      KDLModel.call_construct "ChainIkSolverVel_pinv";
      KDLModel.call_construct "ChainIkSolverPos_NR";
      KDLModel.call_CartToJnt "ChainIkSolverPos_NR" (-5)%Z].
Proof. by vm_compute. Qed.

Example arm_chainIKNRJL_out_of_bound :
  KDLModel.chainIKNRJL arm_identity arm_identity 0%Z arm_kdl arm_kdl_model 3
    [10; 20; 30]%Z arm_pose [0; 0; 0]%Z [9; 9; 9]%Z [] =
  Throw (runtime_error "link index out of bound") [].
Proof. by vm_compute. Qed.

Example arm_TreeIKNRJL :
  KDLModel.TreeIKNRJL arm_identity arm_identity 0%Z arm_identity arm_kdl arm_kdl_model ["hand"]
    [10; 20; 30]%Z [arm_pose] [0; 0; 0]%Z [9; 9; 9]%Z [] =
  Ok ([0; 0; 0]%Z, (-5)%Z)
     [KDLModel.call_construct "TreeFkSolverPos_recursive";
      KDLModel.call_construct "TreeIkSolverVel_wdls";
      KDLModel.call_construct "TreeIkSolverPos_NR_JL";
      KDLModel.call_CartToJnt "TreeIkSolverPos_NR_JL" (-5)%Z].
Proof. by vm_compute. Qed.

Lemma arm_kdl_keeps_size : KDLModel.solvers_keep_size arm_kdl.
Proof.
  repeat split; intros; simpl; try done.
  by rewrite length_fmap, length_seq.
Qed.

Lemma chainIK_writes_solution_witness :
  ∃ q_sol, KDLModel.LMA_solve arm_identity 0%Z arm_kdl arm_kdl_model 2
             [10; 20; 30]%Z arm_pose = Some (q_sol, 0%Z) ∧
    ∀ j k, [0; 2] !! j = Some k →
           [11; 20; 31]%Z !! k = arm_identity <$> q_sol !! j.
Proof.
  apply (chainIK_writes_solution arm_identity arm_identity 0%Z arm_kdl
           arm_kdl_model 2 "hand" [0; 2] [10; 20; 30]%Z arm_pose [] [] []
           [11; 20; 31]%Z 0%Z
           [KDLModel.call_getChain "base" "hand";
            KDLModel.call_construct "ChainIkSolverPos_LMA";
            KDLModel.call_CartToJnt "ChainIkSolverPos_LMA" 0%Z]).
  - reflexivity.
  - by vm_compute.
  - apply NoDup_cons. split; [by intros ?%list_elem_of_singleton|].
    apply NoDup_singleton.
  - by vm_compute.
Defined.

Lemma chainIK_keeps_entries_off_chain_witness :
  length [11; 20; 31]%Z = length [10; 20; 30]%Z ∧
  ∀ k, ¬ KDLModel.on_chain arm_kdl_model
           (KDLModel.chain_of arm_kdl arm_kdl_model "hand") k →
       [11; 20; 31]%Z !! k = [10; 20; 30]%Z !! k.
Proof.
  apply (chainIK_keeps_entries_off_chain arm_identity arm_identity 0%Z arm_kdl
           arm_kdl_model 2 "hand" [10; 20; 30]%Z arm_pose [] [] []
           [11; 20; 31]%Z 0%Z
           [KDLModel.call_getChain "base" "hand";
            KDLModel.call_construct "ChainIkSolverPos_LMA";
            KDLModel.call_CartToJnt "ChainIkSolverPos_LMA" 0%Z]).
  - reflexivity.
  - left. by vm_compute.
Defined.

(** C6, as stated, fails for [TreeIKNRJL]: on the slider the tree solver
    returns the distance 5e-07 and the operation reports the status 0, which
    is not that value. *)
Lemma tree_status_not_passed_through :
  KDLModel.Tree_solve slider_identity (0 # 1)%Q slider_kdl slider_kdl_model ["hand"]
    [(1 # 2)%Q] [slider_pose] [(0 # 1)%Q] [(1 # 1)%Q]
  = Some ([(1 # 2)%Q], (1 # 2000000)%Q) ∧
  KDLModel.TreeIKNRJL slider_identity slider_identity (0 # 1)%Q Q_to_int slider_kdl
    slider_kdl_model ["hand"] [(1 # 2)%Q] [slider_pose] [(0 # 1)%Q] [(1 # 1)%Q] []
  = Ok ([(1 # 2)%Q], 0%Z)
       [KDLModel.call_construct "TreeFkSolverPos_recursive";
        KDLModel.call_construct "TreeIkSolverVel_wdls";
        KDLModel.call_construct "TreeIkSolverPos_NR_JL";
        KDLModel.call_CartToJnt "TreeIkSolverPos_NR_JL" 0%Z] ∧
  ¬ (inject_Z 0 == 1 # 2000000)%Q.
Proof.
  split_and!; [by vm_compute..|]. by intros H%Qeq_bool_iff.
Qed.

Lemma ik_status_passed_through_witness :
  ∃ q1 t', KDLModel.chainIKNR arm_identity arm_identity 0%Z arm_kdl arm_kdl_model 2
             [10; 20; 30]%Z arm_pose [] = Ok (q1, (-5)%Z) t'.
Proof.
  destruct (ik_status_passed_through arm_identity arm_identity 0%Z arm_identity arm_kdl
              arm_kdl_model 2 [] [10; 20; 30]%Z arm_pose [] [] [])
    as (_ & HNR & _).
  destruct (HNR []) as (_ & _ & Hrun).
  apply (Hrun [0; 0]%Z (-5)%Z).
  - reflexivity.
  - exact arm_kdl_keeps_size.
Defined.

Lemma chainIK_link_index_checked_witness :
  KDLModel.chainIKLMA arm_identity arm_identity 0%Z arm_kdl arm_kdl_model 3
    [10; 20; 30]%Z arm_pose []
  = Throw (runtime_error "link index out of bound") [].
Proof.
  apply (chainIK_link_index_checked arm_identity arm_identity 0%Z arm_kdl
           arm_kdl_model 3 [10; 20; 30]%Z arm_pose [] [] []).
  simpl. lia.
Defined.

(** ** The planning world's distance queries *)

Section distance_properties.
Import PlanningWorld.
Context {S : Type} (le : relation S) `{!RelDecision le}.
Context `{!Transitive le, !Total le}.

#[local] Abbreviation WDR := (@WorldDistanceResultTpl S).

(** Closes a goal from [x <= y], [y <= z] and the negation of [x <= z]. *)
Ltac contradict_le :=
  match goal with
  | Hn : ¬ _ |- _ => apply Hn; etrans; eassumption
  end.

Lemma closer_cases (a b : WDR) :
  (closer le a b = a ∧ le (min_distance a) (min_distance b)) ∨
  (closer le a b = b ∧ le (min_distance b) (min_distance a)
                     ∧ ¬ le (min_distance a) (min_distance b)).
Proof.
  unfold closer. case_decide as H; [by left|right].
  split_and!; try done. by destruct (total le (min_distance a) (min_distance b)).
Qed.

Lemma closer_assoc (a b c : WDR) :
  closer le (closer le a b) c = closer le a (closer le b c).
Proof.
  unfold closer.
  repeat case_decide; try done; exfalso.
  - contradict_le.
  - destruct (total le (min_distance c) (min_distance b)) as [Hcb|?]; [|done].
    contradict_le.
Qed.

Lemma foldl_closer_assoc (a b : WDR) (rs : list WDR) :
  foldl (closer le) (closer le a b) rs = closer le a (foldl (closer le) b rs).
Proof.
  revert b. induction rs as [|c rs IH]; intros b; simpl; [done|].
  by rewrite closer_assoc, IH.
Qed.

Lemma minimum_app (rs1 rs2 : list WDR) :
  minimum le (rs1 ++ rs2) = closer_of le (minimum le rs1) (minimum le rs2).
Proof.
  destruct rs1 as [|a rs1]; simpl; [by destruct (minimum le rs2)|].
  rewrite foldl_app. destruct rs2 as [|b rs2]; simpl; [done|].
  by rewrite foldl_closer_assoc.
Qed.

Lemma foldl_closer_minimum (a : WDR) (rs : list WDR) :
  foldl (closer le) a rs ∈ a :: rs ∧
  ∀ r, r ∈ a :: rs →
       le (min_distance (foldl (closer le) a rs)) (min_distance r).
Proof.
  revert a. induction rs as [|b rs IH]; intros a; simpl.
  - split; [by left|]. intros r ->%list_elem_of_singleton.
    by destruct (total le (min_distance a) (min_distance a)).
  - destruct (IH (closer le a b)) as [Hin Hle]. split.
    + apply elem_of_cons in Hin as [->|Hin]; [|by do 2 right].
      destruct (closer_cases a b) as [[-> _]|[-> _]]; [by left|by right; left].
    + intros r Hr.
      assert (le (min_distance (closer le a b)) (min_distance r) ∨ r ∈ rs) as [H|H].
      { apply elem_of_cons in Hr as [->|Hr].
        - left. destruct (closer_cases a b) as [[-> _]|(-> & ? & _)]; [|done].
          by destruct (total le (min_distance a) (min_distance a)).
        - apply elem_of_cons in Hr as [->|Hr]; [left|by right].
          destruct (closer_cases a b) as [[-> ?]|(-> & _ & _)]; [done|].
          by destruct (total le (min_distance b) (min_distance b)). }
      * etrans; [|exact H]. apply Hle. by left.
      * apply Hle. by right.
Qed.

Lemma minimum_is_minimum (rs : list WDR) : is_minimum_of le rs (minimum le rs).
Proof. destruct rs as [|a rs]; simpl; [done|]. apply foldl_closer_minimum. Qed.

(** C7. For every world state, [distanceFull] is the closer of the results
    of [distanceSelf] and [distanceOthers], and each of the three queries
    returns a minimum of its scope: the result of one of the scope's pairs,
    with no pair of the scope at a smaller distance (the scope of
    [distanceFull] being the union of the other two). *)
Theorem distanceFull_min_of_self_and_others (w : @PlanningWorldTpl S) :
  distanceFull le w = closer_of le (distanceSelf le w) (distanceOthers le w) ∧
  is_minimum_of le (self_results w) (distanceSelf le w) ∧
  is_minimum_of le (others_results w) (distanceOthers le w) ∧
  is_minimum_of le (self_results w ++ others_results w) (distanceFull le w).
Proof.
  split_and!.
  - apply minimum_app.
  - apply minimum_is_minimum.
  - apply minimum_is_minimum.
  - apply minimum_is_minimum.
Qed.

End distance_properties.

(** *** The world with three measured pairs *)

Example arm_world_distanceFull :
  PlanningWorld.distanceFull Z.le arm_world =
  Some (PlanningWorld.mkWorldDistanceResult (-2)%Z "self" "arm" "tool" "hand" "").
Proof. by vm_compute. Qed.

Lemma distanceFull_min_of_self_and_others_witness :
  PlanningWorld.distanceFull Z.le arm_world =
    PlanningWorld.closer_of Z.le (PlanningWorld.distanceSelf Z.le arm_world)
      (PlanningWorld.distanceOthers Z.le arm_world) ∧
  PlanningWorld.is_minimum_of Z.le (PlanningWorld.self_results arm_world)
    (PlanningWorld.distanceSelf Z.le arm_world) ∧
  PlanningWorld.is_minimum_of Z.le (PlanningWorld.others_results arm_world)
    (PlanningWorld.distanceOthers Z.le arm_world) ∧
  PlanningWorld.is_minimum_of Z.le
    (PlanningWorld.self_results arm_world ++ PlanningWorld.others_results arm_world)
    (PlanningWorld.distanceFull Z.le arm_world).
Proof. apply (distanceFull_min_of_self_and_others Z.le arm_world). Defined.

(** * Further properties *)

(** ** ArticulatedModelTpl: move group and configuration *)

Section articulated_model_more.
Import ArticulatedModel.
Context {S PinData Matrix3 : Type}.
Context (pin : @PinocchioModelTpl S PinData Matrix3).

#[local] Abbreviation AM' := (@ArticulatedModelTpl S PinData Matrix3).

Lemma ascending_same_elements (l1 l2 : list nat) :
  StronglySorted lt l1 → StronglySorted lt l2 →
  (∀ x, x ∈ l1 ↔ x ∈ l2) → l1 = l2.
Proof.
  intros H1 H2 Hel. apply (StronglySorted_unique_strong lt); try done.
  - intros x1 x2 _ _ ? ?. lia.
  - by apply NoDup_Permutation; try apply StronglySorted_lt_NoDup.
Qed.

Lemma sum_list_with_submseteq (f : nat → nat) (l k : list nat) :
  l ⊆+ k → sum_list_with f l ≤ sum_list_with f k.
Proof. induction 1; simpl; lia. Qed.

(** X4. The move group depends on the end effectors only through which
    links are named: two lists naming the same links, in any order and
    with any repetition, give the same move-group joints and the same
    reduced dimension. *)
Theorem setMoveGroup_order_irrelevant (ees1 ees2 : list string) (a1 a2 : AM') :
  (∀ ee, ee ∈ ees1 ↔ ee ∈ ees2) →
  move_group_user_joints_ (setMoveGroup pin ees1 a1)
    = move_group_user_joints_ (setMoveGroup pin ees2 a2) ∧
  qpos_dim_ (setMoveGroup pin ees1 a1) = qpos_dim_ (setMoveGroup pin ees2 a2).
Proof.
  intros Hees.
  assert (move_group_user_joints_ (setMoveGroup pin ees1 a1)
          = move_group_user_joints_ (setMoveGroup pin ees2 a2)) as Hj.
  { apply ascending_same_elements; try apply setMoveGroup_invariant.
    intros j. rewrite !setMoveGroup_move_group.
    split; intros (ee & Hee & Hj); exists ee; split; try done; by apply Hees. }
  split; [done|].
  destruct (setMoveGroup_invariant pin ees1 a1) as [_ ->].
  destruct (setMoveGroup_invariant pin ees2 a2) as [_ ->].
  by rewrite Hj.
Qed.

(** X5. Naming more end effectors can only enlarge the move group: its
    joints contain the former ones and the reduced dimension does not
    shrink. *)
Theorem setMoveGroup_monotone (ees1 ees2 : list string) (a1 a2 : AM') :
  (∀ ee, ee ∈ ees1 → ee ∈ ees2) →
  (∀ j, j ∈ move_group_user_joints_ (setMoveGroup pin ees1 a1) →
        j ∈ move_group_user_joints_ (setMoveGroup pin ees2 a2)) ∧
  qpos_dim_ (setMoveGroup pin ees1 a1) ≤ qpos_dim_ (setMoveGroup pin ees2 a2).
Proof.
  intros Hees.
  assert (∀ j, j ∈ move_group_user_joints_ (setMoveGroup pin ees1 a1) →
               j ∈ move_group_user_joints_ (setMoveGroup pin ees2 a2)) as Hsub.
  { intros j. rewrite !setMoveGroup_move_group.
    intros (ee & Hee & Hj). exists ee. split; [by apply Hees|done]. }
  split; [done|].
  destruct (setMoveGroup_invariant pin ees1 a1) as [Hs1 ->].
  destruct (setMoveGroup_invariant pin ees2 a2) as [_ ->].
  apply sum_list_with_submseteq, NoDup_submseteq; [|done].
  by apply StronglySorted_lt_NoDup.
Qed.

(** X6. With no end effector the move group is empty and the reduced
    dimension is 0: [setQpos] on the reduced path then accepts the empty
    vector only, and the accepted call changes no entry of the stored
    configuration. *)
Theorem setMoveGroup_empty (a : AM') :
  let a0 := setMoveGroup pin [] a in
  move_group_user_joints_ a0 = [] ∧ qpos_dim_ a0 = 0 ∧
  (∃ a', setQpos pin [] false a0 = Ok tt a' ∧
         current_qpos_ a' = current_qpos_ a) ∧
  (∀ q, q ≠ [] → ∃ e, setQpos pin q false a0 = Throw e a0).
Proof.
  intros a0. split_and!; try done.
  - eexists. split; [by rewrite setQpos_reduced_run|done].
  - intros q Hq. eexists. apply setQpos_reduced_mismatch.
    destruct q; [done|]. change (qpos_dim_ a0) with 0. simpl. lia.
Qed.

(** What a returning reduced copy did: the block of every joint with a
    dimension was inside the stored vector, the input was long enough, and
    only the blocks were written. *)
Lemma copy_joint_Ok_frame (qpos : list S) start_idx n j len len' (a a' : AM') :
  copy_joint qpos start_idx j n len a = Ok len' a' →
  len' = len + n ∧
  (0 < n → start_idx + j + n ≤ length (current_qpos_ a) ∧ len + n ≤ length qpos) ∧
  ∃ cur', a' = set_current_qpos cur' a ∧
    length cur' = length (current_qpos_ a) ∧
    ∀ p, ¬ (start_idx + j ≤ p < start_idx + j + n) →
         cur' !! p = current_qpos_ a !! p.
Proof.
  revert j len a. induction n as [|n IH]; intros j len a; simpl.
  { intros [= <- <-]. split_and!; [lia|lia|].
    exists (current_qpos_ a). split_and!; try done. by destruct a. }
  intros H.
  apply bind_Ok_inv in H as (x & a1 & Hx & H).
  apply at_index_Ok_inv in Hx as [Hx ->]. apply lookup_lt_Some in Hx.
  apply bind_Ok_inv in H as ([] & a2 & Hst & H).
  unfold store_current_qpos, mbind, M_bind, get, put, set_index in Hst; simpl in Hst.
  case_decide as Hlt; [|done]. injection Hst as <-.
  apply IH in H as (-> & Hrange & cur' & -> & Hlen & Hframe).
  simpl in Hrange, Hlen, Hframe. rewrite length_insert in Hrange, Hlen.
  split_and!; [lia| |].
  - intros _. destruct n; [lia|]. destruct Hrange; lia.
  - exists cur'. split_and!; try done.
    intros p Hp. rewrite Hframe by lia. apply list_lookup_insert_ne. lia.
Qed.

Lemma copy_joints_Ok_frame (qpos : list S) joints len len' (a a' : AM') :
  copy_joints pin qpos joints len a = Ok len' a' →
  len' = len + sum_list_with (getJointDim pin) joints ∧
  (0 < sum_list_with (getJointDim pin) joints → len' ≤ length qpos) ∧
  (∀ i, i ∈ joints → 0 < getJointDim pin i →
        getJointId pin i + getJointDim pin i ≤ length (current_qpos_ a)) ∧
  ∃ cur', a' = set_current_qpos cur' a ∧
    length cur' = length (current_qpos_ a) ∧
    ∀ p, (∀ i, i ∈ joints → ¬ in_block pin i p) →
         cur' !! p = current_qpos_ a !! p.
Proof.
  revert len a. induction joints as [|i joints IH]; intros len a; simpl.
  { intros [= <- <-]. split_and!; [lia|lia|by intros ? ?%elem_of_nil|].
    exists (current_qpos_ a). split_and!; try done. by destruct a. }
  intros H. apply bind_Ok_inv in H as (len1 & a1 & H1 & H).
  apply copy_joint_Ok_frame in H1 as (-> & Hr1 & cur1 & -> & Hlen1 & Hf1).
  apply IH in H as (-> & Hq & Hr & cur' & -> & Hlen & Hf).
  simpl in Hr, Hlen, Hf. rewrite Nat.add_0_r in Hr1, Hf1.
  split_and!; [lia| | |].
  - intros Hpos.
    destruct (decide (0 < sum_list_with (getJointDim pin) joints)); [lia|].
    destruct (decide (0 < getJointDim pin i)); [|lia].
    destruct Hr1; lia.
  - intros i' [->|Hi']%elem_of_cons Hdim; [by apply Hr1|].
    rewrite <-Hlen1. by apply Hr.
  - exists cur'. split_and!; [by destruct a|lia|].
    intros p Hp. rewrite Hf.
    + apply Hf1. intros Hin. apply (Hp i); [by left|done].
    + intros i' Hi'. apply Hp. by right.
Qed.

(** X7. Whenever [setQpos] on the reduced path returns, the input had the
    reduced dimension, the stored configuration kept its length, every
    slot outside the blocks of the move-group joints kept its value, and
    every move-group joint with a dimension had its block inside the
    stored configuration; none of this depends on how the joints are laid
    out. *)
Theorem setQpos_reduced_returns (q : list S) (a a' : AM') :
  setQpos pin q false a = Ok tt a' →
  length q = qpos_dim_ a ∧
  length (current_qpos_ a') = length (current_qpos_ a) ∧
  (∀ p, (∀ i, i ∈ move_group_user_joints_ a → ¬ in_block pin i p) →
        current_qpos_ a' !! p = current_qpos_ a !! p) ∧
  (∀ i, i ∈ move_group_user_joints_ a → 0 < getJointDim pin i →
        getJointId pin i + getJointDim pin i ≤ length (current_qpos_ a)).
Proof.
  intros H. destruct (decide (length q = qpos_dim_ a)) as [He|Hne];
    [|by rewrite setQpos_reduced_mismatch in H].
  rewrite setQpos_reduced_run in H by done.
  destruct (copy_joints _ _ _ _ _) as [len' a1|e a1|] eqn:Hc; [|done..].
  apply copy_joints_Ok_frame in Hc as (_ & _ & Hr & cur' & -> & Hlen & Hf).
  rewrite update_kinematics_Ok in H. injection H as <-. by simpl.
Qed.

(** X8. Whenever [setQpos] returns, on either path, the derived state
    belongs to the stored configuration: the kinematic data is that of the
    stored configuration, the collision objects hold one pose per user
    link, computed from that data, and the call added exactly one forward
    kinematics and one update of the collision objects to the history. *)
Theorem setQpos_refreshes_poses (q : list S) (full : bool) (a a' : AM') :
  setQpos pin q full a = Ok tt a' →
  pinocchio_data_ a' = computeForwardKinematics pin (current_qpos_ a') ∧
  fcl_link_pose_ a' = link_poses pin a' ∧
  length (fcl_link_pose_ a') = length (user_link_names_ a') ∧
  calls_ a' = calls_ a ++ [call_computeForwardKinematics (current_qpos_ a');
                           call_updateCollisionObjects (fcl_link_pose_ a')] ∧
  user_link_names_ a' = user_link_names_ a ∧
  user_joint_names_ a' = user_joint_names_ a.
Proof.
  assert (∀ a1 : AM', update_kinematics pin a1 = Ok tt a' →
    calls_ a1 = calls_ a → user_link_names_ a1 = user_link_names_ a →
    user_joint_names_ a1 = user_joint_names_ a →
    pinocchio_data_ a' = computeForwardKinematics pin (current_qpos_ a') ∧
    fcl_link_pose_ a' = link_poses pin a' ∧
    length (fcl_link_pose_ a') = length (user_link_names_ a') ∧
    calls_ a' = calls_ a ++ [call_computeForwardKinematics (current_qpos_ a');
                             call_updateCollisionObjects (fcl_link_pose_ a')] ∧
    user_link_names_ a' = user_link_names_ a ∧
    user_joint_names_ a' = user_joint_names_ a) as Hupd.
  { intros a1 H Hc Hl Hj. rewrite update_kinematics_Ok in H. injection H as <-.
    simpl. split_and!; try done.
    - unfold link_poses. simpl. by rewrite length_fmap, length_seq.
    - by rewrite Hc, <-app_assoc. }
  destruct full.
  - rewrite setQpos_full_run. intros H. by apply (Hupd _ H).
  - intros H. destruct (decide (length q = qpos_dim_ a)) as [He|Hne];
      [|by rewrite setQpos_reduced_mismatch in H].
    rewrite setQpos_reduced_run in H by done.
    destruct (copy_joints _ _ _ _ _) as [len' a1|e a1|] eqn:Hc; [|done..].
    apply copy_joints_Ok_inv in Hc as [cur' ->]. by apply (Hupd _ H).
Qed.

End articulated_model_more.

(** ** ArticulatedModelTpl: from construction on *)

Section articulated_model_use.
Import ArticulatedModel.
Context {S PinData Matrix3 : Type}.
Context (pin : @PinocchioModelTpl S PinData Matrix3).
Context (pinocchio_link_names pinocchio_joint_names : list string).
Context (nv : nat) (zero : S).
Context (initial_data : PinData) (initial_link_pose : list (@Transform3 S Matrix3)).

#[local] Abbreviation used :=
  (properly_used pin pinocchio_link_names pinocchio_joint_names nv zero
     initial_data initial_link_pose).

#[local] Instance in_block_dec i p : Decision (in_block pin i p).
Proof. unfold in_block. apply _. Defined.

(** The copy loops return as soon as every block is inside the stored
    vector and the input is long enough. *)
Lemma copy_joints_returns (qpos : list S) joints len
    (a : @ArticulatedModelTpl S PinData Matrix3) :
  (∀ i, i ∈ joints →
        getJointId pin i + getJointDim pin i ≤ length (current_qpos_ a)) →
  len + sum_list_with (getJointDim pin) joints ≤ length qpos →
  ∃ len' a', copy_joints pin qpos joints len a = Ok len' a'.
Proof.
  revert len a. induction joints as [|i joints IH]; intros len a Hr Hq; simpl.
  { by eexists _, _. }
  simpl in Hq.
  destruct (copy_joint_spec qpos (getJointId pin i) (getJointDim pin i) 0 len a)
    as (cur1 & Hrun1 & Hlen1 & _).
  { rewrite Nat.add_0_r. apply Hr. by left. }
  { lia. }
  rewrite (bind_Ok _ _ _ _ _ Hrun1). apply IH; [|lia].
  intros i' Hi'. simpl. rewrite Hlen1. apply Hr. by right.
Qed.

Lemma properly_used_invariant a :
  used a →
  length (current_qpos_ a) = nv ∧
  move_group_invariant pin a ∧
  ∀ i, i ∈ move_group_user_joints_ a → ∃ ee, i ∈ getChainJointIndex pin ee.
Proof.
  induction 1 as [jn ln|ees a _ IH|q a a' _ IH Hrun|q a a' _ IH Hq Hrun].
  - split_and!.
    + simpl. apply length_replicate.
    + apply setMoveGroup_invariant.
    + intros i (ee & _ & Hi)%setMoveGroup_move_group. by exists ee.
  - destruct IH as (Hlen & _ & _). split_and!.
    + done.
    + apply setMoveGroup_invariant.
    + intros i (ee & _ & Hi)%setMoveGroup_move_group. by exists ee.
  - destruct IH as (Hlen & Hinv & Hch).
    pose proof (setQpos_Ok_move_group pin _ _ _ _ Hrun) as (Hmg & Hdim & _).
    rewrite setQpos_reduced_run in Hrun.
    2: { destruct (decide (length q = qpos_dim_ a)); [done|].
         by rewrite setQpos_reduced_mismatch in Hrun. }
    destruct (copy_joints _ _ _ _ _) as [len' a1|e a1|] eqn:Hc; [|done..].
    apply copy_joints_Ok_frame in Hc as (_ & _ & _ & cur' & -> & Hl & _).
    rewrite update_kinematics_Ok in Hrun. injection Hrun as <-. simpl in *.
    split_and!; [lia|done|done].
  - destruct IH as (Hlen & Hinv & Hch).
    pose proof (setQpos_Ok_move_group pin _ _ _ _ Hrun) as (Hmg & Hdim & _).
    rewrite setQpos_full_run, update_kinematics_Ok in Hrun.
    injection Hrun as <-. simpl in *. done.
Qed.

(** X9. From construction on, through any calls of [setMoveGroup],
    [setQpos] on the reduced path and [setQpos] on the full path with
    vectors of [nv] entries, the stored configuration has [nv] entries,
    the move-group joints are strictly ascending joints of link chains,
    and [qpos_dim_] is the sum of their dimensions. *)
Theorem properly_used_configuration_size a :
  properly_used pin pinocchio_link_names pinocchio_joint_names nv zero
    initial_data initial_link_pose a →
  length (current_qpos_ a) = nv ∧
  StronglySorted lt (move_group_user_joints_ a) ∧
  qpos_dim_ a = sum_list_with (getJointDim pin) (move_group_user_joints_ a) ∧
  ∀ i, i ∈ move_group_user_joints_ a → ∃ ee, i ∈ getChainJointIndex pin ee.
Proof.
  intros (Hlen & [Hs Hd] & Hch)%properly_used_invariant. done.
Qed.

(** X10. When every chain joint has its block inside a configuration of
    [nv] entries, an object used as in X9 never accesses a vector out of
    bounds in [setQpos]: on the reduced path the call returns if the input
    has [qpos_dim_] entries and throws the size error otherwise, and on the
    full path it returns. *)
Theorem properly_used_setQpos_in_bounds a (q : list S) :
  chains_inside_nv pin nv →
  used a →
  (length q = qpos_dim_ a → ∃ a', setQpos pin q false a = Ok tt a') ∧
  (length q ≠ qpos_dim_ a →
     setQpos pin q false a = Throw (runtime_error (size_message a q)) a) ∧
  (∃ a', setQpos pin q true a = Ok tt a').
Proof.
  intros Hin (Hlen & [Hs Hd] & Hch)%properly_used_invariant. split_and!.
  - intros Hq. rewrite setQpos_reduced_run by done.
    destruct (copy_joints_returns q (move_group_user_joints_ a) 0 a)
      as (len' & a1 & ->).
    + intros i [ee Hee]%Hch. rewrite Hlen. by eapply Hin.
    + simpl. lia.
    + rewrite update_kinematics_Ok. by eexists.
  - apply setQpos_reduced_mismatch.
  - rewrite setQpos_full_run, update_kinematics_Ok. by eexists.
Qed.

(** X11. Of two accepted reduced configurations written one after the
    other, only the second one shows: the stored configuration, the
    kinematic data and the poses of the collision objects are those that
    writing the second alone gives. *)
Theorem setQpos_reduced_last_wins (q1 q2 : list S)
    (a : @ArticulatedModelTpl S PinData Matrix3) :
  joint_slots_disjoint pin →
  move_group_invariant pin a →
  move_group_in_range pin a →
  length q1 = qpos_dim_ a → length q2 = qpos_dim_ a →
  ∃ a1 a12 a2,
    setQpos pin q1 false a = Ok tt a1 ∧
    setQpos pin q2 false a1 = Ok tt a12 ∧
    setQpos pin q2 false a = Ok tt a2 ∧
    current_qpos_ a12 = current_qpos_ a2 ∧
    pinocchio_data_ a12 = pinocchio_data_ a2 ∧
    fcl_link_pose_ a12 = fcl_link_pose_ a2.
Proof.
  intros Hlay Hinv Hrange Hq1 Hq2.
  destruct (setQpos_reduced_Ok pin q1 a Hlay Hinv Hrange Hq1)
    as (cur1 & Hrun1 & Hlen1 & Hf1 & _).
  destruct (setQpos_reduced_Ok pin q2 a Hlay Hinv Hrange Hq2)
    as (cur2 & Hrun2 & Hlen2 & Hf2 & Hv2).
  rewrite update_kinematics_Ok in Hrun1, Hrun2.
  set (a1 := set_fcl _ _) in Hrun1.
  destruct (setQpos_reduced_Ok pin q2 a1) as (cur12 & Hrun12 & Hlen12 & Hf12 & Hv12);
    try done.
  { intros i Hi. simpl. rewrite Hlen1. by apply Hrange. }
  rewrite update_kinematics_Ok in Hrun12.
  assert (cur12 = cur2) as ->.
  { apply list_eq. intros p. simpl in Hf12, Hv12.
    destruct (decide (Exists (λ i, in_block pin i p) (move_group_user_joints_ a)))
      as [Hex|Hnex].
    - apply Exists_exists in Hex as (i & Hi & Hlo & Hhi).
      apply list_elem_of_lookup_1 in Hi as [k Hk].
      replace p with (getJointId pin i + (p - getJointId pin i)) by lia.
      rewrite (Hv12 k i (p - getJointId pin i) Hk), (Hv2 k i (p - getJointId pin i) Hk)
        by lia. done.
    - rewrite Hf12, Hf1, Hf2; try done;
        intros i Hi Hb; apply Hnex, Exists_exists; by exists i. }
  eexists _, _, _. split_and!; try done.
Qed.

End articulated_model_use.

(** ** KDLModelTpl: the constructor *)

Section kdl_constructor_properties.
Import KDLModel.
Context {D Tree : Type}.
Context (kdl : @KDL D Tree).
Context (getSegments : Tree → list (string * TreeElement)).

Lemma build_idx_mapping_absent (names : list string) i (mapping : gmap string nat) name :
  name ∉ names → build_idx_mapping names i mapping !! name = mapping !! name.
Proof.
  revert i mapping. induction names as [|n names IH]; intros i mapping Hn; simpl; [done|].
  apply not_elem_of_cons in Hn as [Hne Hn].
  rewrite IH by done. by apply lookup_insert_ne.
Qed.

Lemma build_idx_mapping_last (names : list string) i (mapping : gmap string nat) name k :
  names !! k = Some name →
  (∀ k', k < k' → names !! k' ≠ Some name) →
  build_idx_mapping names i mapping !! name = Some (i + k).
Proof.
  revert i mapping k. induction names as [|n names IH]; intros i mapping k Hk Hlast;
    simpl; [done|].
  destruct k as [|k]; simpl in Hk.
  - injection Hk as ->. rewrite build_idx_mapping_absent.
    + rewrite lookup_insert_eq. f_equal. lia.
    + intros [k' Hk']%list_elem_of_lookup_1. by apply (Hlast (Datatypes.S k')); [lia|].
  - rewrite (IH (Datatypes.S i) _ k Hk); [f_equal; lia|].
    intros k' Hlt. apply (Hlast (Datatypes.S k')). lia.
Qed.

Lemma build_idx_mapping_value (names : list string) i (mapping : gmap string nat) name x :
  build_idx_mapping names i mapping !! name = Some x →
  mapping !! name = Some x ∨ ∃ k, names !! k = Some name ∧ x = i + k.
Proof.
  revert i mapping. induction names as [|n names IH]; intros i mapping; simpl; [by left|].
  intros [H|(k & Hk & ->)]%IH.
  - destruct (decide (n = name)) as [->|Hne].
    + rewrite lookup_insert_eq in H. injection H as <-. right. exists 0. split; [done|lia].
    + rewrite lookup_insert_ne in H by done. by left.
  - right. exists (Datatypes.S k). split; [done|lia].
Qed.

Lemma last_occurrence (names : list string) name :
  name ∈ names →
  ∃ k, names !! k = Some name ∧ ∀ k', k < k' → names !! k' ≠ Some name.
Proof.
  induction names as [|n names IH]; intros Hin; [by apply elem_of_nil in Hin|].
  destruct (decide (name ∈ names)) as [Hyes|Hnot].
  - destruct (IH Hyes) as (kl & Hkl & Hl). exists (Datatypes.S kl).
    split; [done|]. intros [|k''] Hlt; [lia|]. apply Hl. lia.
  - apply elem_of_cons in Hin as [->|Hin]; [|done].
    exists 0. split; [done|]. intros [|k''] Hlt; [lia|]. simpl.
    by intros Hin%list_elem_of_lookup_2.
Qed.

Lemma build_idx_mapping_named (names : list string) name :
  name ∈ names →
  ∃ k, build_idx_mapping names 0 ∅ !! name = Some k ∧ k < length names.
Proof.
  intros (k & Hk & Hlast)%last_occurrence. exists k. split.
  - by apply (build_idx_mapping_last names 0 ∅ name k).
  - by apply lookup_lt_Some in Hk.
Qed.

(** X12. The map from joint names to user indices that the constructor
    builds holds exactly the given names; the index stored for a name is a
    position of that name in the list, the last one when the name is
    repeated; with names that do not repeat, looking a name up gives its
    position and nothing else. *)
Theorem build_idx_mapping_positions (names : list string) :
  let mapping := build_idx_mapping names 0 ∅ in
  (∀ name, mapping !! name = None ↔ name ∉ names) ∧
  (∀ name k, mapping !! name = Some k → names !! k = Some name) ∧
  (∀ name k, names !! k = Some name →
     (∀ k', k < k' → names !! k' ≠ Some name) → mapping !! name = Some k) ∧
  (NoDup names → ∀ name k, mapping !! name = Some k ↔ names !! k = Some name).
Proof.
  intros mapping.
  assert (∀ name k, mapping !! name = Some k → names !! k = Some name) as Hval.
  { intros name k [H|(k' & Hk' & ->)]%build_idx_mapping_value; [|done].
    by rewrite lookup_empty in H. }
  assert (∀ name k, names !! k = Some name →
     (∀ k', k < k' → names !! k' ≠ Some name) → mapping !! name = Some k) as Hlast.
  { intros name k Hk Hl. by apply (build_idx_mapping_last names 0 ∅ name k). }
  split_and!; try done.
  - intros name. split.
    + intros Hnone (k & Hk & _)%build_idx_mapping_named.
      subst mapping. by rewrite Hk in Hnone.
    + intros Hnot. subst mapping. by rewrite build_idx_mapping_absent.
  - intros Hnd name k. split; [apply Hval|].
    intros Hk. apply Hlast; [done|]. intros k' Hlt Hk'.
    assert (k = k') by (by eapply NoDup_lookup). lia.
Qed.

Lemma fill_joint_mapping_not_Throw (mapping : gmap string nat) segs v (t t' : list call) e :
  fill_joint_mapping mapping segs v t ≠ Throw e t'.
Proof.
  revert v. induction segs as [|it segs IH]; intros v; simpl; [done|].
  destruct (mapping !! _) as [i|]; [|apply IH].
  intros [H|(v' & t1 & Hset & H)]%bind_Throw_inv.
  - by apply set_index_not_Throw in H.
  - apply set_index_Ok_inv in Hset as (_ & _ & ->). by apply IH in H.
Qed.

Lemma fill_joint_mapping_Ok_inv (mapping : gmap string nat) segs v v' (t t' : list call) :
  fill_joint_mapping mapping segs v t = Ok v' t' →
  t' = t ∧ length v' = length v ∧
  ∀ k x, v' !! k = Some x →
    v !! k = Some x ∨
    ∃ it, it ∈ segs ∧ q_nr it.2 = k ∧
          mapping !! getName (getJoint (segment it.2)) = Some x.
Proof.
  revert v. induction segs as [|it segs IH]; intros v; simpl.
  { intros [= <- <-]. split_and!; try done. by left. }
  destruct (mapping !! _) as [i|] eqn:Hmap.
  - intros (v1 & t1 & Hset & H)%bind_Ok_inv.
    apply set_index_Ok_inv in Hset as (Hlt & -> & ->).
    apply IH in H as (-> & Hlen & Hval). rewrite length_insert in Hlen.
    split_and!; try done. intros k x [Hk|(it' & Hin & Hq & Hm)]%Hval.
    + destruct (decide (q_nr it.2 = k)) as [<-|Hne].
      * rewrite list_lookup_insert_eq in Hk by done. injection Hk as <-.
        right. exists it. split_and!; try done. by left.
      * rewrite list_lookup_insert_ne in Hk by done. by left.
    + right. exists it'. split_and!; try done. by right.
  - intros (-> & Hlen & Hval)%IH. split_and!; try done.
    intros k x [Hk|(it' & Hin & Hq & Hm)]%Hval; [by left|].
    right. exists it'. split_and!; try done. by right.
Qed.

Lemma fill_joint_mapping_returns (mapping : gmap string nat) segs v (t : list call) :
  (∀ it, it ∈ segs → q_nr it.2 < length v) →
  ∃ v', fill_joint_mapping mapping segs v t = Ok v' t.
Proof.
  revert v. induction segs as [|it segs IH]; intros v Hr; simpl; [by eexists|].
  destruct (mapping !! _) as [i|].
  - rewrite (bind_Ok _ _ _ _ _ (set_index_Ok v (q_nr it.2) i t (Hr it ltac:(by left)))).
    apply IH. intros it' Hin. rewrite length_insert. apply Hr. by right.
  - apply IH. intros it' Hin. apply Hr. by right.
Qed.

(** The entry for a joint number is the user index of the last segment
    that carries this number and a named joint. *)
Lemma fill_joint_mapping_value (mapping : gmap string nat) segs v v' (t t' : list call)
    j it i :
  fill_joint_mapping mapping segs v t = Ok v' t' →
  segs !! j = Some it →
  mapping !! getName (getJoint (segment it.2)) = Some i →
  (∀ j' it', j < j' → segs !! j' = Some it' →
     is_Some (mapping !! getName (getJoint (segment it'.2))) →
     q_nr it'.2 ≠ q_nr it.2) →
  v' !! q_nr it.2 = Some i.
Proof.
  revert v j. induction segs as [|it0 segs IH]; intros v j H Hj Hm Hlater; [done|].
  simpl in H. destruct j as [|j]; simpl in Hj.
  - injection Hj as ->. rewrite Hm in H.
    apply bind_Ok_inv in H as (v1 & t1 & Hset & H).
    apply set_index_Ok_inv in Hset as (Hlt & -> & ->).
    apply fill_joint_mapping_Ok_inv in H as (_ & Hlen & Hval).
    rewrite length_insert in Hlen.
    destruct (lookup_lt_is_Some_2 v' (q_nr it.2)) as [x Hx]; [lia|].
    rewrite Hx. destruct (Hval _ _ Hx) as [Hk|(it' & Hin & Hq & Hm')].
    + rewrite list_lookup_insert_eq in Hk by done. done.
    + apply list_elem_of_lookup_1 in Hin as [j' Hj'].
      exfalso. by apply (Hlater (Datatypes.S j') it'); [lia|done|rewrite Hm'|].
  - assert (∀ j' it', j < j' → segs !! j' = Some it' →
       is_Some (mapping !! getName (getJoint (segment it'.2))) →
       q_nr it'.2 ≠ q_nr it.2) as Hlater'.
    { intros j' it' Hlt Hj'. apply (Hlater (Datatypes.S j') it'); [lia|done]. }
    destruct (mapping !! getName (getJoint (segment it0.2))) as [i0|].
    + apply bind_Ok_inv in H as (v1 & t1 & Hset & H).
      apply set_index_Ok_inv in Hset as (_ & -> & ->). by eapply IH.
    + by eapply IH.
Qed.

Lemma KDLModelTpl_new_Ok_inv (tree : Tree) (root : string)
    (joint_names link_names : list string) (verbose : bool) (t t' : list call) m :
  KDLModelTpl_new kdl getSegments tree root joint_names link_names verbose t
    = Ok m t' →
  t' = t ∧ tree_ m = tree ∧ tree_root_name_ m = root ∧
  user_link_names_ m = link_names ∧ user_joint_names_ m = joint_names ∧
  user_joint_idx_mapping_ m = build_idx_mapping joint_names 0 ∅ ∧
  mapping_sized kdl m ∧
  ∀ k x, joint_mapping_kdl_2_user_ m !! k = Some x →
         x = 0 ∨ x < length joint_names.
Proof.
  unfold KDLModelTpl_new.
  intros (v' & t1 & Hfill & [= <- <-])%bind_Ok_inv.
  apply fill_joint_mapping_Ok_inv in Hfill as (-> & Hlen & Hval).
  rewrite length_replicate in Hlen. simpl. split_and!; try done.
  intros k x [Hk|(it & _ & _ & Hm)]%Hval.
  - left. by apply lookup_replicate_1 in Hk as [-> _].
  - right. apply build_idx_mapping_value in Hm as [Hm|(k' & Hk' & ->)].
    + by rewrite lookup_empty in Hm.
    + by apply lookup_lt_Some in Hk'.
Qed.

(** X13. Once the tree is built from the URDF, the constructor never
    throws.  When it returns, it has stored the names and the tree as
    given and left the history alone, the joint mapping has one entry per
    joint of the tree, and each entry is 0 or the position of a joint
    name.  It returns whenever every segment of the tree carries a joint
    number below the number of joints. *)
Theorem KDLModelTpl_new_sets_up (tree : Tree) (root : string)
    (joint_names link_names : list string) (verbose : bool) (t : list call) :
  (∀ m t', KDLModelTpl_new kdl getSegments tree root joint_names link_names verbose t
             = Ok m t' →
     t' = t ∧ tree_ m = tree ∧ tree_root_name_ m = root ∧
     user_link_names_ m = link_names ∧ user_joint_names_ m = joint_names ∧
     user_joint_idx_mapping_ m = build_idx_mapping joint_names 0 ∅ ∧
     mapping_sized kdl m ∧
     ∀ k x, joint_mapping_kdl_2_user_ m !! k = Some x →
            x = 0 ∨ x < length joint_names) ∧
  (∀ e t', KDLModelTpl_new kdl getSegments tree root joint_names link_names verbose t
             ≠ Throw e t') ∧
  (joint_numbers_in_range kdl getSegments tree →
   ∃ m, KDLModelTpl_new kdl getSegments tree root joint_names link_names verbose t
          = Ok m t).
Proof.
  split_and!.
  - intros m t'. apply KDLModelTpl_new_Ok_inv.
  - unfold KDLModelTpl_new.
    intros e t' [H|(v' & t1 & _ & H)]%bind_Throw_inv; [|done].
    by apply fill_joint_mapping_not_Throw in H.
  - intros Hr. unfold KDLModelTpl_new.
    destruct (fill_joint_mapping_returns (build_idx_mapping joint_names 0 ∅)
                (getSegments tree) (replicate (tree_getNrOfJoints kdl tree) 0) t)
      as [v' Hfill].
    { intros it Hit. rewrite length_replicate. by apply Hr. }
    rewrite (bind_Ok _ _ _ _ _ Hfill). by eexists.
Qed.

(** X14. When the joint names do not repeat and no two segments with a
    named joint share a joint number, the joint mapping of a constructed
    model sends the joint number of every such segment to the position of
    its joint's name. *)
Theorem KDLModelTpl_new_joint_mapping (tree : Tree) (root : string)
    (joint_names link_names : list string) (verbose : bool) (t t' : list call) m :
  KDLModelTpl_new kdl getSegments tree root joint_names link_names verbose t
    = Ok m t' →
  NoDup joint_names →
  (∀ j1 j2 it1 it2,
     getSegments tree !! j1 = Some it1 → getSegments tree !! j2 = Some it2 →
     getName (getJoint (segment it1.2)) ∈ joint_names →
     getName (getJoint (segment it2.2)) ∈ joint_names →
     q_nr it1.2 = q_nr it2.2 → j1 = j2) →
  ∀ it i, it ∈ getSegments tree →
    joint_names !! i = Some (getName (getJoint (segment it.2))) →
    joint_mapping_kdl_2_user_ m !! q_nr it.2 = Some i.
Proof.
  unfold KDLModelTpl_new.
  intros (v' & t1 & Hfill & [= <- <-])%bind_Ok_inv Hnd Hdistinct it i Hit Hi. simpl.
  apply list_elem_of_lookup_1 in Hit as [j Hj].
  eapply fill_joint_mapping_value; [exact Hfill|exact Hj| |].
  - apply (build_idx_mapping_last joint_names 0 ∅ _ i Hi).
    intros k' Hlt Hk'. assert (i = k') by (by eapply NoDup_lookup). lia.
  - intros j' it' Hlt Hj' [x Hx] Hq.
    assert (j' = j); [|lia].
    apply (Hdistinct j' j it' it Hj' Hj); [| |done].
    + apply build_idx_mapping_value in Hx as [Hx|(k & Hk & _)].
      * by rewrite lookup_empty in Hx.
      * by eapply list_elem_of_lookup_2.
    + by eapply list_elem_of_lookup_2.
Qed.

End kdl_constructor_properties.

(** ** KDLModelTpl: more on the inverse-kinematics operations *)

Section kdl_model_more.
Import KDLModel.
Context {S D Tree : Type}.
Context (to_double : S → D) (of_double : D → S) (zero : D) (to_int : D → Z).
Context (kdl : @KDL D Tree).
Context (getSegments : Tree → list (string * TreeElement)).

Lemma gather_not_Throw (q0 : list S) idx i n (q_init : list D) (t t' : list call) e :
  gather to_double q0 idx i n q_init t ≠ Throw e t'.
Proof.
  revert i q_init t. induction n as [|n IH]; intros i q_init t; simpl; [done|].
  intros [H|(k & t1 & _ & H)]%bind_Throw_inv; [by apply at_index_not_Throw in H|].
  apply bind_Throw_inv in H as [H|(x & t2 & _ & H)]; [by apply at_index_not_Throw in H|].
  apply bind_Throw_inv in H as [H|(q & t3 & _ & H)]; [by apply set_index_not_Throw in H|].
  by apply IH in H.
Qed.

Lemma gather_limits_not_Throw (qmin qmax : list S) idx i n (q_min q_max : list D)
    (t t' : list call) e :
  gather_limits to_double qmin qmax idx i n q_min q_max t ≠ Throw e t'.
Proof.
  revert i q_min q_max t. induction n as [|n IH]; intros i q_min q_max t; simpl; [done|].
  intros [H|(k & t1 & _ & H)]%bind_Throw_inv; [by apply at_index_not_Throw in H|].
  apply bind_Throw_inv in H as [H|(x & t2 & _ & H)]; [by apply at_index_not_Throw in H|].
  apply bind_Throw_inv in H as [H|(q & t3 & _ & H)]; [by apply set_index_not_Throw in H|].
  apply bind_Throw_inv in H as [H|(k' & t4 & _ & H)]; [by apply at_index_not_Throw in H|].
  apply bind_Throw_inv in H as [H|(y & t5 & _ & H)]; [by apply at_index_not_Throw in H|].
  apply bind_Throw_inv in H as [H|(q' & t6 & _ & H)]; [by apply set_index_not_Throw in H|].
  by apply IH in H.
Qed.

Lemma build_frames_not_Throw (endpoints : list string) (poses : list (@Vector7 S)) i
    (frames : gmap string (@Frame D)) (t t' : list call) e :
  build_frames to_double endpoints poses i frames t ≠ Throw e t'.
Proof. rewrite build_frames_frames_from. by destruct (frames_from _ _ _ _ _). Qed.

Lemma TreeIKNRJL_not_Throw (m : @KDLModelTpl Tree) (endpoints : list string)
    (q0 : list S) (poses : list (@Vector7 S)) (qmin qmax : list S)
    (t : list call) (e : exn) (t' : list call) :
  TreeIKNRJL to_double of_double zero to_int kdl m endpoints q0 poses qmin qmax t
  ≠ Throw e t'.
Proof.
  unfold TreeIKNRJL. intros H.
  apply bind_Throw_inv in H as [H|([] & t1 & _ & H)]; [done|].
  apply bind_Throw_inv in H as [H|([] & t2 & _ & H)]; [done|].
  apply bind_Throw_inv in H as [H|([q_min q_max] & t3 & _ & H)];
    [by apply gather_limits_not_Throw in H|].
  apply bind_Throw_inv in H as [H|(frames & t4 & _ & H)];
    [by apply build_frames_not_Throw in H|].
  apply bind_Throw_inv in H as [H|(q_init & t5 & _ & H)];
    [by apply gather_not_Throw in H|].
  apply bind_Throw_inv in H as [H|([] & t6 & _ & H)]; [done|].
  destruct (TreeIkSolverPos_NR_JL _ _ _ _ _ _ _ _ _ _ _) as [q_sol retval].
  apply bind_Throw_inv in H as [H|([] & t7 & _ & H)]; [done|].
  apply bind_Throw_inv in H as [H|(q1 & t8 & _ & H)];
    [by apply scatter_not_Throw in H|].
  done.
Qed.

(** X15. [TreeIKNRJL] never throws an exception, whatever the model, the
    seed, the limits, the endpoints and the poses are: it either returns
    or accesses a vector out of bounds.  It has no bound check of its own,
    and an index outside a vector is not an error the caller can catch. *)
Theorem TreeIKNRJL_never_throws (m : @KDLModelTpl Tree) (endpoints : list string)
    (q0 : list S) (poses : list (@Vector7 S)) (qmin qmax : list S)
    (t : list call) :
  (∃ q1 r t', TreeIKNRJL to_double of_double zero to_int kdl m endpoints q0 poses qmin qmax t
                = Ok (q1, r) t') ∨
  TreeIKNRJL to_double of_double zero to_int kdl m endpoints q0 poses qmin qmax t = Crash.
Proof.
  destruct (TreeIKNRJL _ _ _ _ _ _ _ _ _ _ _) as [[q1 r] t'|e t'|] eqn:Hrun.
  - left. by exists q1, r, t'.
  - by apply TreeIKNRJL_not_Throw in Hrun.
  - by right.
Qed.

(** X16. When [TreeIKNRJL] returns on a model whose joint mapping has one
    entry per joint of the tree, the result has the length of the seed and
    agrees with the seed at every index that is not in the joint mapping;
    the status is the [double] the tree solver returned, converted to
    [int]; and when the entries of the mapping do not repeat, the entry of
    the result at the mapping's [j]-th index is the [j]-th entry of the
    solver's solution. *)
Theorem TreeIKNRJL_result (m : @KDLModelTpl Tree) (endpoints : list string)
    (q0 : list S) (poses : list (@Vector7 S)) (qmin qmax : list S)
    (t : list call) (q1 : list S) (r : Z) (t' : list call) :
  mapping_sized kdl m →
  TreeIKNRJL to_double of_double zero to_int kdl m endpoints q0 poses qmin qmax t
    = Ok (q1, r) t' →
  length q1 = length q0 ∧
  (∀ p, p ∉ joint_mapping_kdl_2_user_ m → q1 !! p = q0 !! p) ∧
  ∃ q_sol v,
    Tree_solve to_double zero kdl m endpoints q0 poses qmin qmax = Some (q_sol, v) ∧
    r = to_int v ∧
    (NoDup (joint_mapping_kdl_2_user_ m) →
     ∀ j k, joint_mapping_kdl_2_user_ m !! j = Some k →
            q1 !! k = of_double <$> q_sol !! j).
Proof.
  intros Hsized H. rewrite TreeIKNRJL_run in H by done. simpl in H.
  unfold Tree_solve. simpl.
  destruct (entries_at to_double qmin _) as [q_min|]; simpl in *; [|done].
  destruct (entries_at to_double qmax _) as [q_max|]; simpl in *; [|done].
  rewrite build_frames_frames_from in H.
  destruct (frames_from to_double endpoints poses 0 ∅) as [frames|]; simpl in *; [|done].
  destruct (entries_at to_double q0 _) as [q_init|]; simpl in *; [|done].
  destruct (TreeIkSolverPos_NR_JL _ _ _ _ _ _ _ _ _ _ _) as [q_sol retval]; simpl in *.
  destruct (scatter _ _ _ _ _ _ _) as [q1' t2|e t2|] eqn:Hsc; [|done..].
  injection H as -> <- _.
  pose proof (scatter_Ok_inv of_double _ _ _ _ _ _ _ _ Hsc) as (_ & Hlen & Hframe).
  split_and!; try done. exists q_sol, retval. split_and!; [done..|].
  intros Hnd j k Hjk. eapply scatter_Ok_values; [exact Hsc|done| |done].
  apply lookup_lt_Some in Hjk. lia.
Qed.

Lemma chain_joint_indices_None (m : @KDLModelTpl Tree) (chain : Chain) :
  chain_joint_indices m chain = None ↔
  ∃ seg, seg ∈ segments chain ∧ movable seg ∧
         user_joint_idx_mapping_ m !! getName (getJoint seg) = None.
Proof.
  unfold chain_joint_indices. rewrite mapM_None, Exists_exists. split.
  - intros (seg & [Hmov Hin]%list_elem_of_filter & Hnone). by exists seg.
  - intros (seg & Hin & Hmov & Hnone). exists seg. split; [|done].
    by apply list_elem_of_filter.
Qed.

(** After the bound check: the only exception left is that of [at], thrown
    exactly when the indices cannot be computed. *)
Lemma throws_iff_no_indices (idx : option (list nat)) (t1 : list call)
    (k : list nat → outcome (list call) (list S * Z)) :
  (∀ i e t', k i ≠ Throw e t') →
  ((∃ e t', match idx with
            | Some i => k i
            | None => Throw (out_of_range "map::at") t1
            end = Throw e t') ↔ idx = None) ∧
  (∀ e t', match idx with
           | Some i => k i
           | None => Throw (out_of_range "map::at") t1
           end = Throw e t' → e = out_of_range "map::at").
Proof.
  intros Hk. destruct idx as [i|]; split.
  - split; [|done]. intros (e & t' & H). by apply Hk in H.
  - intros e t' H. by apply Hk in H.
  - split; [done|]. intros _. by eexists _, _.
  - by intros e t' [= <- _].
Qed.

Lemma after_indices_not_Throw (sol : list D * Z) idx (q0 : list S) (t : list call) e t' :
  match scatter of_double sol.1 idx 0 (length idx) q0 t with
  | Ok q1 t2 => Ok (q1, sol.2) t2
  | Throw e t2 => Throw e t2
  | Crash => Crash
  end ≠ Throw e t'.
Proof.
  destruct (scatter _ _ _ _ _ _ _) eqn:Hsc; try done.
  by apply scatter_not_Throw in Hsc.
Qed.

Lemma chainIKLMA_throws (m : @KDLModelTpl Tree) index tip (q0 : list S) pose
    (t : list call) :
  user_link_names_ m !! index = Some tip →
  ((∃ e t', chainIKLMA to_double of_double zero kdl m index q0 pose t = Throw e t')
   ↔ chain_joint_indices m (chain_of kdl m tip) = None) ∧
  (∀ e t', chainIKLMA to_double of_double zero kdl m index q0 pose t = Throw e t' →
           e = out_of_range "map::at").
Proof.
  intros Htip. rewrite chainIKLMA_run, Htip. simpl.
  apply throws_iff_no_indices. intros idx e t'.
  destruct (entries_at to_double q0 idx); [|done]. apply after_indices_not_Throw.
Qed.

Lemma chainIKNR_throws (m : @KDLModelTpl Tree) index tip (q0 : list S) pose
    (t : list call) :
  user_link_names_ m !! index = Some tip →
  ((∃ e t', chainIKNR to_double of_double zero kdl m index q0 pose t = Throw e t')
   ↔ chain_joint_indices m (chain_of kdl m tip) = None) ∧
  (∀ e t', chainIKNR to_double of_double zero kdl m index q0 pose t = Throw e t' →
           e = out_of_range "map::at").
Proof.
  intros Htip. rewrite chainIKNR_run, Htip. simpl.
  apply throws_iff_no_indices. intros idx e t'.
  destruct (entries_at to_double q0 idx); [|done]. apply after_indices_not_Throw.
Qed.

Lemma chainIKNRJL_throws (m : @KDLModelTpl Tree) index tip (q0 : list S) pose
    qmin qmax (t : list call) :
  user_link_names_ m !! index = Some tip →
  ((∃ e t', chainIKNRJL to_double of_double zero kdl m index q0 pose qmin qmax t
            = Throw e t')
   ↔ chain_joint_indices m (chain_of kdl m tip) = None) ∧
  (∀ e t', chainIKNRJL to_double of_double zero kdl m index q0 pose qmin qmax t
           = Throw e t' → e = out_of_range "map::at").
Proof.
  intros Htip. rewrite chainIKNRJL_run, Htip. simpl.
  apply throws_iff_no_indices. intros idx e t'.
  destruct (entries_at to_double qmin idx); [|done].
  destruct (entries_at to_double qmax idx); [|done].
  destruct (entries_at to_double q0 idx); [|done]. apply after_indices_not_Throw.
Qed.

(** X17. With the link index in bounds, each chain operation throws exactly
    when some non-fixed joint on the chain to the link has no entry in the
    map from joint names to user indices, and what it throws is then the
    [std::out_of_range] of [at]; a seed that is too short is never reported
    by an exception. *)
Theorem chainIK_throws_iff_joint_unnamed (m : @KDLModelTpl Tree) (index : nat)
    (tip : string) (q0 : list S) (pose : @Vector7 S) (qmin qmax : list S)
    (t : list call) :
  user_link_names_ m !! index = Some tip →
  let unnamed := ∃ seg, seg ∈ segments (chain_of kdl m tip) ∧ movable seg ∧
                   user_joint_idx_mapping_ m !! getName (getJoint seg) = None in
  (((∃ e t', chainIKLMA to_double of_double zero kdl m index q0 pose t = Throw e t')
    ↔ unnamed) ∧
   ((∃ e t', chainIKNR to_double of_double zero kdl m index q0 pose t = Throw e t')
    ↔ unnamed) ∧
   ((∃ e t', chainIKNRJL to_double of_double zero kdl m index q0 pose qmin qmax t
             = Throw e t') ↔ unnamed)) ∧
  (∀ e t',
     chainIKLMA to_double of_double zero kdl m index q0 pose t = Throw e t' ∨
     chainIKNR to_double of_double zero kdl m index q0 pose t = Throw e t' ∨
     chainIKNRJL to_double of_double zero kdl m index q0 pose qmin qmax t
       = Throw e t' →
     e = out_of_range "map::at").
Proof.
  intros Htip unnamed. subst unnamed. rewrite <-chain_joint_indices_None.
  destruct (chainIKLMA_throws m index tip q0 pose t Htip) as [H1 H1'].
  destruct (chainIKNR_throws m index tip q0 pose t Htip) as [H2 H2'].
  destruct (chainIKNRJL_throws m index tip q0 pose qmin qmax t Htip) as [H3 H3'].
  split; [done|]. intros e t' [H|[H|H]]; eauto.
Qed.

Lemma filter_none (segs : list Segment) :
  (∀ seg, seg ∈ segs → ¬ movable seg) → filter movable segs = [].
Proof.
  induction segs as [|seg segs IH]; intros H; [done|].
  rewrite filter_cons_False by (apply H; by left).
  apply IH. intros seg' Hin. apply H. by right.
Qed.

(** X18. When every joint on the chain to the link is fixed, each chain
    operation returns the seed itself, whatever its length, together with
    the status of its solver. *)
Theorem chainIK_fixed_chain_returns_seed (m : @KDLModelTpl Tree) (index : nat)
    (tip : string) (q0 : list S) (pose : @Vector7 S) (qmin qmax : list S)
    (t : list call) :
  user_link_names_ m !! index = Some tip →
  (∀ seg, seg ∈ segments (chain_of kdl m tip) → ¬ movable seg) →
  (∃ q_sol r t', chainIKLMA to_double of_double zero kdl m index q0 pose t
                   = Ok (q0, r) t' ∧
                 LMA_solve to_double zero kdl m index q0 pose = Some (q_sol, r)) ∧
  (∃ q_sol r t', chainIKNR to_double of_double zero kdl m index q0 pose t
                   = Ok (q0, r) t' ∧
                 NR_solve to_double zero kdl m index q0 pose = Some (q_sol, r)) ∧
  (∃ q_sol r t', chainIKNRJL to_double of_double zero kdl m index q0 pose qmin qmax t
                   = Ok (q0, r) t' ∧
                 NR_JL_solve to_double zero kdl m index q0 pose qmin qmax
                   = Some (q_sol, r)).
Proof.
  intros Htip Hfixed.
  assert (chain_joint_indices m (chain_of kdl m tip) = Some []) as Hidx.
  { unfold chain_joint_indices.
    by rewrite filter_none. }
  rewrite chainIKLMA_run, chainIKNR_run, chainIKNRJL_run.
  unfold LMA_solve, NR_solve, NR_JL_solve. rewrite Htip. simpl. rewrite Hidx. simpl.
  split_and!.
  - destruct (ChainIkSolverPos_LMA _ _ _ _ _ _) as [q_sol r].
    exists q_sol, r. by eexists.
  - destruct (ChainIkSolverPos_NR _ _ _ _ _) as [q_sol r].
    exists q_sol, r. by eexists.
  - destruct (ChainIkSolverPos_NR_JL _ _ _ _ _ _ _) as [q_sol r].
    exists q_sol, r. by eexists.
Qed.

Lemma new_JntArray_length (n : nat) : length (new_JntArray zero n) = n.
Proof. apply length_replicate. Qed.

Lemma entries_at_returns (q : list S) (idx : list nat) :
  (∀ k, k ∈ idx → k < length q) → is_Some (entries_at to_double q idx).
Proof.
  intros Hin. unfold entries_at. apply mapM_is_Some_2, Forall_forall.
  intros k Hk. simpl. destruct (lookup_lt_is_Some_2 q k (Hin k Hk)) as [x ->]. by eexists.
Qed.

(** The indices of a chain whose non-fixed joints are all named by the
    constructor's joint names. *)
Lemma constructed_chain_indices (m : @KDLModelTpl Tree) (chain : Chain)
    (joint_names : list string) :
  user_joint_idx_mapping_ m = build_idx_mapping joint_names 0 ∅ →
  (∀ seg, seg ∈ segments chain → movable seg →
          getName (getJoint seg) ∈ joint_names) →
  ∃ idx, chain_joint_indices m chain = Some idx ∧
         ∀ k, k ∈ idx → k < length joint_names.
Proof.
  intros Hmap Hnamed.
  assert (is_Some (chain_joint_indices m chain)) as [idx Hidx].
  { unfold chain_joint_indices. apply mapM_is_Some_2, Forall_forall.
    intros seg [Hmov Hin]%list_elem_of_filter. simpl. rewrite Hmap.
    destruct (build_idx_mapping_named joint_names _ (Hnamed seg Hin Hmov))
      as (k & -> & _). by eexists. }
  exists idx. split; [done|]. intros k Hk.
  unfold chain_joint_indices in Hidx. apply mapM_Some_1 in Hidx.
  apply list_elem_of_lookup_1 in Hk as [i Hi].
  destruct (Forall2_lookup_r _ _ _ _ _ Hidx Hi) as (seg & _ & Hseg).
  rewrite Hmap in Hseg.
  apply build_idx_mapping_value in Hseg as [Hseg|(k' & Hk' & ->)].
  - by rewrite lookup_empty in Hseg.
  - by apply lookup_lt_Some in Hk'.
Qed.

(** Takes the scatter loop of the goal through [scatter_Ok]. *)
Ltac scatter_returns Hq0 :=
  let q1 := fresh "q1" in
  let Hsc := fresh "Hsc" in
  match goal with
  | |- context [scatter of_double ?qs ?idx 0 ?n ?q ?h] =>
      destruct (scatter_Ok of_double qs idx 0 n q h) as [q1 Hsc];
      [simpl; lia|simpl; lia|exact Hq0|rewrite Hsc; by eexists _, _, _]
  end.

(** X19. On a model built by the constructor, with the link index in
    bounds, every non-fixed joint on the chain to the link among the joint
    names, and a seed (for [chainIKNRJL] also limits) with at least one
    entry per joint name, each chain operation returns, provided KDL's
    solvers keep the size of the solution array: no exception and no
    access out of bounds. *)
Theorem constructed_chainIK_returns (tree : Tree) (root : string)
    (joint_names link_names : list string) (verbose : bool) (t0 t0' : list call)
    (m : @KDLModelTpl Tree) (index : nat) (tip : string) (q0 : list S)
    (pose : @Vector7 S) (qmin qmax : list S) (t : list call) :
  KDLModelTpl_new kdl getSegments tree root joint_names link_names verbose t0
    = Ok m t0' →
  solvers_keep_size kdl →
  link_names !! index = Some tip →
  (∀ seg, seg ∈ segments (getChain kdl tree root tip) → movable seg →
          getName (getJoint seg) ∈ joint_names) →
  length joint_names ≤ length q0 →
  (∃ q1 r t', chainIKLMA to_double of_double zero kdl m index q0 pose t
                = Ok (q1, r) t') ∧
  (∃ q1 r t', chainIKNR to_double of_double zero kdl m index q0 pose t
                = Ok (q1, r) t') ∧
  (length joint_names ≤ length qmin → length joint_names ≤ length qmax →
   ∃ q1 r t', chainIKNRJL to_double of_double zero kdl m index q0 pose qmin qmax t
                = Ok (q1, r) t').
Proof.
  intros (_ & Htree & Hroot & Hlinks & _ & Hmap & _)%KDLModelTpl_new_Ok_inv
    (Hlma & Hnr & Hnrjl & _) Htip Hnamed Hq0.
  rewrite <-Hlinks in Htip.
  destruct (constructed_chain_indices m (chain_of kdl m tip) joint_names Hmap)
    as (idx & Hidx & Hlt).
  { unfold chain_of. by rewrite Htree, Hroot. }
  assert (∀ k, k ∈ idx → k < length q0) as Hin0 by (intros k Hk%Hlt; lia).
  destruct (entries_at_returns q0 idx Hin0) as [q_init Hinit].
  rewrite chainIKLMA_run, chainIKNR_run, chainIKNRJL_run, Htip. simpl.
  rewrite Hidx, Hinit. split_and!.
  - pose proof (Hlma (chain_of kdl m tip) L_weights q_init
      (frame_of_pose to_double pose) (new_JntArray zero (length idx))) as Hsize.
    rewrite new_JntArray_length in Hsize.
    scatter_returns Hin0.
  - pose proof (Hnr (chain_of kdl m tip) q_init
      (frame_of_pose to_double pose) (new_JntArray zero (length idx))) as Hsize.
    rewrite new_JntArray_length in Hsize.
    scatter_returns Hin0.
  - intros Hqmin Hqmax.
    destruct (entries_at_returns qmin idx) as [q_min ->]; [intros k Hk%Hlt; lia|].
    destruct (entries_at_returns qmax idx) as [q_max ->]; [intros k Hk%Hlt; lia|].
    pose proof (Hnrjl (chain_of kdl m tip) q_min q_max q_init
      (frame_of_pose to_double pose) (new_JntArray zero (length idx))) as Hsize.
    rewrite new_JntArray_length in Hsize.
    scatter_returns Hin0.
Qed.

Lemma frames_from_returns (endpoints : list string) (poses : list (@Vector7 S)) i
    (frames : gmap string (@Frame D)) :
  i + length endpoints ≤ length poses →
  is_Some (frames_from to_double endpoints poses i frames).
Proof.
  revert i frames. induction endpoints as [|ep endpoints IH]; intros i frames Hlen; simpl.
  { by eexists. }
  simpl in Hlen. destruct (lookup_lt_is_Some_2 poses i) as [pose ->]; [lia|]. simpl.
  apply IH. lia.
Qed.

(** X20. On a model built by the constructor from at least one joint name,
    with seed and limits of one entry per joint name and a pose for every
    endpoint, [TreeIKNRJL] returns, provided KDL's solvers keep the size of
    the solution array. *)
Theorem constructed_TreeIKNRJL_returns (tree : Tree) (root : string)
    (joint_names link_names : list string) (verbose : bool) (t0 t0' : list call)
    (m : @KDLModelTpl Tree) (endpoints : list string) (q0 : list S)
    (poses : list (@Vector7 S)) (qmin qmax : list S) (t : list call) :
  KDLModelTpl_new kdl getSegments tree root joint_names link_names verbose t0
    = Ok m t0' →
  solvers_keep_size kdl →
  joint_names ≠ [] →
  length q0 = length joint_names →
  length qmin = length joint_names →
  length qmax = length joint_names →
  length endpoints ≤ length poses →
  ∃ q1 r t', TreeIKNRJL to_double of_double zero to_int kdl m endpoints q0 poses qmin qmax t
               = Ok (q1, r) t'.
Proof.
  intros (_ & _ & _ & _ & _ & _ & Hsized & Hentries)%KDLModelTpl_new_Ok_inv
    (_ & _ & _ & Htree) Hne Hq0 Hqmin Hqmax Hposes.
  assert (0 < length joint_names) as Hpos by (destruct joint_names; [done|simpl; lia]).
  assert (∀ k, k ∈ joint_mapping_kdl_2_user_ m → k < length joint_names) as Hlt.
  { intros k [i Hi]%list_elem_of_lookup_1. destruct (Hentries i k Hi); lia. }
  assert (∀ k, k ∈ joint_mapping_kdl_2_user_ m → k < length q0) as Hin0
    by (intros k Hk%Hlt; lia).
  rewrite TreeIKNRJL_run by done. simpl.
  destruct (entries_at_returns qmin (joint_mapping_kdl_2_user_ m)) as [q_min ->];
    [intros k Hk%Hlt; lia|].
  destruct (entries_at_returns qmax (joint_mapping_kdl_2_user_ m)) as [q_max ->];
    [intros k Hk%Hlt; lia|].
  rewrite build_frames_frames_from.
  destruct (frames_from_returns endpoints poses 0 ∅) as [frames ->]; [simpl; lia|].
  destruct (entries_at_returns q0 (joint_mapping_kdl_2_user_ m) Hin0) as [q_init ->].
  pose proof (Htree (tree_ m) endpoints q_min q_max (1 # 1000000)%Q 1000
    (1 # 1000000)%Q q_init frames
    (new_JntArray zero (length (joint_mapping_kdl_2_user_ m)))) as Hsize.
  rewrite new_JntArray_length in Hsize.
  scatter_returns Hin0.
Qed.

Lemma frames_from_absent (endpoints : list string) (poses : list (@Vector7 S)) i
    (frames frames' : gmap string (@Frame D)) ep :
  frames_from to_double endpoints poses i frames = Some frames' →
  ep ∉ endpoints → frames' !! ep = frames !! ep.
Proof.
  revert i frames. induction endpoints as [|ep0 endpoints IH]; intros i frames; simpl.
  { by intros [= <-]. }
  destruct (poses !! i) as [pose|]; simpl; [|done].
  intros H [Hne Hnot]%not_elem_of_cons.
  rewrite (IH _ _ H Hnot). by apply lookup_insert_ne.
Qed.

Lemma frames_from_last (endpoints : list string) (poses : list (@Vector7 S)) i
    (frames frames' : gmap string (@Frame D)) ep k pose :
  frames_from to_double endpoints poses i frames = Some frames' →
  endpoints !! k = Some ep →
  (∀ k', k < k' → endpoints !! k' ≠ Some ep) →
  poses !! (i + k) = Some pose →
  frames' !! ep = Some (frame_of_pose to_double pose).
Proof.
  revert i frames k. induction endpoints as [|ep0 endpoints IH]; intros i frames k;
    simpl; [done|].
  destruct (poses !! i) as [pose0|] eqn:Hp0; simpl; [|done].
  intros H Hk Hlast Hpose. destruct k as [|k]; simpl in Hk.
  - injection Hk as ->. rewrite Nat.add_0_r, Hp0 in Hpose. injection Hpose as ->.
    rewrite (frames_from_absent _ _ _ _ _ ep H).
    + apply lookup_insert_eq.
    + intros [k' Hk']%list_elem_of_lookup_1. by apply (Hlast (Datatypes.S k')); [lia|].
  - eapply (IH _ _ k H Hk).
    + intros k' Hlt. apply (Hlast (Datatypes.S k')). lia.
    + by replace (Datatypes.S i + k) with (i + Datatypes.S k) by lia.
Qed.

Lemma frames_from_short (endpoints : list string) (poses : list (@Vector7 S)) i
    (frames : gmap string (@Frame D)) :
  i ≤ length poses →
  length poses < i + length endpoints →
  frames_from to_double endpoints poses i frames = None.
Proof.
  revert i frames. induction endpoints as [|ep endpoints IH]; intros i frames Hi Hlen;
    simpl in *; [lia|].
  destruct (poses !! i) as [pose|] eqn:Hp; simpl; [|done].
  apply lookup_lt_Some in Hp. apply IH; lia.
Qed.

(** X21. The goal frames [TreeIKNRJL] hands to its solver: with a pose for
    every endpoint the loop returns a map that holds exactly the endpoints,
    each with the frame of its pose, the last one when an endpoint is
    listed more than once; with fewer poses than endpoints the loop reads
    past the poses. *)
Theorem build_frames_goals (endpoints : list string) (poses : list (@Vector7 S))
    (t : list call) :
  (length endpoints ≤ length poses →
   ∃ frames, build_frames to_double endpoints poses 0 ∅ t = Ok frames t ∧
     (∀ ep, frames !! ep = None ↔ ep ∉ endpoints) ∧
     (∀ k ep pose, endpoints !! k = Some ep →
        (∀ k', k < k' → endpoints !! k' ≠ Some ep) →
        poses !! k = Some pose →
        frames !! ep = Some (frame_of_pose to_double pose))) ∧
  (length poses < length endpoints →
   build_frames to_double endpoints poses 0 ∅ t = Crash).
Proof.
  rewrite build_frames_frames_from. split.
  - intros Hlen.
    destruct (frames_from_returns endpoints poses 0 ∅) as [frames Hf]; [simpl; lia|].
    rewrite Hf. exists frames. split_and!; [done| |].
    + intros ep. split.
      * intros Hnone Hin.
        destruct (last_occurrence endpoints ep Hin) as (k & Hk & Hlast).
        destruct (lookup_lt_is_Some_2 poses k) as [pose Hpose].
        { apply lookup_lt_Some in Hk. lia. }
        by rewrite (frames_from_last _ _ 0 _ _ ep k pose Hf Hk Hlast Hpose) in Hnone.
      * intros Hnot. by rewrite (frames_from_absent _ _ _ _ _ ep Hf Hnot).
    + intros k ep pose Hk Hlast Hpose.
      by apply (frames_from_last _ _ 0 _ _ ep k pose Hf Hk Hlast Hpose).
  - intros Hlen. rewrite frames_from_short; [done|lia|simpl; lia].
Qed.

End kdl_model_more.

(** ** The planner header: conversions and the validity checker *)

Section planner_more.
Import OmplPlanner.
Context {S D State SpaceInformation World : Type}.
Context (state2vector : State → SpaceInformation → list S).
Context (to_double : S → D).
Context (vc : @ValidityCheckerTpl S SpaceInformation World).

Lemma eigen2vector_fmap {A B : Type} (cast : A → B) (x : list A) :
  eigen2vector cast x = cast <$> x.
Proof.
  unfold eigen2vector.
  assert (∀ ret, foldl (λ ret xi, ret ++ [cast xi]) ret x = ret ++ (cast <$> x)) as H.
  { induction x as [|a x IH]; intros ret; simpl; [by rewrite app_nil_r|].
    by rewrite IH, <-app_assoc. }
  apply (H []).
Qed.

(** X22. [eigen2vector] and [vector2eigen] convert entry by entry and keep
    the length; with casts of which one undoes the other (as from [float]
    to [double] and back), converting a vector one way and then the other
    gives the vector back. *)
Theorem conversions_round_trip {A B : Type} (to : A → B) (back : B → A) (x : list A) :
  length (eigen2vector to x) = length x ∧
  length (vector2eigen to x) = length x ∧
  (∀ i, eigen2vector to x !! i = to <$> x !! i) ∧
  ((∀ a, back (to a) = a) →
   vector2eigen back (eigen2vector to x) = x ∧
   eigen2vector back (vector2eigen to x) = x).
Proof.
  rewrite !eigen2vector_fmap. unfold vector2eigen. split_and!.
  - apply length_fmap.
  - apply length_fmap.
  - intros i. apply list_lookup_fmap.
  - intros Hinv. rewrite <-list_fmap_compose.
    assert (back ∘ to <$> x = x) as ->; [|done].
    rewrite <-(list_fmap_id x) at 2. apply list_fmap_ext. intros ? a _. apply Hinv.
Qed.

Lemma query_after_write_throws {A B : Type} (ask : M World A) (f : A → B)
    (state : list S) (w w' : World) (e : exn) :
  (setQposAll (world_ vc) state;; x ← ask; mret (f x)) w = Throw e w' ↔
  setQposAll (world_ vc) state w = Throw e w' ∨
  ∃ w1, setQposAll (world_ vc) state w = Ok tt w1 ∧ ask w1 = Throw e w'.
Proof.
  unfold mbind, M_bind, mret, M_ret.
  destruct (setQposAll (world_ vc) state w) as [[] w1|e1 w1|].
  - destruct (ask w1) as [x w2|e2 w2|] eqn:Hask.
    + split; [done|]. intros [?|(w1' & [= <-] & Hask')]; [done|].
      by rewrite Hask in Hask'.
    + split.
      * intros [= <- <-]. right. by exists w1.
      * intros [?|(w1' & [= <-] & Hask')]; [done|]. rewrite Hask in Hask'.
        by injection Hask' as -> ->.
    + split; [done|]. intros [?|(w1' & [= <-] & Hask')]; [done|].
      by rewrite Hask in Hask'.
  - split.
    + intros [= <- <-]. by left.
    + by intros [[= <- <-]|(w1' & ? & _)].
  - split; [done|]. by intros [?|(w1' & ? & _)].
Qed.

(** X23. The checker turns no failure into a verdict: [isValid] throws
    exactly when the write of the state throws or, the write having
    returned, the collision query throws; the exception and the world at
    the throw are those of the failing call.  The same holds for
    [clearance] with the distance query, and [isValid] on a state is
    [_isValid] on the vector of the state. *)
Theorem checker_passes_failures_on (state_raw : State) (w w' : World) (e : exn) :
  (isValid state2vector vc state_raw w = Throw e w' ↔
   setQposAll (world_ vc) (state2vector state_raw (si_ vc)) w = Throw e w' ∨
   ∃ w1, setQposAll (world_ vc) (state2vector state_raw (si_ vc)) w = Ok tt w1 ∧
         collide (world_ vc) w1 = Throw e w') ∧
  (clearance state2vector to_double vc state_raw w = Throw e w' ↔
   setQposAll (world_ vc) (state2vector state_raw (si_ vc)) w = Throw e w' ∨
   ∃ w1, setQposAll (world_ vc) (state2vector state_raw (si_ vc)) w = Ok tt w1 ∧
         distance (world_ vc) w1 = Throw e w') ∧
  isValid state2vector vc state_raw w
    = _isValid vc (state2vector state_raw (si_ vc)) w.
Proof.
  split_and!.
  - unfold isValid. rewrite state2eigen_state2vector. apply query_after_write_throws.
  - unfold clearance. rewrite state2eigen_state2vector. apply query_after_write_throws.
  - unfold isValid, _isValid. by rewrite state2eigen_state2vector.
Qed.

End planner_more.

(** ** The further properties on the arm *)

Example arm_new_state :
  ArticulatedModel.current_qpos_ arm_new = [0; 0; 0; 0]%Z ∧
  ArticulatedModel.move_group_user_joints_ arm_new = [0; 2] ∧
  ArticulatedModel.qpos_dim_ arm_new = 2 ∧
  ArticulatedModel.user_joint_names_ arm_new = ["j0"; "j1"; "j2"].
Proof. by vm_compute. Qed.

Example arm_kdl_constructed :
  KDLModel.KDLModelTpl_new arm_kdl arm_segments tt "base" ["j0"; "j1"; "j2"]
    ["base"; "elbow"; "hand"] false [] = Ok arm_kdl_model [].
Proof. by vm_compute. Qed.

Example arm_kdl_repeated_name :
  KDLModel.build_idx_mapping ["j0"; "j1"; "j0"] 0 ∅ !! "j0" = Some 2.
Proof. by vm_compute. Qed.

Example arm_chainIKLMA_unnamed_joint :
  KDLModel.chainIKLMA arm_identity arm_identity 0%Z arm_kdl
    (KDLModel.mkKDLModel tt "base" ["base"; "elbow"; "hand"] ["j0"] [0; 0; 0]
       (KDLModel.build_idx_mapping ["j0"] 0 ∅) false)
    2 [10]%Z arm_pose [] =
  Throw (out_of_range "map::at")
    [KDLModel.call_getChain "base" "hand";
     KDLModel.call_construct "ChainIkSolverPos_LMA"].
Proof. by vm_compute. Qed.

Example arm_chainIKLMA_short_seed :
  KDLModel.chainIKLMA arm_identity arm_identity 0%Z arm_kdl arm_kdl_model 2
    [10; 20]%Z arm_pose [] = Crash.
Proof. by vm_compute. Qed.

Lemma setMoveGroup_order_irrelevant_witness :
  ArticulatedModel.move_group_user_joints_
    (ArticulatedModel.setMoveGroup arm_pinocchio ["hand"; "elbow"] arm)
  = ArticulatedModel.move_group_user_joints_
      (ArticulatedModel.setMoveGroup arm_pinocchio ["elbow"; "hand"; "hand"] arm_new) ∧
  ArticulatedModel.qpos_dim_
    (ArticulatedModel.setMoveGroup arm_pinocchio ["hand"; "elbow"] arm)
  = ArticulatedModel.qpos_dim_
      (ArticulatedModel.setMoveGroup arm_pinocchio ["elbow"; "hand"; "hand"] arm_new).
Proof.
  apply (setMoveGroup_order_irrelevant arm_pinocchio ["hand"; "elbow"]
           ["elbow"; "hand"; "hand"] arm arm_new).
  intros ee. rewrite !elem_of_cons, !elem_of_nil. tauto.
Defined.

Lemma setMoveGroup_monotone_witness :
  (∀ j, j ∈ ArticulatedModel.move_group_user_joints_
              (ArticulatedModel.setMoveGroup arm_pinocchio ["elbow"] arm) →
        j ∈ ArticulatedModel.move_group_user_joints_
              (ArticulatedModel.setMoveGroup arm_pinocchio ["hand"; "elbow"] arm)) ∧
  ArticulatedModel.qpos_dim_ (ArticulatedModel.setMoveGroup arm_pinocchio ["elbow"] arm)
  ≤ ArticulatedModel.qpos_dim_
      (ArticulatedModel.setMoveGroup arm_pinocchio ["hand"; "elbow"] arm).
Proof.
  apply (setMoveGroup_monotone arm_pinocchio ["elbow"] ["hand"; "elbow"] arm arm).
  intros ee. rewrite !elem_of_cons, !elem_of_nil. tauto.
Defined.

Lemma arm_moved_run :
  ArticulatedModel.setQpos arm_pinocchio [7; 8]%Z false arm = Ok tt arm_moved.
Proof. by vm_compute. Qed.

Lemma setQpos_reduced_returns_witness :
  length [7; 8]%Z = ArticulatedModel.qpos_dim_ arm ∧
  length (ArticulatedModel.current_qpos_ arm_moved)
    = length (ArticulatedModel.current_qpos_ arm) ∧
  (∀ p, (∀ i, i ∈ ArticulatedModel.move_group_user_joints_ arm →
              ¬ ArticulatedModel.in_block arm_pinocchio i p) →
        ArticulatedModel.current_qpos_ arm_moved !! p
        = ArticulatedModel.current_qpos_ arm !! p) ∧
  (∀ i, i ∈ ArticulatedModel.move_group_user_joints_ arm →
        0 < ArticulatedModel.getJointDim arm_pinocchio i →
        ArticulatedModel.getJointId arm_pinocchio i
          + ArticulatedModel.getJointDim arm_pinocchio i
        ≤ length (ArticulatedModel.current_qpos_ arm)).
Proof.
  apply (setQpos_reduced_returns arm_pinocchio [7; 8]%Z arm arm_moved).
  exact arm_moved_run.
Defined.

Lemma setQpos_refreshes_poses_witness :
  ArticulatedModel.pinocchio_data_ arm_moved
    = ArticulatedModel.computeForwardKinematics arm_pinocchio
        (ArticulatedModel.current_qpos_ arm_moved) ∧
  ArticulatedModel.fcl_link_pose_ arm_moved
    = ArticulatedModel.link_poses arm_pinocchio arm_moved ∧
  length (ArticulatedModel.fcl_link_pose_ arm_moved)
    = length (ArticulatedModel.user_link_names_ arm_moved) ∧
  ArticulatedModel.calls_ arm_moved
    = ArticulatedModel.calls_ arm
      ++ [ArticulatedModel.call_computeForwardKinematics
            (ArticulatedModel.current_qpos_ arm_moved);
          ArticulatedModel.call_updateCollisionObjects
            (ArticulatedModel.fcl_link_pose_ arm_moved)] ∧
  ArticulatedModel.user_link_names_ arm_moved = ArticulatedModel.user_link_names_ arm ∧
  ArticulatedModel.user_joint_names_ arm_moved = ArticulatedModel.user_joint_names_ arm.
Proof.
  apply (setQpos_refreshes_poses arm_pinocchio [7; 8]%Z false arm arm_moved).
  exact arm_moved_run.
Defined.

Lemma arm_chains_inside : ArticulatedModel.chains_inside_nv arm_pinocchio 4.
Proof.
  intros ee i Hi. simpl in *.
  repeat case_decide;
    repeat (apply elem_of_cons in Hi as [->|Hi]; [simpl; lia|]);
    by apply elem_of_nil in Hi.
Qed.

Lemma properly_used_configuration_size_witness :
  length (ArticulatedModel.current_qpos_ arm_new) = 4 ∧
  StronglySorted lt (ArticulatedModel.move_group_user_joints_ arm_new) ∧
  ArticulatedModel.qpos_dim_ arm_new
    = sum_list_with (ArticulatedModel.getJointDim arm_pinocchio)
        (ArticulatedModel.move_group_user_joints_ arm_new) ∧
  ∀ i, i ∈ ArticulatedModel.move_group_user_joints_ arm_new →
       ∃ ee, i ∈ ArticulatedModel.getChainJointIndex arm_pinocchio ee.
Proof.
  apply (properly_used_configuration_size arm_pinocchio
           ["base"; "elbow"; "hand"] ["j0"; "j1"; "j2"] 4 0%Z [] [] arm_new).
  apply ArticulatedModel.used_new.
Defined.

Lemma properly_used_setQpos_in_bounds_witness :
  (length [7; 8]%Z = ArticulatedModel.qpos_dim_ arm_new →
   ∃ a', ArticulatedModel.setQpos arm_pinocchio [7; 8]%Z false arm_new = Ok tt a') ∧
  (length [7; 8]%Z ≠ ArticulatedModel.qpos_dim_ arm_new →
   ArticulatedModel.setQpos arm_pinocchio [7; 8]%Z false arm_new
   = Throw (runtime_error (ArticulatedModel.size_message arm_new [7; 8]%Z)) arm_new) ∧
  (∃ a', ArticulatedModel.setQpos arm_pinocchio [7; 8]%Z true arm_new = Ok tt a').
Proof.
  apply (properly_used_setQpos_in_bounds arm_pinocchio
           ["base"; "elbow"; "hand"] ["j0"; "j1"; "j2"] 4 0%Z [] [] arm_new [7; 8]%Z).
  - exact arm_chains_inside.
  - apply ArticulatedModel.used_new.
Defined.

Lemma setQpos_reduced_last_wins_witness :
  ∃ a1 a12 a2,
    ArticulatedModel.setQpos arm_pinocchio [1; 2]%Z false arm = Ok tt a1 ∧
    ArticulatedModel.setQpos arm_pinocchio [7; 8]%Z false a1 = Ok tt a12 ∧
    ArticulatedModel.setQpos arm_pinocchio [7; 8]%Z false arm = Ok tt a2 ∧
    ArticulatedModel.current_qpos_ a12 = ArticulatedModel.current_qpos_ a2 ∧
    ArticulatedModel.pinocchio_data_ a12 = ArticulatedModel.pinocchio_data_ a2 ∧
    ArticulatedModel.fcl_link_pose_ a12 = ArticulatedModel.fcl_link_pose_ a2.
Proof.
  apply (setQpos_reduced_last_wins arm_pinocchio [1; 2]%Z [7; 8]%Z arm).
  - exact arm_slots_disjoint.
  - apply setMoveGroup_invariant.
  - exact arm_in_range.
  - reflexivity.
  - reflexivity.
Defined.

Lemma arm_joint_numbers_distinct (j1 j2 : nat) (it1 it2 : string * KDLModel.TreeElement) :
  arm_segments tt !! j1 = Some it1 → arm_segments tt !! j2 = Some it2 →
  KDLModel.getName (KDLModel.getJoint (KDLModel.segment it1.2)) ∈ ["j0"; "j1"; "j2"] →
  KDLModel.getName (KDLModel.getJoint (KDLModel.segment it2.2)) ∈ ["j0"; "j1"; "j2"] →
  KDLModel.q_nr it1.2 = KDLModel.q_nr it2.2 → j1 = j2.
Proof.
  intros H1 H2 Hn1 Hn2 Hq.
  destruct j1 as [|[|[|[|j1]]]]; simpl in H1; try done; injection H1 as <-;
    destruct j2 as [|[|[|[|j2]]]]; simpl in H2; try done; injection H2 as <-;
    simpl in *; try done; exfalso.
  - clear Hn2 Hq. by apply (bool_decide_pack _) in Hn1.
  - clear Hn1 Hq. by apply (bool_decide_pack _) in Hn2.
Qed.

Lemma KDLModelTpl_new_joint_mapping_witness :
  KDLModel.joint_mapping_kdl_2_user_ arm_kdl_model !! 2 = Some 2.
Proof.
  refine (KDLModelTpl_new_joint_mapping arm_kdl arm_segments tt "base"
            ["j0"; "j1"; "j2"] ["base"; "elbow"; "hand"] false [] [] arm_kdl_model
            arm_kdl_constructed _ arm_joint_numbers_distinct
            ("hand", KDLModel.mkTreeElement
                       (KDLModel.mkSegment (KDLModel.mkJoint "j2" KDLModel.RotZ)) 2)
            2 _ _).
  - apply (bool_decide_unpack _). by vm_compute.
  - unfold arm_segments. by right; left.
  - reflexivity.
Defined.

Lemma TreeIKNRJL_result_witness :
  length [(1 # 2)%Q] = length [(1 # 2)%Q] ∧
  (∀ p, p ∉ KDLModel.joint_mapping_kdl_2_user_ slider_kdl_model →
        [(1 # 2)%Q] !! p = [(1 # 2)%Q] !! p) ∧
  ∃ q_sol v,
    KDLModel.Tree_solve slider_identity (0 # 1)%Q slider_kdl slider_kdl_model ["hand"]
      [(1 # 2)%Q] [slider_pose] [(0 # 1)%Q] [(1 # 1)%Q] = Some (q_sol, v) ∧
    0%Z = Q_to_int v ∧
    (NoDup (KDLModel.joint_mapping_kdl_2_user_ slider_kdl_model) →
     ∀ j k, KDLModel.joint_mapping_kdl_2_user_ slider_kdl_model !! j = Some k →
            [(1 # 2)%Q] !! k = slider_identity <$> q_sol !! j).
Proof.
  apply (TreeIKNRJL_result slider_identity slider_identity (0 # 1)%Q Q_to_int
           slider_kdl slider_kdl_model ["hand"] [(1 # 2)%Q] [slider_pose]
           [(0 # 1)%Q] [(1 # 1)%Q] [] [(1 # 2)%Q] 0%Z
           [KDLModel.call_construct "TreeFkSolverPos_recursive";
            KDLModel.call_construct "TreeIkSolverVel_wdls";
            KDLModel.call_construct "TreeIkSolverPos_NR_JL";
            KDLModel.call_CartToJnt "TreeIkSolverPos_NR_JL" 0%Z]).
  - reflexivity.
  - by vm_compute.
Defined.

Lemma chainIK_throws_iff_joint_unnamed_witness :
  (∃ e t', KDLModel.chainIKLMA arm_identity arm_identity 0%Z arm_kdl arm_kdl_model 2
             [10; 20; 30]%Z arm_pose [] = Throw e t') ↔
  ∃ seg, seg ∈ KDLModel.segments (KDLModel.chain_of arm_kdl arm_kdl_model "hand") ∧
         KDLModel.movable seg ∧
         KDLModel.user_joint_idx_mapping_ arm_kdl_model
           !! KDLModel.getName (KDLModel.getJoint seg) = None.
Proof.
  apply (chainIK_throws_iff_joint_unnamed arm_identity arm_identity 0%Z arm_kdl
           arm_kdl_model 2 "hand" [10; 20; 30]%Z arm_pose
           [0; 0; 0]%Z [9; 9; 9]%Z []).
  reflexivity.
Defined.

Lemma chainIK_fixed_chain_returns_seed_witness :
  ∃ q_sol r t',
    KDLModel.chainIKLMA slider_identity slider_identity (0 # 1)%Q slider_kdl
      slider_kdl_model 1 [(1 # 2)%Q] slider_pose [] = Ok ([(1 # 2)%Q], r) t' ∧
    KDLModel.LMA_solve slider_identity (0 # 1)%Q slider_kdl slider_kdl_model 1
      [(1 # 2)%Q] slider_pose = Some (q_sol, r).
Proof.
  apply (chainIK_fixed_chain_returns_seed slider_identity slider_identity (0 # 1)%Q
           slider_kdl slider_kdl_model 1 "flange" [(1 # 2)%Q] slider_pose [] [] []).
  - reflexivity.
  - intros seg Hin Hmov.
    change (seg ∈ [KDLModel.mkSegment (KDLModel.mkJoint "mount" KDLModel.Fixed)])
      in Hin.
    apply list_elem_of_singleton in Hin as ->. by apply Hmov.
Defined.

Lemma arm_chain_named (seg : KDLModel.Segment) :
  seg ∈ KDLModel.segments (KDLModel.getChain arm_kdl tt "base" "hand") →
  KDLModel.movable seg →
  KDLModel.getName (KDLModel.getJoint seg) ∈ ["j0"; "j1"; "j2"].
Proof.
  intros Hin Hmov. change (seg ∈ KDLModel.segments arm_chain) in Hin. simpl in Hin.
  apply elem_of_cons in Hin as [->|Hin]; [by left|].
  apply elem_of_cons in Hin as [->|Hin]; [by destruct Hmov|].
  apply list_elem_of_singleton in Hin as ->. by do 2 right; left.
Qed.

Lemma constructed_chainIK_returns_witness :
  (∃ q1 r t', KDLModel.chainIKLMA arm_identity arm_identity 0%Z arm_kdl
                arm_kdl_model 2 [10; 20; 30]%Z arm_pose [] = Ok (q1, r) t') ∧
  (∃ q1 r t', KDLModel.chainIKNR arm_identity arm_identity 0%Z arm_kdl
                arm_kdl_model 2 [10; 20; 30]%Z arm_pose [] = Ok (q1, r) t') ∧
  (length ["j0"; "j1"; "j2"] ≤ length [0; 0; 0]%Z →
   length ["j0"; "j1"; "j2"] ≤ length [9; 9; 9]%Z →
   ∃ q1 r t', KDLModel.chainIKNRJL arm_identity arm_identity 0%Z arm_kdl
                arm_kdl_model 2 [10; 20; 30]%Z arm_pose [0; 0; 0]%Z [9; 9; 9]%Z []
              = Ok (q1, r) t').
Proof.
  apply (constructed_chainIK_returns arm_identity arm_identity 0%Z arm_kdl
           arm_segments tt "base" ["j0"; "j1"; "j2"] ["base"; "elbow"; "hand"]
           false [] [] arm_kdl_model 2 "hand").
  - exact arm_kdl_constructed.
  - exact arm_kdl_keeps_size.
  - reflexivity.
  - exact arm_chain_named.
  - simpl. lia.
Defined.

Lemma constructed_TreeIKNRJL_returns_witness :
  ∃ q1 r t',
    KDLModel.TreeIKNRJL arm_identity arm_identity 0%Z arm_identity arm_kdl arm_kdl_model ["hand"]
      [10; 20; 30]%Z [arm_pose] [0; 0; 0]%Z [9; 9; 9]%Z [] = Ok (q1, r) t'.
Proof.
  apply (constructed_TreeIKNRJL_returns arm_identity arm_identity 0%Z arm_identity arm_kdl
           arm_segments tt "base" ["j0"; "j1"; "j2"] ["base"; "elbow"; "hand"]
           false [] []).
  - exact arm_kdl_constructed.
  - exact arm_kdl_keeps_size.
  - done.
  - reflexivity.
  - reflexivity.
  - reflexivity.
  - simpl. lia.
Defined.
